(** * blobfile: the remote object-access core of [blobfile/ops.py]

    A shallow embedding of the HTTP executor, the token manager, the
    streaming readers and writers and the directory layer of [ops.py],
    followed by the properties proved of them.

    Conventions of the embedding.
    - Python [int] is [Z]; Python [float] (seconds, epochs) is [Q]: the
      rationals stand for the floats, and rounding is not modelled.
    - [bytes] is [list byte]; [str] is [string].
    - A Python [dict] is a [gmap], a [set] a [gset].
    - The network is explicit: for the executor and the streams, a
      script of what the server (or the transport) answers, request by
      request; for the directory layer, a model of the object stores
      that answers from its contents.
    - A Python exception is a value of [exn]; a function that may raise
      returns an outcome. *)

From Stdlib Require Import ZArith QArith Qminmax Qpower String List Lia Lqa.
From Stdlib.Strings Require Import Byte Ascii.
From stdpp Require Import gmap strings list.

Open Scope Z_scope.

(** ** Exceptions raised by the modelled code *)

Inductive exn : Type :=
| AssertionError
| FileExistsError
| FileNotFoundError
| NotADirectoryError
| IsADirectoryError
| OSError
| ValueError
| ZeroDivisionError
| KeyError
| Exception (msg : string)
| TransportError.   (* an exception of the HTTP layer that the code does not catch *)

(** What a call that may raise gives back. *)
Inductive Outcome (A : Type) : Type :=
| Ok (a : A)
| Raises (e : exn).
Arguments Ok {A} a.
Arguments Raises {A} e.

(** ** Byte strings *)

(** [len(b)] *)
Definition len (b : list byte) : Z := Z.of_nat (length b).

(** [b[:n]] for [n >= 0]; the code never slices with a negative bound. *)
Fixpoint slice_to (n : Z) (b : list byte) : list byte :=
  match b with
  | [] => []
  | x :: b' => if n <=? 0 then [] else x :: slice_to (n - 1) b'
  end.

(** [b[n:]] for [n >= 0]. *)
Fixpoint slice_from (n : Z) (b : list byte) : list byte :=
  match b with
  | [] => []
  | x :: b' => if n <=? 0 then b else slice_from (n - 1) b'
  end.

(** ** Invalid characters and the shard alphabet (ops.py 63-67, 843-845) *)

Module Chars.

(** Python's [range(a, b)]: a, a+1, ..., b-1. *)
Definition range (a b : Z) : list Z := seqZ a (b - a).

(** [set().union(range(0x0, 0x9)).union(range(0xB, 0xE)).union(range(0xE, 0x20))] *)
Definition INVALID_CHARS : gset Z :=
  ((∅ ∪ list_to_set (range 0x0 0x9))
      ∪ list_to_set (range 0xB 0xE))
      ∪ list_to_set (range 0xE 0x20).

(** [ord("/")] *)
Definition ord_slash : Z := 0x2F.

(** [[i for i in range(256) if i not in INVALID_CHARS and i != ord("/")]] *)
Definition valid_chars : list Z :=
  filter (λ i, (i ∉ INVALID_CHARS) ∧ (i ≠ ord_slash)) (range 0 256).

(** The set the specification writes down:
    0x00-0x08, 0x0B, 0x0C, 0x0E-0x1F. *)
Definition spec_invalid (i : Z) : Prop :=
  (0x00 ≤ i ≤ 0x08) ∨ i = 0x0B ∨ i = 0x0C ∨ (0x0E ≤ i ≤ 0x1F).

End Chars.

(** ** The HTTP executor (ops.py 309-318, 341-379) *)

Module Executor.

(** What one attempt of [_get_http_pool().request(...)] produces. *)
Inductive AttemptOutcome : Type :=
| Response (status : Z)
| ConnectTimeoutError
| ReadTimeoutError
| ProtocolError
| OtherError.       (* any exception outside the [except] clause *)

(** One turn of the generator's loop body after the [yield]:
    [value *= multiplier; if value > maximum: value = maximum]. *)
Definition advance (maximum multiplier value : Q) : Q :=
  let value := (value * multiplier)%Q in
  if Qle_bool value maximum then value else maximum.

(** [_exponential_sleep_generator(initial, maximum, multiplier)] as the
    sequence of the values it yields: [n] is the index [enumerate]
    pairs the value with. *)
Fixpoint _exponential_sleep_generator
    (initial maximum multiplier : Q) (n : nat) : Q :=
  match n with
  | O => initial
  | S n' => advance maximum multiplier
              (_exponential_sleep_generator initial maximum multiplier n')
  end.

(** The default of the [retry_statuses] argument. *)
Definition retry_statuses : list Z := [429; 500; 502; 503; 504].

(** [resp.status in retry_statuses] *)
Definition status_in (status : Z) (statuses : list Z) : bool :=
  bool_decide (status ∈ statuses).

Inductive Result : Type :=
| Returned (status : Z)      (* [return resp] *)
| Raised                     (* an uncaught exception left the loop *)
| StillRetrying.             (* the script ended while the loop was retrying *)

(** What the caller and the clock observe of one call. *)
Record Run : Type := mkRun {
  result : Result;
  slept : list Q;            (* the arguments of [time.sleep], in order *)
  logged : list nat          (* the attempts reported to [_log_callback] *)
}.

Definition after_retry (attempt : nat) (backoff : Q) (r : Run) : Run :=
  {| result := result r;
     slept := backoff :: slept r;
     logged := if (3 <=? attempt)%nat then attempt :: logged r else logged r |}.

(** The body of [for attempt, backoff in enumerate(...)], from attempt
    number [attempt] on; [script] holds the outcome of each attempt to
    come. *)
Fixpoint attempts_from (statuses : list Z) (attempt : nat)
    (script : list AttemptOutcome) : Run :=
  match script with
  | [] => mkRun StillRetrying [] []
  | outcome :: script' =>
      let backoff := _exponential_sleep_generator 0.1 60.0 2 attempt in
      let retry := after_retry attempt backoff
                     (attempts_from statuses (S attempt) script') in
      match outcome with
      | Response status =>
          if status_in status statuses then retry
          else mkRun (Returned status) [] []
      | ConnectTimeoutError | ReadTimeoutError | ProtocolError => retry
      | OtherError => mkRun Raised [] []
      end
  end.

Definition _execute_request_with (statuses : list Z)
    (script : list AttemptOutcome) : Run :=
  attempts_from statuses 0 script.

(** [_execute_request(build_req)], as every caller in the file invokes it. *)
Definition _execute_request (script : list AttemptOutcome) : Run :=
  _execute_request_with retry_statuses script.

(** The transient failures of the specification: an I/O error of the
    connect, read or protocol layer, or one of the five statuses. *)
Definition transient (o : AttemptOutcome) : Prop :=
  o = ConnectTimeoutError ∨ o = ReadTimeoutError ∨ o = ProtocolError
  ∨ ∃ status, o = Response status ∧ status ∈ [429; 500; 502; 503; 504].

(** The delay the specification gives for the sleep after attempt [n]
    (attempts counted from 0, as [enumerate] does). *)
Definition spec_delay (n : nat) : Q := Qmin (0.1 * 2 ^ Z.of_nat n) 60.

End Executor.

(** ** The token manager (ops.py 46, 139-162) *)

Module Tokens.

Definition EARLY_EXPIRATION_SECONDS : Q := 5 * 60.

Section Manager.
(** The tokens are [Any] in the source. *)
Context {Token : Type}.

(** The fields [__init__] sets, the lock apart: the dict [_tokens]
    and the one float [_expiration]. *)
Record TokenManager : Type := mkManager {
  _tokens : gmap string Token;
  _expiration : option Q
}.

(** [TokenManager(get_token_fn)] *)
Definition new : TokenManager :=
  {| _tokens := ∅; _expiration := None |}.

(** What [self._get_token_fn(key)] does if it is called. *)
Inductive Loaded : Type :=
| Load (token : Token) (expiration : Q)
| LoadRaises (e : exn).

(** One call [get_token(key)]: the key, what [time.time()] reads,
    and what the loader would answer. *)
Record Call : Type := mkCall {
  key : string;
  now : Q;
  answer : Loaded
}.

(** [self._expiration is None
     or (now + EARLY_EXPIRATION_SECONDS) > self._expiration] *)
Definition expired (m : TokenManager) (now : Q) : bool :=
  match _expiration m with
  | None => true
  | Some expiration =>
      negb (Qle_bool (now + EARLY_EXPIRATION_SECONDS) expiration)
  end.

(** The first [if] of [get_token]: the manager as the second [if]
    (and the loader) find it. *)
Definition before_load (m : TokenManager) (c : Call) : TokenManager :=
  if expired m (now c) then
    {| _tokens := delete (key c) (_tokens m);
       _expiration := _expiration m |}
  else m.

(** What the caller sees of one call. *)
Record Reply : Type := mkReply {
  value : exn + Token;        (* raised, or returned *)
  loader_called : bool
}.

Definition get_token (m : TokenManager) (c : Call)
    : TokenManager * Reply :=
  let m1 := before_load m c in
  match _tokens m1 !! key c with
  | Some token => (m1, mkReply (inr token) false)
  | None =>
      match answer c with
      | Load token expiration =>
          ({| _tokens := <[key c := token]> (_tokens m1);
              _expiration := Some expiration |},
           mkReply (inr token) true)
      | LoadRaises e => (m1, mkReply (inl e) true)
      end
  end.

(** The expiration epoch that came with the token cached for each
    key: what the loader returned together with it.  The source keeps
    no such table; it is the yardstick of the specification. *)
Definition record_expirations (m : TokenManager) (g : gmap string Q)
    (c : Call) : gmap string Q :=
  match _tokens (before_load m c) !! key c with
  | Some _ => g
  | None =>
      match answer c with
      | Load _ expiration => <[key c := expiration]> g
      | LoadRaises _ => delete (key c) g
      end
  end.

(** A sequence of calls on a fresh manager. *)
Fixpoint calls_from (m : TokenManager) (g : gmap string Q)
    (calls : list Call) : TokenManager * gmap string Q :=
  match calls with
  | [] => (m, g)
  | c :: calls' =>
      calls_from (fst (get_token m c)) (record_expirations m g c) calls'
  end.

Definition after_calls (calls : list Call) : TokenManager * gmap string Q :=
  calls_from new ∅ calls.


End Manager.

Arguments TokenManager : clear implicits.
Arguments Call : clear implicits.
Arguments Loaded : clear implicits.
Arguments Reply : clear implicits.

End Tokens.

(** ** The streaming writers (ops.py 1495-1655) *)

Module Writer.

Definition GOOGLE_CHUNK_SIZE : Z := 2 ^ 20.
Definition AZURE_MAX_CHUNK_SIZE : Z := 4 * 2 ^ 20.

(** The statuses the server answers to the requests of one stream, in
    the order the requests are made; each is what
    [_execute_google_api_request] or [_execute_azure_api_request] hands
    back, the executor's retries done. *)
Definition Script : Type := list Z.

(** One request: the status of its response.  A request the script has
    no answer for raises out of the executor. *)
Definition request (script : Script) : Outcome Z * Script :=
  match script with
  | [] => (Raises TransportError, [])
  | status :: script' => (Ok status, script')
  end.

(** [assert cond] *)
Definition assert (cond : bool) : Outcome unit :=
  if cond then Ok tt else Raises AssertionError.

(** The hook [_upload_chunk(self, chunk, finalize)] of a subclass, over
    the fields [H] the subclass adds.  It reads [self._offset] and
    [self._buf] of the base class and writes neither. *)
Class Uploader (H : Type) : Type := {
  chunk_size : Z;
  _upload_chunk :
    Z → list byte → H → list byte → bool → Script → Outcome unit * H * Script
}.

(** [_StreamingWriteFile]: the fields of the base class, [closed] of
    [io.IOBase], and the fields [own] of the subclass. *)
Record WriteFile (H : Type) : Type := mkWriteFile {
  _offset : Z;
  _buf : list byte;
  _chunk_size : Z;
  closed : bool;
  own : H
}.
Arguments mkWriteFile {H}.
Arguments _offset {H}.
Arguments _buf {H}.
Arguments _chunk_size {H}.
Arguments closed {H}.
Arguments own {H}.

Section Base.
Context {H : Type} `{Uploader H}.

(** [_StreamingWriteFile.__init__(self, chunk_size)] *)
Definition init (h : H) : WriteFile H :=
  {| _offset := 0; _buf := []; _chunk_size := chunk_size;
     closed := false; own := h |}.

(** The [size] that [_upload_buf] computes, with the [assert] (and the
    division) that guard it. *)
Definition upload_size (f : WriteFile H) (finalize : bool) : Outcome Z :=
  if finalize then Ok (len (_buf f))
  else if _chunk_size f =? 0 then Raises ZeroDivisionError
  else
    let size := (len (_buf f) / _chunk_size f) * _chunk_size f in
    if size >? 0 then Ok size else Raises AssertionError.

Definition _upload_buf (f : WriteFile H) (finalize : bool) (script : Script)
    : Outcome unit * WriteFile H * Script :=
  match upload_size f finalize with
  | Raises e => (Raises e, f, script)
  | Ok size =>
      let chunk := slice_to size (_buf f) in
      (* self._buf = self._buf[size:] *)
      let f := mkWriteFile (_offset f) (slice_from size (_buf f)) (_chunk_size f)
                 (closed f) (own f) in
      (* self._upload_chunk(chunk, finalize) *)
      match _upload_chunk (_offset f) (_buf f) (own f) chunk finalize script
      with
      | (Raises e, h, script') =>
          (Raises e,
           mkWriteFile (_offset f) (_buf f) (_chunk_size f) (closed f) h,
           script')
      | (Ok _, h, script') =>
          (* self._offset += len(chunk) *)
          (Ok tt,
           mkWriteFile (_offset f + len chunk) (_buf f) (_chunk_size f)
             (closed f) h,
           script')
      end
  end.

(** [while len(self._buf) > self._chunk_size: self._upload_buf()].
    Two turns are the most the loop can slice_to (see [upload_loop_turns]);
    [turns] bounds them. *)
Fixpoint upload_loop (turns : nat) (f : WriteFile H) (script : Script)
    : option (Outcome unit * WriteFile H * Script) :=
  if len (_buf f) >? _chunk_size f then
    match turns with
    | O => None
    | S turns' =>
        match _upload_buf f false script with
        | (Ok _, f', script') => upload_loop turns' f' script'
        | raised => Some raised
        end
    end
  else Some (Ok tt, f, script).

(** [write(self, b)]: returns [len(b)]. *)
Definition write (f : WriteFile H) (b : list byte) (script : Script)
    : option (Outcome Z * WriteFile H * Script) :=
  let f := mkWriteFile (_offset f) (_buf f ++ b) (_chunk_size f)
             (closed f) (own f) in
  match upload_loop 2 f script with
  | None => None
  | Some (Ok _, f', script') => Some (Ok (len b), f', script')
  | Some (Raises e, f', script') => Some (Raises e, f', script')
  end.

(** [close(self)] *)
Definition close (f : WriteFile H) (script : Script)
    : Outcome unit * WriteFile H * Script :=
  if closed f then (Ok tt, f, script)
  else
    match _upload_buf f true script with
    | (Ok _, f', script') =>
        (Ok tt,
         mkWriteFile (_offset f') (_buf f') (_chunk_size f') true (own f'),
         script')
    | raised => raised
    end.

(** [tell(self)] *)
Definition tell (f : WriteFile H) : Z := _offset f.

(** The operations of a caller on a stream. *)
Inductive Op : Type :=
| Write (b : list byte)
| Close.

(** The bytes the caller has handed to [write] over these operations. *)
Fixpoint accepted (ops : list Op) : Z :=
  match ops with
  | [] => 0
  | Write b :: ops' => len b + accepted ops'
  | Close :: ops' => accepted ops'
  end.

(** The operations in turn, up to the first that raises. *)
Fixpoint run (f : WriteFile H) (ops : list Op) (script : Script)
    : option (Outcome unit * WriteFile H * Script) :=
  match ops with
  | [] => Some (Ok tt, f, script)
  | Write b :: ops' =>
      match write f b script with
      | None => None
      | Some (Ok _, f', script') => run f' ops' script'
      | Some (Raises e, f', script') => Some (Raises e, f', script')
      end
  | Close :: ops' =>
      match close f script with
      | (Ok _, f', script') => run f' ops' script'
      | raised => Some raised
      end
  end.

End Base.

(** *** Google: resumable upload session *)

Record GoogleFields : Type := { _upload_url : string }.

(** [_GoogleStreamingWriteFile._upload_chunk]: one PUT to the session;
    a final chunk wants 200 or 201, any other 308. *)
Definition google_upload_chunk (offset : Z) (buf : list byte)
    (h : GoogleFields) (chunk : list byte) (finalize : bool)
    (script : Script) : Outcome unit * GoogleFields * Script :=
  match (if finalize then assert (len buf =? 0) else Ok tt) with
  | Raises e => (Raises e, h, script)
  | Ok _ =>
      match request script with
      | (Raises e, script') => (Raises e, h, script')
      | (Ok status, script') =>
          if finalize
          then (assert ((status =? 200) || (status =? 201)), h, script')
          else (assert (status =? 308), h, script')
      end
  end.

#[export] Instance google_uploader : Uploader GoogleFields := {|
  chunk_size := GOOGLE_CHUNK_SIZE;
  _upload_chunk := google_upload_chunk
|}.

(** [_GoogleStreamingWriteFile.__init__]: the POST that opens the
    session must answer 200; its [Location] header is [location]. *)
Definition google_open (location : string) (script : Script)
    : Outcome (WriteFile GoogleFields) * Script :=
  match request script with
  | (Raises e, script') => (Raises e, script')
  | (Ok status, script') =>
      if status =? 200
      then (Ok (init {| _upload_url := location |}), script')
      else (Raises AssertionError, script')
  end.

(** *** Azure: append blob *)

(** [_md5] is the running [hashlib.md5()]: the bytes fed to it so far. *)
Record AzureFields : Type := { _url : string; _md5 : list byte }.

(** The [while start < len(chunk)] loop of
    [_AzureStreamingWriteFile._upload_chunk]: for each block, the
    append-block PUT (with [x-ms-blob-condition-appendpos] at
    [offset + start]) and the properties PUT that stores the md5.
    [turns] bounds the turns; [length chunk] is enough of them. *)
Fixpoint azure_append_blocks (turns : nat) (start : Z) (offset : Z)
    (h : AzureFields) (chunk : list byte) (script : Script)
    : Outcome unit * AzureFields * Script :=
  if start <? len chunk then
    match turns with
    | O => (Ok tt, h, script)
    | S turns' =>
        let end_ := start + AZURE_MAX_CHUNK_SIZE in
        let data := slice_to (end_ - start) (slice_from start chunk) in
        let h := {| _url := _url h; _md5 := _md5 h ++ data |} in
        match request script with
        | (Raises e, script') => (Raises e, h, script')
        | (Ok status, script') =>
            (* assert resp.status in (201, 412) *)
            match assert ((status =? 201) || (status =? 412)) with
            | Raises e => (Raises e, h, script')
            | Ok _ =>
                match request script' with
                | (Raises e, script'') => (Raises e, h, script'')
                | (Ok status', script'') =>
                    (* assert resp.status == 200 *)
                    match assert (status' =? 200) with
                    | Raises e => (Raises e, h, script'')
                    | Ok _ =>
                        azure_append_blocks turns'
                          (start + AZURE_MAX_CHUNK_SIZE) offset h chunk script''
                    end
                end
            end
        end
    end
  else (Ok tt, h, script).

Definition azure_upload_chunk (offset : Z) (buf : list byte)
    (h : AzureFields) (chunk : list byte) (finalize : bool)
    (script : Script) : Outcome unit * AzureFields * Script :=
  if len chunk =? 0 then (Ok tt, h, script)
  else azure_append_blocks (length chunk) 0 offset h chunk script.

#[export] Instance azure_uploader : Uploader AzureFields := {|
  chunk_size := AZURE_MAX_CHUNK_SIZE;
  _upload_chunk := azure_upload_chunk
|}.

(** [_AzureStreamingWriteFile.__init__]: the PUT that creates the append
    blob; on 409 the blob in the way is removed ([remove(path)]: a DELETE
    that must answer 202, 404 raising [FileNotFoundError]) and the PUT is
    made once more; the last status must be 201. *)
Definition azure_open (url : string) (script : Script)
    : Outcome (WriteFile AzureFields) * Script :=
  let opened := Ok (init {| _url := url; _md5 := [] |}) in
  match request script with
  | (Raises e, script') => (Raises e, script')
  | (Ok status, script') =>
      if status =? 409 then
        match request script' with
        | (Raises e, script'') => (Raises e, script'')
        | (Ok deleted, script'') =>
            if deleted =? 404 then (Raises FileNotFoundError, script'')
            else if negb (deleted =? 202) then (Raises AssertionError, script'')
            else
              match request script'' with
              | (Raises e, script3) => (Raises e, script3)
              | (Ok status', script3) =>
                  if status' =? 201 then (opened, script3)
                  else (Raises AssertionError, script3)
              end
        end
      else if status =? 201 then (opened, script')
      else (Raises AssertionError, script')
  end.

(** *** Streams for the examples *)

Definition three_bytes : list byte := [x6d; x65; x6f]%byte.
Definition session : GoogleFields := {| _upload_url := "https://session" |}.

Definition append_blob : AzureFields :=
  {| _url := "https://account.blob.core.windows.net/container/blob";
     _md5 := [] |}.

(** A script with every 412 replaced by 201. *)
Definition as_appended (status : Z) : Z :=
  if status =? 412 then 201 else status.

(** The bytes handed to [write] over these operations, in order. *)
Fixpoint written (ops : list Op) : list byte :=
  match ops with
  | [] => []
  | Write b :: ops' => b ++ written ops'
  | Close :: ops' => written ops'
  end.

(** The running md5 and the pending buffer of a stream hold, one after
    the other, [data]; and the offset is the number of bytes digested. *)
Definition md5_then_buffer (f : WriteFile AzureFields) (data : list byte)
    : Prop :=
  _md5 (own f) ++ _buf f = data ∧ len (_md5 (own f)) = _offset f.

(** A subclass for the examples: chunks of two bytes, one PUT for each
    upload, any answer taken. *)
Definition two_byte_chunks : Uploader unit := {|
  chunk_size := 2;
  _upload_chunk := λ _ _ h _ _ script,
    match request script with
    | (Ok _, script') => (Ok tt, h, script')
    | (Raises e, script') => (Raises e, h, script')
    end
|}.

End Writer.

(** ** The streaming readers (ops.py 1320-1492) *)

Module Reader.

Definition SEEK_SET : Z := 0.
Definition SEEK_CUR : Z := 1.
Definition SEEK_END : Z := 2.

(** What [self._f] can hold. *)
Inductive Body : Type :=
| HttpBody (next : Z)    (* the response of a ranged GET; [next] is the
                            position in the remote object of the byte it
                            delivers next *)
| EmptyBytesIO.          (* the [io.BytesIO()] that goes with a [_RangeError] *)

(** The fields of [_StreamingReadFile] ([_path] apart). *)
Record ReadFile : Type := mkReadFile {
  _size : Z;
  _offset : Z;
  _f : option Body;
  requests : Z;
  failures : Z;
  bytes_read : Z
}.

(** [_StreamingReadFile.__init__(self, path, size)] *)
Definition init (size : Z) : ReadFile :=
  {| _size := size; _offset := 0; _f := None;
     requests := 0; failures := 0; bytes_read := 0 |}.

(** What [self._f.readinto(b)] does on the response of a GET. *)
Inductive BodyRead : Type :=
| Delivers (n : Z)       (* the connection has [n] bytes to give *)
| ReadTimeoutError
| ProtocolError
| OtherError.            (* an exception the loop does not catch *)

(** What one turn of the retry loop of [readinto] meets: the answer to
    the ranged GET, should the turn issue one, and what the body read
    does. *)
Record Attempt : Type := mkAttempt {
  get : Outcome Z;
  body_read : BodyRead
}.

(** [_get_file(self, offset)], the same in [_GoogleStreamingReadFile] and
    [_AzureStreamingReadFile] but for the URL: the body, and whether a
    [_RangeError] comes with it. *)
Definition _get_file (offset : Z) (answer : Outcome Z)
    : Outcome (Body * bool) :=
  match answer with
  | Raises e => Raises e
  | Ok status =>
      if status =? 416 then Ok (EmptyBytesIO, true)
      else if status =? 206 then Ok (HttpBody offset, false)
      else Raises AssertionError
  end.

Inductive ReadResult : Type :=
| Returned (n : Z)
| Raised (e : exn)
| StillRetrying.         (* the script ended while the loop was retrying *)

(** What a call of [readinto] leaves behind: its result, the stream, the
    sleeps, and the ranged GETs it issued (offset asked for, answer). *)
Record ReadRun : Type := mkReadRun {
  outcome : ReadResult;
  file : ReadFile;
  slept : list Q;
  gets : list (Z * Outcome Z)
}.

Definition with_f (f : ReadFile) (body : option Body) : ReadFile :=
  mkReadFile (_size f) (_offset f) body (requests f) (failures f)
    (bytes_read f).

(** [self.failures += 1], then the sleep, then the next turn. *)
Definition retry_after (backoff : Q) (r : ReadRun) : ReadRun :=
  mkReadRun (outcome r) (file r) (backoff :: slept r) (gets r).

Definition issued (offset : Z) (answer : Outcome Z) (r : ReadRun) : ReadRun :=
  mkReadRun (outcome r) (file r) (slept r) ((offset, answer) :: gets r).

(** The turns of [for attempt, backoff in enumerate(...)] from turn
    [attempt] on, for a buffer [b] of [nb] bytes. *)
Fixpoint turns_from (attempt : nat) (f : ReadFile) (nb : Z)
    (script : list Attempt) : ReadRun :=
  match script with
  | [] => mkReadRun StillRetrying f [] []
  | a :: script' =>
      let backoff := Executor._exponential_sleep_generator 0.1 60.0 2 attempt in
      (* the rest of the turn, [self._f] being [body] *)
      let read_body (f : ReadFile) (body : Body) : ReadRun :=
        let failed (f : ReadFile) : ReadRun :=
          retry_after backoff
            (turns_from (S attempt)
               (mkReadFile (_size f) (_offset f) (_f f) (requests f)
                  (failures f + 1) (bytes_read f))
               nb script') in
        let read (n : Z) (next : option Body) : ReadRun :=
          if n =? 0 then failed (with_f f None)
          else
            mkReadRun (Returned n)
              (mkReadFile (_size f) (_offset f + n) next (requests f)
                 (failures f) (bytes_read f + n))
              [] [] in
        match body with
        | EmptyBytesIO => read 0 (Some EmptyBytesIO)
        | HttpBody next =>
            match body_read a with
            | Delivers available =>
                let n := Z.max 0 (Z.min available nb) in
                read n (Some (HttpBody (next + n)))
            | ReadTimeoutError | ProtocolError => failed f
            | OtherError => mkReadRun (Raised TransportError) f [] []
            end
        end in
      match _f f with
      | Some body => read_body f body
      | None =>
          issued (_offset f) (get a)
            match _get_file (_offset f) (get a) with
            | Raises e => mkReadRun (Raised e) f [] []
            | Ok (body, true) =>
                mkReadRun (Returned 0) (with_f f (Some body)) [] []
            | Ok (body, false) =>
                read_body
                  (mkReadFile (_size f) (_offset f) (Some body)
                     (requests f + 1) (failures f) (bytes_read f))
                  body
            end
      end
  end.

(** [readinto(self, b)] with [len(b) = nb]. *)
Definition readinto (f : ReadFile) (nb : Z) (script : list Attempt)
    : ReadRun :=
  if _size f =? _offset f then mkReadRun (Returned 0) f [] []
  else turns_from 0 f nb script.

(** [seek(self, offset, whence)] *)
Definition seek (f : ReadFile) (offset whence : Z) : Outcome Z * ReadFile :=
  let moved (new_offset : Z) : Outcome Z * ReadFile :=
    if new_offset =? _offset f then (Ok (_offset f), f)
    else
      (Ok new_offset,
       mkReadFile (_size f) new_offset None (requests f) (failures f)
         (bytes_read f)) in
  if whence =? SEEK_SET then moved offset
  else if whence =? SEEK_CUR then moved (_offset f + offset)
  else if whence =? SEEK_END then moved (_size f + offset)
  else (Raises ValueError, f).

(** [tell(self)] *)
Definition tell (f : ReadFile) : Z := _offset f.

(** The operations of a caller on a stream. *)
Inductive Op : Type :=
| Seek (offset whence : Z)
| Readinto (nb : Z) (script : list Attempt).

(** The stream after one operation, whether it returned or raised. *)
Definition after (f : ReadFile) (op : Op) : ReadFile :=
  match op with
  | Seek offset whence => (seek f offset whence).2
  | Readinto nb script => file (readinto f nb script)
  end.

Definition after_all (f : ReadFile) (ops : list Op) : ReadFile :=
  foldl after f ops.

(** The open body, if it is the response of a GET, stands at the offset
    of the stream. *)
Definition body_at_offset (f : ReadFile) : Prop :=
  ∀ next, _f f = Some (HttpBody next) → next = _offset f.

(** The position a seek asks for, in the words of [io]: [whence] 0 counts
    [offset] from the start of the file, 1 from the current position,
    2 from the end; any other [whence] asks for none. *)
Definition asked_position (size current offset whence : Z) : option Z :=
  match whence with
  | 0 => Some offset
  | 1 => Some (current + offset)
  | 2 => Some (size + offset)
  | _ => None
  end.

(** An operation that stays within the object: a seek that asks for a
    position of [0 .. size], a read whose bodies deliver nothing beyond
    [size]. *)
Definition within_size (f : ReadFile) (op : Op) : Prop :=
  match op with
  | Seek offset whence =>
      ∀ target, asked_position (_size f) (_offset f) offset whence
                = Some target →
                0 ≤ target ≤ _size f
  | Readinto nb script =>
      ∀ a available, a ∈ script → body_read a = Delivers available →
        Z.min available nb ≤ _size f - _offset f
  end.

Fixpoint all_within_size (f : ReadFile) (ops : list Op) : Prop :=
  match ops with
  | [] => True
  | op :: ops' => within_size f op ∧ all_within_size (after f op) ops'
  end.


End Reader.

(** ** Paths, the object stores and the directory layer
       (ops.py 382-393, 597-645, 722-872, 966-1028) *)

Module Blob.

(** *** Paths *)

(** [s.endswith(suffix)] *)
Fixpoint endswith (s suffix : string) : bool :=
  if String.eqb s suffix then true
  else match s with
       | EmptyString => false
       | String _ s' => endswith s' suffix
       end.

(** [if not path.endswith("/"): path += "/"] *)
Definition with_slash (path : string) : string :=
  if endswith path "/" then path else path +:+ "/".

(** [_strip_slash(path)] *)
Definition _strip_slash (path : string) : string :=
  if endswith path "/" then substring 0 (String.length path - 1) path
  else path.

(** [name[n:]] *)
Definition str_from (n : nat) (name : string) : string :=
  substring n (String.length name - n) name.

(** *** The shape of a path

    [urllib.parse.urlparse(path)], as CPython 3.11 reads a path, as far
    as the tests of a path go: the scheme and the network location.
    Characters are code points below 256. *)

Definition between (lo hi : nat) (c : ascii) : bool :=
  (lo <=? nat_of_ascii c)%nat && (nat_of_ascii c <=? hi)%nat.

(** [url.lstrip(_WHATWG_C0_CONTROL_OR_SPACE)] *)
Fixpoint lstrip (url : string) : string :=
  match url with
  | EmptyString => EmptyString
  | String c url' => if between 0 32 c then lstrip url' else url
  end.

(** [for b in _UNSAFE_URL_BYTES_TO_REMOVE: url = url.replace(b, "")]: the
    tab, the line feed and the carriage return go, wherever they are. *)
Fixpoint remove_unsafe (url : string) : string :=
  match url with
  | EmptyString => EmptyString
  | String c url' =>
      if Ascii.eqb c "009" || Ascii.eqb c "010" || Ascii.eqb c "013"
      then remove_unsafe url'
      else String c (remove_unsafe url')
  end.

(** [c.isascii() and c.isalpha()], [c in scheme_chars], [c.lower()] *)
Definition is_letter (c : ascii) : bool := between 65 90 c || between 97 122 c.
Definition is_scheme_char (c : ascii) : bool :=
  is_letter c || between 48 57 c
  || Ascii.eqb c "+" || Ascii.eqb c "-" || Ascii.eqb c ".".
Definition lower (c : ascii) : ascii :=
  if between 65 90 c then ascii_of_nat (nat_of_ascii c + 32) else c.

(** [url[:i].lower(), url[i+1:]] for [i = url.find(":")], when there is
    a colon and every character before it is one a scheme may hold. *)
Fixpoint scheme_and_rest (url : string) : option (string * string) :=
  match url with
  | EmptyString => None
  | String c url' =>
      if Ascii.eqb c ":" then Some (EmptyString, url')
      else if is_scheme_char c then
        match scheme_and_rest url' with
        | Some (scheme, rest) => Some (String (lower c) scheme, rest)
        | None => None
        end
      else None
  end.

(** The scheme, which starts with a letter, and what follows its colon;
    or no scheme, and the whole. *)
Definition split_scheme (url : string) : string * string :=
  match url with
  | EmptyString => (EmptyString, EmptyString)
  | String c _ =>
      if is_letter c then
        match scheme_and_rest url with
        | Some (scheme, rest) => (scheme, rest)
        | None => (EmptyString, url)
        end
      else (EmptyString, url)
  end.

(** [_splitnetloc(url, 2)]: after [//], up to the first of [/], [?], [#]. *)
Fixpoint until_delimiter (url : string) : string :=
  match url with
  | EmptyString => EmptyString
  | String c url' =>
      if Ascii.eqb c "/" || Ascii.eqb c "?" || Ascii.eqb c "#"
      then EmptyString
      else String c (until_delimiter url')
  end.

Definition netloc_of (url : string) : string :=
  match url with
  | String c (String d url') =>
      if Ascii.eqb c "/" && Ascii.eqb d "/" then until_delimiter url'
      else EmptyString
  | _ => EmptyString
  end.

Fixpoint has_bracket (netloc : string) : bool :=
  match netloc with
  | EmptyString => false
  | String c netloc' =>
      Ascii.eqb c "[" || Ascii.eqb c "]" || has_bracket netloc'
  end.

Record Url : Type := mkUrl { scheme : string; netloc : string }.

(** [urlparse] refuses a network location with a bracket in it
    ([ValueError]: Invalid IPv6 URL).  The one it would take, an IP
    literal in brackets, names no bucket and no account, and is refused
    here with the rest. *)
Definition urlparse (path : string) : Outcome Url :=
  let '(scheme, rest) := split_scheme (remove_unsafe (lstrip path)) in
  if has_bracket (netloc_of rest) then Raises ValueError
  else Ok (mkUrl scheme (netloc_of rest)).

(** [_is_google_path(path)], [_is_azure_path(path)], [_is_local_path(path)] *)
Definition _is_google_path (path : string) : Outcome bool :=
  match urlparse path with
  | Ok url => Ok (String.eqb (scheme url) "gs")
  | Raises e => Raises e
  end.
Definition _is_azure_path (path : string) : Outcome bool :=
  match urlparse path with
  | Ok url => Ok (String.eqb (scheme url) "as")
  | Raises e => Raises e
  end.
Definition _is_local_path (path : string) : Outcome bool :=
  match _is_google_path path with
  | Raises e => Raises e
  | Ok true => Ok false
  | Ok false =>
      match _is_azure_path path with
      | Raises e => Raises e
      | Ok azure => Ok (negb azure)
      end
  end.

(** [s.partition(sep)] without the separator: the text before the first
    [sep] and the text after it. *)
Fixpoint partition (sep : ascii) (s : string) : string * string :=
  match s with
  | EmptyString => (EmptyString, EmptyString)
  | String c s' =>
      if Ascii.eqb c sep then (EmptyString, s')
      else let '(before, after) := partition sep s' in (String c before, after)
  end.

(** Modelled from the spec: [google.split_url] of [google.py], which is
    not among the sources.  A path [gs://<bucket>/<key>] splits into the
    bucket and the key. *)
Definition google_split_url (path : string) : string * string :=
  partition "/" (str_from 5 path).

(** Modelled from the spec: [azure.split_url] of [azure.py], which is
    not among the sources.  A path [as://<account>-<container>/<key>]
    splits into the account, the container and the key. *)
Definition azure_split_url (path : string) : string * string * string :=
  let '(netloc, blob) := partition "/" (str_from 5 path) in
  (partition "-" netloc, blob).

Inductive Cloud : Type := Google | Azure.

(** The store a path names, when its tests return and one of
    [_is_google_path], [_is_azure_path] holds of it. *)
Definition cloud_of (path : string) : option Cloud :=
  match _is_google_path path with
  | Ok true => Some Google
  | Ok false =>
      match _is_azure_path path with
      | Ok true => Some Azure
      | _ => None
      end
  | Raises _ => None
  end.

(** The bucket or container a path lies in, as the key of the store
    below, and the name of the blob. *)
Definition locate (c : Cloud) (path : string) : string * string :=
  match c with
  | Google =>
      let '(bucket, blob) := google_split_url path in ("gs://" +:+ bucket, blob)
  | Azure =>
      let '(account, container, blob) := azure_split_url path in
      ("as://" +:+ account +:+ "-" +:+ container, blob)
  end.

(** *** The world outside: both object stores and the local file system *)

Record World : Type := mkWorld {
  roots : gset string;                          (* buckets and containers *)
  blobs : gmap (string * string) (list byte);   (* (root, name) to content *)
  files : gmap string (list byte);              (* local files *)
  dirs : gset string                            (* local directories *)
}.

(** Local files and directories go by their names as the caller writes
    them: two names are one file only when they are one string (the
    model has no links, and takes no [.], [..] or doubled slash out of
    a name), and the caller may read and write whatever is there. *)

(** The requests that reach a back-end, and the local opens. *)
Inductive Request : Type :=
| GetObject (root name : string)      (* GET or HEAD of an object's metadata *)
| GetContainer (root : string)
| ListObjects (root prefix : string)
| DeleteObject (root name : string)
| RewriteObject (src_root src_name dst_root dst_name : string)
| CopyBlob (src_root src_name dst_root dst_name : string)
| StartUpload (root name : string)    (* the POST or PUT that opens a write stream *)
| Download (root name : string)       (* the ranged GETs of a read stream *)
| Upload (root name : string)         (* the chunk PUTs of a write stream *)
| LocalOpen (path : string) (writing : bool).

(** The requests that do the work of a copy. *)
Definition is_copy_work (q : Request) : bool :=
  match q with
  | RewriteObject _ _ _ _ | CopyBlob _ _ _ _ | StartUpload _ _
  | Download _ _ | Upload _ _ | LocalOpen _ _ => true
  | GetObject _ _ | GetContainer _ | ListObjects _ _ | DeleteObject _ _ => false
  end.

(** A computation in the world: its outcome, the world after it, and the
    requests it made. *)
Definition M (A : Type) : Type := World → Outcome A * World * list Request.

Definition ret {A : Type} (a : A) : M A := λ w, (Ok a, w, []).
Definition raise {A : Type} (e : exn) : M A := λ w, (Raises e, w, []).
Definition bind {A B : Type} (m : M A) (k : A → M B) : M B :=
  λ w, match m w with
       | (Ok a, w1, l1) => let '(r, w2, l2) := k a w1 in (r, w2, l1 ++ l2)
       | (Raises e, w1, l1) => (Raises e, w1, l1)
       end.

Notation "'let!' x ':=' m 'in' k" := (bind m (λ x, k))
  (at level 10, x pattern, m at level 100, k at level 200).

(** [assert cond] *)
Definition assert (cond : bool) : M unit :=
  if cond then ret tt else raise AssertionError.

(** The chain [if _is_local_path(path): ... elif _is_google_path(path):
    ... elif _is_azure_path(path): ... else: raise Exception("unrecognized
    path")], in whichever order a function makes the tests: the tests of
    one path return together or raise together, and the first raises. *)
Definition on_path {A : Type} (path : string) (local : M A)
    (remote : Cloud → M A) : M A :=
  match _is_local_path path with
  | Raises e => raise e
  | Ok true => local
  | Ok false =>
      match cloud_of path with
      | Some c => remote c
      | None => raise (Exception "unrecognized path")
      end
  end.

(** A test of a path, within a run. *)
Definition test (tested : Outcome bool) : M bool :=
  match tested with
  | Ok b => ret b
  | Raises e => raise e
  end.

(** What [outcome], [world] and [requests] of a run are. *)
Definition outcome {A : Type} (r : Outcome A * World * list Request) : Outcome A := r.1.1.
Definition world {A : Type} (r : Outcome A * World * list Request) : World := r.1.2.
Definition requests {A : Type} (r : Outcome A * World * list Request) : list Request := r.2.

(** A run that only looks: it leaves the world as it was, and makes no
    request that does the work of a copy. *)
Definition only_probes {A : Type} (m : M A) : Prop :=
  ∀ w, world (m w) = w
       ∧ Forall (λ q, is_copy_work q = false) (requests (m w)).

(** *** What the servers answer *)

Definition object_at (w : World) (root name : string) : option (list byte) :=
  if decide (root ∈ roots w) then blobs w !! (root, name) else None.

(** GET or HEAD of an object: 200 or 404. *)
Definition get_object (root name : string) : M Z :=
  λ w, (Ok (match object_at w root name with Some _ => 200 | None => 404 end),
        w, [GetObject root name]).

(** GET of a bucket or container: 200 or 404. *)
Definition get_container (root : string) : M Z :=
  λ w, (Ok (if decide (root ∈ roots w) then 200 else 404), w,
        [GetContainer root]).

(** DELETE of an object: [done] (204 on GCS, 202 on Azure) or 404. *)
Definition delete_object (done : Z) (root name : string) : M Z :=
  λ w, match object_at w root name with
       | Some _ =>
           (Ok done,
            mkWorld (roots w) (delete (root, name) (blobs w)) (files w) (dirs w),
            [DeleteObject root name])
       | None => (Ok 404, w, [DeleteObject root name])
       end.

(** The names of the objects of [root] that start with [prefix]. *)
Definition names_under (w : World) (root prefix : string) : list string :=
  omap (λ entry : string * string * list byte,
          let '(r, name, _) := entry in
          if bool_decide (r = root) && String.prefix prefix name
          then Some name else None)
       (map_to_list (blobs w)).

(** How a listing with delimiter [/] shows an object: under its own name
    ([inl]), or, when a [/] follows the prefix, under the common prefix
    that ends at that [/] ([inr]). *)
Definition listed_as (prefix name : string) : string + string :=
  let rest := str_from (String.length prefix) name in
  match index 0 "/" rest with
  | Some i => inr (prefix +:+ substring 0 (S i) rest)
  | None => inl name
  end.

(** One page of a listing: the common prefixes and the object names
    (["prefixes"] and ["items"] on GCS, [BlobPrefix] and [Blob] on Azure).
    The listings of the model fit in one page. *)
Record Page : Type := mkPage {
  prefixes : list string;
  items : list string
}.

Definition page_of (prefix : string) (names : list string) : Page :=
  {| prefixes :=
       remove_dups
         (omap (λ name, match listed_as prefix name with
                        | inr p => Some p | inl _ => None end) names);
     items :=
       omap (λ name, match listed_as prefix name with
                     | inl n => Some n | inr _ => None end) names |}.

(** A listing with delimiter [/]; a bucket or container that does not
    exist answers with an error document instead of a page. *)
Definition list_objects (root prefix : string) : M (option Page) :=
  λ w, (Ok (if decide (root ∈ roots w)
            then Some (page_of prefix (names_under w root prefix))
            else None),
        w, [ListObjects root prefix]).

(** *** Existence and directories *)

(** [_google_isfile(path)] and [_azure_isfile(path)], the metadata they
    return apart. *)
Definition isfile (c : Cloud) (path : string) : M bool :=
  let '(root, blob) := locate c path in
  if String.eqb blob "" then ret false
  else
    let! status := get_object root blob in
    let! _ := assert ((status =? 200) || (status =? 404)) in
    ret (status =? 200).

(** [os.path.isdir(path)] and [os.path.exists(path)] *)
Definition os_path_isdir (path : string) : M bool :=
  λ w, (Ok (bool_decide (_strip_slash path ∈ dirs w)), w, []).
Definition os_path_exists (path : string) : M bool :=
  λ w, (Ok (bool_decide (_strip_slash path ∈ dirs w)
            || bool_decide (is_Some (files w !! path))), w, []).

(** [isdir(path)] *)
Definition isdir (path : string) : M bool :=
  on_path path (os_path_isdir path)
    (λ c,
      let path := with_slash path in
      let '(root, blob) := locate c path in
      if String.eqb blob "" then
        let! status := get_container root in
        ret (status =? 200)
      else
        let! page := list_objects root blob in
        match page, c with
        | Some pg, _ =>
            (* "items" in result or "prefixes" in result *)
            ret (negb (bool_decide (items pg = []))
                 || negb (bool_decide (prefixes pg = [])))
        | None, Google => ret false
        | None, Azure =>
            (* xmltodict.parse(resp)["EnumerationResults"] *)
            raise KeyError
        end).

(** [exists(path)] *)
Definition exists_ (path : string) : M bool :=
  on_path path (os_path_exists path)
    (λ c,
      let! found := isfile c path in
      if found : bool then ret true else isdir path).

(** [_google_get_names(result, skip_item_name)] yields the prefixes, then
    the items; [_azure_get_names] the blobs, then the prefixes. *)
Definition get_names (c : Cloud) (pg : Page) (skip_item_name : string)
    : list string :=
  let kept := filter (λ name, name ≠ skip_item_name) (items pg) in
  match c with
  | Google => prefixes pg ++ kept
  | Azure => kept ++ prefixes pg
  end.

(** [_list_suffixes(prefix, exclude_prefix)], all it yields *)
Definition _list_suffixes (prefix : string) (exclude_prefix : bool)
    : M (list string) :=
  on_path prefix (raise (Exception "unrecognized path"))
    (λ c,
      let '(root, blob) := locate c prefix in
      let! page := list_objects root blob in
      match page, c with
      | Some pg, _ =>
          ret ((λ name, _strip_slash (str_from (String.length blob) name))
                 <$> get_names c pg (if exclude_prefix then blob else ""))
      | None, Google => ret []
      | None, Azure => raise KeyError
      end).

(** [sorted(names)] *)
Fixpoint insert_sorted (name : string) (names : list string) : list string :=
  match names with
  | [] => [name]
  | n :: names' =>
      if String.leb name n then name :: names
      else n :: insert_sorted name names'
  end.
Definition sorted (names : list string) : list string :=
  foldr insert_sorted [] names.

(** [os.listdir(path)] for a [path] that ends in [/]: the first segments
    of what lies below it. *)
Definition os_listdir (path : string) : M (list string) :=
  λ w,
    let below := filter (λ name, Is_true (String.prefix path name)
                                 ∧ name ≠ path)
                   (elements (dom (files w)) ++ elements (dirs w)) in
    (Ok (remove_dups
           ((λ name, (partition "/" (str_from (String.length path) name)).1)
              <$> below)),
     w, []).

(** [listdir(path)], with the default [shard_prefix_length=0]: all that
    the generator yields, or what its first [next] raises. *)
Definition listdir (path : string) : M (list string) :=
  let path := with_slash path in
  let! found := exists_ path in
  if negb found then raise FileNotFoundError
  else
    let! is_dir := isdir path in
    if negb is_dir then raise NotADirectoryError
    else
      on_path path (let! names := os_listdir path in ret (sorted names))
        (λ _, _list_suffixes path true).

(** [os.rmdir(path)] *)
Definition os_rmdir (path : string) : M unit :=
  λ w,
    let dir := _strip_slash path in
    if negb (bool_decide (dir ∈ dirs w)) then
      (Raises (if bool_decide (is_Some (files w !! dir))
               then NotADirectoryError else FileNotFoundError), w, [])
    else
      match filter (λ name, Is_true (String.prefix (dir +:+ "/") name))
              (elements (dom (files w)) ++ elements (dirs w)) with
      | _ :: _ => (Raises OSError, w, [])
      | [] =>
          (Ok tt, mkWorld (roots w) (blobs w) (files w) (dirs w ∖ {[dir]}), [])
      end.

(** [rmdir(path)] *)
Definition rmdir (path : string) : M unit :=
  match _is_local_path path with
  | Raises e => raise e
  | Ok true => os_rmdir path
  | Ok false =>
    let path := with_slash path in
    on_path path (raise (Exception "unrecognized path"))
      (λ c,
        let '(root, blob) := locate c path in
        if String.eqb blob "" then raise (Exception "Cannot delete bucket")
        else
          λ w,
            (* it = listdir(path); next(it) *)
            match listdir path w with
            | (Raises FileNotFoundError, w1, l1) =>
                (* this directory does not exist *)
                (Ok tt, w1, l1)
            | (Raises e, w1, l1) => (Raises e, w1, l1)
            | (Ok (_ :: _), w1, l1) =>
                (* this directory exists but is not empty *)
                (Raises OSError, w1, l1)
            | (Ok [], w1, l1) =>
                (* this directory exists and is empty *)
                let deleted := match c with Google => 204 | Azure => 202 end in
                let '(r, w2, l2) :=
                  (let! status := delete_object deleted root blob in
                   assert (status =? deleted)) w1 in
                (r, w2, l1 ++ l2)
            end)
  end.

(** *** Directories, as the store has them

    A directory is a name that ends in [/]; it is there when some object
    of the bucket or container has that name as a prefix. *)

(** An empty directory: its marker object, and nothing below it. *)
Definition dir_is_empty (w : World) (root blob : string) : Prop :=
  root ∈ roots w
  ∧ is_Some (blobs w !! (root, blob))
  ∧ ∀ name, is_Some (blobs w !! (root, name)) →
            String.prefix blob name = true → name = blob.

(** A directory that is not empty: some object other than the marker
    lies below it. *)
Definition dir_is_nonempty (w : World) (root blob : string) : Prop :=
  root ∈ roots w
  ∧ ∃ name, is_Some (blobs w !! (root, name))
            ∧ String.prefix blob name = true ∧ name ≠ blob.

(** *** Streams and copies (ops.py 396-506, 1678-1721)

    The streaming engines have their own models ([Reader], [Writer]);
    here a stream is what it does to the world: which requests open it,
    and what a whole read or a whole write leaves behind. *)

Inductive Stream : Type :=
| ReadStream (path : string)
| WriteStream (path : string).

(** The directories on the way to a local name: each part of it that
    ends before a [/], the root apart. *)
Fixpoint ancestors_from (seen rest : string) : list string :=
  match rest with
  | EmptyString => []
  | String c rest' =>
      if Ascii.eqb c "/" then
        (if String.eqb seen "" then [] else [seen])
          ++ ancestors_from (seen +:+ "/") rest'
      else ancestors_from (seen +:+ String c EmptyString) rest'
  end.
Definition ancestors (path : string) : list string := ancestors_from "" path.

(** What stops the OS on the way to a name: the first part that is no
    directory, [ENOTDIR] when it is a file and [ENOENT] when it is not
    there. *)
Fixpoint way_to (w : World) (parts : list string) : option exn :=
  match parts with
  | [] => None
  | part :: parts' =>
      if bool_decide (part ∈ dirs w) then way_to w parts'
      else if bool_decide (is_Some (files w !! part))
           then Some NotADirectoryError
           else Some FileNotFoundError
  end.

(** [io.FileIO(path, mode)], for the modes [rb] and [wb] *)
Definition os_open (path : string) (writing : bool) : M Stream :=
  λ w,
    let refused (e : exn) := (Raises e, w, [LocalOpen path writing]) in
    if String.eqb path "" then refused FileNotFoundError
    else
      match way_to w (ancestors path) with
      | Some e => refused e
      | None =>
          if bool_decide (path ∈ dirs w) then refused IsADirectoryError
          else if writing then
            (* created if it is not there, and truncated if it is *)
            (Ok (WriteStream path),
             mkWorld (roots w) (blobs w) (<[path := []]> (files w)) (dirs w),
             [LocalOpen path true])
          else
            match files w !! path with
            | Some _ => (Ok (ReadStream path), w, [LocalOpen path false])
            | None => refused FileNotFoundError
            end
      end.

(** The request that opens a write stream: the POST of a resumable
    session on GCS (200), the PUT that creates an empty append blob on
    Azure (201). *)
Definition start_upload (c : Cloud) (path : string) : M Stream :=
  let '(root, blob) := locate c path in
  let! status :=
    (λ w, if decide (root ∈ roots w) then
            match c with
            | Google => (Ok 200, w, [StartUpload root blob])
            | Azure =>
                (Ok 201,
                 mkWorld (roots w) (<[(root, blob) := []]> (blobs w))
                   (files w) (dirs w),
                 [StartUpload root blob])
            end
          else (Ok 404, w, [StartUpload root blob])) in
  let! _ := assert (status =? match c with Google => 200 | Azure => 201 end) in
  ret (WriteStream path).

(** [_GoogleStreamingReadFile(path)], [_AzureStreamingReadFile(path)] *)
Definition open_read (c : Cloud) (path : string) : M Stream :=
  let! found := isfile c path in
  if negb found then raise FileNotFoundError else ret (ReadStream path).

(** [BlobFile(path, mode)] *)
Definition BlobFile (path mode : string) : M Stream :=
  let! _ := assert (negb (endswith path "/")) in
  let! _ := assert (bool_decide (mode ∈ ["w"; "wb"; "r"; "rb"]%string)) in
  let writing := bool_decide (mode ∈ ["w"; "wb"]%string) in
  on_path path (os_open path writing)
    (λ c, if writing then start_upload c path else open_read c path).

(** All the bytes a read stream gives until [read] returns [b""]. *)
Definition read_all (f : Stream) : M (list byte) :=
  match f with
  | WriteStream _ => raise (Exception "not readable")
  | ReadStream path =>
      match cloud_of path with
      | None => λ w, (Ok (default [] (files w !! path)), w, [])
      | Some c =>
          let '(root, blob) := locate c path in
          λ w, (Ok (default [] (object_at w root blob)), w,
                [Download root blob])
      end
  end.

(** The [write]s of [content] and the [close] of a write stream. *)
Definition write_all (f : Stream) (content : list byte) : M unit :=
  match f with
  | ReadStream _ => raise (Exception "not writable")
  | WriteStream path =>
      match cloud_of path with
      | None =>
          λ w, (Ok tt,
                mkWorld (roots w) (blobs w) (<[path := content]> (files w))
                  (dirs w), [])
      | Some c =>
          let '(root, blob) := locate c path in
          λ w, (Ok tt,
                mkWorld (roots w) (<[(root, blob) := content]> (blobs w))
                  (files w) (dirs w),
                [Upload root blob])
      end
  end.

(** The hex digest [hashlib.md5] computes, named by the bytes digested. *)
Inductive Digest : Type := md5_of (content : list byte).

(** [md5(path)] on a remote path *)
Definition md5 (c : Cloud) (path : string) : M Digest :=
  let '(root, blob) := locate c path in
  let! found := isfile c path in
  if negb found then raise FileNotFoundError
  else λ w, (Ok (md5_of (default [] (object_at w root blob))), w, []).

(** What the code cannot know of a server-side copy beforehand: whether
    GCS completes the rewrite within the call, and how many answers of
    Azure say [pending] before the copy ends, and how it ends. *)
Inductive CopyStatus : Type := pending | success | aborted | failed.

Record Server : Type := mkServer {
  rewrite_at_once : string → string → bool;
  pending_answers : string → string → nat;
  copy_end : string → string → CopyStatus
}.

(** The rewrite POST of GCS, made without a [rewriteToken]: 404 when the
    source object or the bucket of the destination is missing, else 200
    with [done]; the destination is written when the rewrite is done. *)
Definition rewrite_object (server : Server) (src dst : string)
    : M (Z * bool) :=
  let '(src_root, src_name) := locate Google src in
  let '(dst_root, dst_name) := locate Google dst in
  let q := RewriteObject src_root src_name dst_root dst_name in
  λ w, match object_at w src_root src_name with
       | Some content =>
           if decide (dst_root ∈ roots w) then
             if rewrite_at_once server src dst then
               (Ok (200, true),
                mkWorld (roots w)
                  (<[(dst_root, dst_name) := content]> (blobs w))
                  (files w) (dirs w),
                [q])
             else (Ok (200, false), w, [q])
           else (Ok (404, false), w, [q])
       | None => (Ok (404, false), w, [q])
       end.

(** What [copy] returns, or that the loop of the rewrite is still
    turning when the [turns] followed are over. *)
Inductive CopyResult : Type :=
| Copied (digest : option Digest)
| Rewriting.

(** The [while True] of the rewrite.  [params] is made anew in every
    turn, so the [rewriteToken] of an answer is never sent: each turn
    makes the request of the first. *)
Fixpoint google_rewrite (server : Server) (turns : nat) (src dst : string)
    (return_md5 : bool) : M CopyResult :=
  match turns with
  | O => ret Rewriting
  | S turns' =>
      let! (status, done) := rewrite_object server src dst in
      if status =? 404 then raise FileNotFoundError
      else
        let! _ := assert (status =? 200) in
        if done : bool then
          if return_md5 then
            (* the md5Hash of the resource in the response *)
            let '(root, blob) := locate Google dst in
            λ w, (Ok (Copied (Some (md5_of (default [] (object_at w root blob))))),
                  w, [])
          else ret (Copied None)
        else google_rewrite server turns' src dst return_md5
  end.

(** The copy-blob PUT of Azure: 404 when the source blob or the
    container of the destination is missing, else 202 with the
    [x-ms-copy-status] header.  The destination is there from then on;
    it holds the content of the source when the copy ends in [success],
    and nothing when it ends otherwise. *)
Definition copy_blob (server : Server) (src dst : string)
    : M (Z * option CopyStatus) :=
  let '(src_root, src_name) := locate Azure src in
  let '(dst_root, dst_name) := locate Azure dst in
  let q := CopyBlob src_root src_name dst_root dst_name in
  λ w, match object_at w src_root src_name with
       | Some content =>
           if decide (dst_root ∈ roots w) then
             (Ok (202,
                  Some (match pending_answers server src dst with
                        | O => copy_end server src dst
                        | S _ => pending
                        end)),
              mkWorld (roots w)
                (<[(dst_root, dst_name) :=
                     match copy_end server src dst with
                     | success => content
                     | _ => []
                     end]> (blobs w))
                (files w) (dirs w),
              [q])
           else (Ok (404, None), w, [q])
       | None => (Ok (404, None), w, [q])
       end.

(** The [while copy_status == "pending"] of the Azure copy: a GET of the
    destination for each answer that says [pending]; each must answer
    200 (and carry the [x-ms-copy-id] of the copy, the only one there
    is). *)
Fixpoint wait_for_copy (pending_left : nat) (dst : string) : M unit :=
  match pending_left with
  | O => ret tt
  | S pending_left' =>
      let '(root, blob) := locate Azure dst in
      let! status := get_object root blob in
      let! _ := assert (status =? 200) in
      wait_for_copy pending_left' dst
  end.

(** [copy(src, dst, overwrite, return_md5)], the loop of a rewrite
    followed for [turns] turns *)
Definition copy (server : Server) (turns : nat) (src dst : string)
    (overwrite return_md5 : bool) : M CopyResult :=
  let! _ :=
    (if negb overwrite then
       let! found := exists_ dst in
       if found : bool then raise FileExistsError else ret tt
     else ret tt) in
  let! google_src := test (_is_google_path src) in
  let! both_google :=
    (if google_src : bool then test (_is_google_path dst) else ret false) in
  if both_google : bool then google_rewrite server turns src dst return_md5
  else
    let! azure_src := test (_is_azure_path src) in
    let! both_azure :=
      (if azure_src : bool then test (_is_azure_path dst) else ret false) in
    if both_azure : bool then
      let! (status, header) := copy_blob server src dst in
      if status =? 404 then raise FileNotFoundError
      else
        let! _ := assert (status =? 202) in
        match header with
        | None => raise KeyError
        | Some first =>
            let! _ :=
              (match first with
               | pending => wait_for_copy (pending_answers server src dst) dst
               | _ => ret tt
               end) in
            let! _ :=
              assert (match copy_end server src dst with
                      | success => true
                      | _ => false
                      end) in
            if return_md5 then
              let! digest := md5 Azure dst in ret (Copied (Some digest))
            else ret (Copied None)
        end
    else
      let! src_f := BlobFile src "rb" in
      let! dst_f := BlobFile dst "wb" in
      let! content := read_all src_f in
      let! _ := write_all dst_f content in
      ret (Copied (if return_md5 then Some (md5_of content) else None)).

(** *** Removing and making (ops.py 890-963, 1058-1110) *)

(** The requests that only look. *)
Definition is_read (q : Request) : bool :=
  match q with
  | GetObject _ _ | GetContainer _ | ListObjects _ _ => true
  | _ => false
  end.

(** A run that reads only: the world is as before, and every request
    made is a GET of metadata or a listing. *)
Definition reads_only {A : Type} (m : M A) : Prop :=
  ∀ w, world (m w) = w ∧ Forall (λ q, is_read q = true) (requests (m w)).

(** [os.remove(path)] *)
Definition os_remove (path : string) : M unit :=
  λ w, match files w !! path with
       | Some _ =>
           (Ok tt, mkWorld (roots w) (blobs w) (delete path (files w)) (dirs w),
            [])
       | None =>
           (Raises (if bool_decide (path ∈ dirs w)
                    then IsADirectoryError else FileNotFoundError), w, [])
       end.

(** [remove(path)] *)
Definition remove (path : string) : M unit :=
  on_path path (os_remove path)
    (λ c,
      let '(root, blob) := locate c path in
      if String.eqb blob "" || endswith blob "/" then raise IsADirectoryError
      else
        let deleted := match c with Google => 204 | Azure => 202 end in
        let! status := delete_object deleted root blob in
        if status =? 404 then raise FileNotFoundError
        else assert (status =? deleted)).

(** The upload of an empty object: the media POST of GCS ([created] is
    200), the block-blob PUT of Azure (201); 404 without the bucket or
    container, 400 for an empty name. *)
Definition put_empty_object (created : Z) (root name : string) : M Z :=
  λ w, if decide (root ∈ roots w) then
         if String.eqb name "" then (Ok 400, w, [Upload root name])
         else
           (Ok created,
            mkWorld (roots w) (<[(root, name) := []]> (blobs w)) (files w)
              (dirs w),
            [Upload root name])
       else (Ok 404, w, [Upload root name]).

(** The directories [os.makedirs] has to make for a path: the path, and
    every part of it that ends before a [/]. *)
Fixpoint dirs_along (seen rest : string) : list string :=
  match rest with
  | EmptyString => [seen]
  | String c rest' =>
      if Ascii.eqb c "/" then
        (if String.eqb seen "" then [] else [seen])
          ++ dirs_along (seen +:+ "/") rest'
      else dirs_along (seen +:+ String c EmptyString) rest'
  end.

(** [os.makedirs(path, exist_ok=True)] *)
Definition os_makedirs (path : string) : M unit :=
  λ w,
    let dir := _strip_slash path in
    match files w !! dir with
    | Some _ => (Raises FileExistsError, w, [])
    | None =>
        (Ok tt,
         mkWorld (roots w) (blobs w) (files w)
           (dirs w ∪ list_to_set (dirs_along "" dir)),
         [])
    end.

(** [makedirs(path)] *)
Definition makedirs (path : string) : M unit :=
  on_path path (os_makedirs path)
    (λ c,
      let path := with_slash path in
      let '(root, blob) := locate c path in
      let created := match c with Google => 200 | Azure => 201 end in
      let! status := put_empty_object created root blob in
      assert (status =? created)).

(** A listing without delimiter: every object below the prefix, by its
    name. *)
Definition list_all_objects (root prefix : string) : M (option Page) :=
  λ w, (Ok (if decide (root ∈ roots w)
            then Some {| prefixes := []; items := names_under w root prefix |}
            else None),
        w, [ListObjects root prefix]).

(** The loop of [rmtree] over the names of a page: a DELETE for each,
    answered [deleted] or 404. *)
Fixpoint delete_each (deleted : Z) (root : string) (names : list string)
    : M unit :=
  match names with
  | [] => ret tt
  | name :: names' =>
      let! status := delete_object deleted root name in
      let! _ := assert ((status =? deleted) || (status =? 404)) in
      delete_each deleted root names'
  end.

(** [shutil.rmtree(path)] *)
Definition shutil_rmtree (path : string) : M unit :=
  λ w,
    let dir := _strip_slash path in
    let below (name : string) : Prop :=
      Is_true (String.prefix (dir +:+ "/") name) in
    (Ok tt,
     mkWorld (roots w) (blobs w)
       (filter (λ entry, ¬ below entry.1) (files w))
       (filter (λ name, ¬ below name ∧ name ≠ dir) (dirs w)),
     []).

(** [rmtree(path)] *)
Definition rmtree (path : string) : M unit :=
  let! is_dir := isdir path in
  if negb is_dir then raise NotADirectoryError
  else
    on_path path (shutil_rmtree path)
      (λ c,
        let path := with_slash path in
        let '(root, blob) := locate c path in
        let deleted := match c with Google => 204 | Azure => 202 end in
        let! page := list_all_objects root blob in
        match page, c with
        | Some pg, _ => delete_each deleted root (get_names c pg "")
        | None, Google => ret tt
        | None, Azure => raise KeyError
        end).

(** Modelled from the spec: the canonical [as://] form of an Azure path
    written in the HTTPS form,
    [https://<account>.blob.core.windows.net/<container>/<key>], which the
    spec takes for [as://<account>-<container>/<key>]; the
    canonicalisation is not in [ops.py]. *)
Definition spec_as_form (path : string) : option string :=
  if String.prefix "https://" path then
    let '(host, rest) := partition "/" (str_from 8 path) in
    let '(account, domain) := partition "." host in
    if String.eqb domain "blob.core.windows.net"
    then Some ("as://" +:+ account +:+ "-" +:+ rest)
    else None
  else None.

(** A server for the examples: it completes a rewrite within the call,
    and an Azure copy at once. *)
Definition prompt_server : Server :=
  {| rewrite_at_once := λ _ _, true;
     pending_answers := λ _ _, 0%nat;
     copy_end := λ _ _, success |}.

End Blob.

(** * Theorems *)

Section CharsFacts.
Import Chars.

Lemma elem_of_range (i a b : Z) : i ∈ range a b ↔ a ≤ i < b.
Proof. unfold range. rewrite elem_of_seqZ. lia. Qed.

Lemma elem_of_INVALID_CHARS (i : Z) :
  i ∈ INVALID_CHARS ↔ (0x0 ≤ i < 0x9) ∨ (0xB ≤ i < 0x20).
Proof.
  unfold INVALID_CHARS.
  rewrite !elem_of_union, !elem_of_list_to_set, !elem_of_range.
  rewrite elem_of_empty. lia.
Qed.

Lemma elem_of_valid_chars (i : Z) :
  i ∈ valid_chars ↔ 0 ≤ i < 256 ∧ (i ∉ INVALID_CHARS) ∧ (i ≠ ord_slash).
Proof.
  unfold valid_chars. rewrite list_elem_of_filter, elem_of_range. tauto.
Qed.

(** C5. The code's invalid set holds the carriage return 0x0D, which the
    set of the specification leaves out; so 0x0D, although it is neither
    in the specification's set nor the slash, is not in the shard
    alphabet [valid_chars]. *)
Theorem invalid_chars_hold_carriage_return :
  0x0D ∈ INVALID_CHARS ∧ ¬ spec_invalid 0x0D
  ∧ 0x0D ≠ ord_slash ∧ 0x0D ∉ valid_chars.
Proof.
  split; [| split; [| split]].
  - apply elem_of_INVALID_CHARS. lia.
  - unfold spec_invalid. lia.
  - unfold ord_slash. lia.
  - rewrite elem_of_valid_chars. intros (_ & Hnot & _).
    apply Hnot, elem_of_INVALID_CHARS. lia.
Qed.

(** Everywhere else the two sets agree. *)
Lemma INVALID_CHARS_spec_elsewhere (i : Z) :
  i ≠ 0x0D → (i ∈ INVALID_CHARS ↔ spec_invalid i).
Proof.
  intros Hne. rewrite elem_of_INVALID_CHARS. unfold spec_invalid. lia.
Qed.

End CharsFacts.

Section ExecutorFacts.
Import Executor.

Lemma advance_min (v w : Q) :
  (v == w)%Q → (advance 60.0 2 v == Qmin (w * 2) 60)%Q.
Proof.
  intros Hvw. unfold advance.
  destruct (Qle_bool (v * 2) 60.0) eqn:Hle.
  - apply Qle_bool_iff in Hle.
    destruct (Q.min_spec (w * 2) 60) as [[Hlt ->] | [Hge ->]]; lra.
  - assert (¬ (v * 2 <= 60.0)%Q) as Hgt.
    { intros H. apply Qle_bool_iff in H. congruence. }
    destruct (Q.min_spec (w * 2) 60) as [[Hlt ->] | [Hge ->]]; lra.
Qed.

(** The generator yields 0.1, 0.2, 0.4, ... and stays at 60 once the
    doubling passes it. *)
Lemma sleep_generator_delay (n : nat) :
  (_exponential_sleep_generator 0.1 60.0 2 n == spec_delay n)%Q.
Proof.
  unfold spec_delay. induction n as [| n IH].
  - cbn [_exponential_sleep_generator Z.of_nat]. rewrite Qpower_0_r.
    destruct (Q.min_spec (0.1 * 1) 60) as [[H1 ->] | [H1 ->]]; lra.
  - cbn [_exponential_sleep_generator].
    rewrite (advance_min _ _ IH).
    rewrite Nat2Z.inj_succ, <- Z.add_1_r.
    rewrite Qpower_plus by lra.
    change (2 ^ 1)%Q with 2%Q.
    assert (0 < 2 ^ Z.of_nat n)%Q as Hpos.
    { apply Qpower_0_lt. lra. }
    set (p := (2 ^ Z.of_nat n)%Q) in *.
    pose proof (Q.min_spec (0.1 * p) 60) as HA.
    pose proof (Q.min_spec (Qmin (0.1 * p) 60 * 2) 60) as HB.
    pose proof (Q.min_spec (0.1 * (p * 2)) 60) as HC.
    set (A := Qmin (0.1 * p) 60) in *.
    set (B := Qmin (A * 2) 60) in *.
    set (C := Qmin (0.1 * (p * 2)) 60) in *.
    clearbody A B C p.
    destruct HA as [[? ?] | [? ?]], HB as [[? ?] | [? ?]],
      HC as [[? ?] | [? ?]]; lra.
Qed.

Lemma transient_retried (o : AttemptOutcome) (k : nat)
    (script : list AttemptOutcome) :
  transient o →
  attempts_from retry_statuses k (o :: script)
  = after_retry k (_exponential_sleep_generator 0.1 60.0 2 k)
      (attempts_from retry_statuses (S k) script).
Proof.
  intros [-> | [-> | [-> | (status & -> & Hin)]]]; try reflexivity.
  cbn [attempts_from]. unfold status_in, retry_statuses.
  by rewrite bool_decide_eq_true_2.
Qed.

Lemma not_transient_stops (o : AttemptOutcome) (k : nat)
    (script : list AttemptOutcome) :
  ¬ transient o →
  attempts_from retry_statuses k (o :: script)
  = mkRun (match o with Response status => Returned status | _ => Raised end)
      [] [].
Proof.
  intros Hnot. destruct o as [status | | | |]; try reflexivity;
    try (exfalso; apply Hnot; unfold transient; tauto).
  cbn [attempts_from]. unfold status_in, retry_statuses.
  rewrite bool_decide_eq_false_2; [done |].
  intros Hin. apply Hnot. unfold transient. eauto 10.
Qed.

Lemma attempts_from_run (pre : list AttemptOutcome) (o : AttemptOutcome)
    (rest : list AttemptOutcome) (k : nat) :
  Forall transient pre → ¬ transient o →
  let r := attempts_from retry_statuses k (pre ++ o :: rest) in
  result r = match o with Response status => Returned status | _ => Raised end
  ∧ slept r = map (_exponential_sleep_generator 0.1 60.0 2)
                (seq k (length pre)).
Proof.
  intros Hpre Ho. revert k.
  induction Hpre as [| o' pre Ho' _ IH]; intros k.
  - cbn [app length seq map]. by rewrite not_transient_stops.
  - cbn [app length seq map]. rewrite transient_retried by done.
    destruct (IH (S k)) as [Hres Hslept]. cbn [result slept after_retry].
    by rewrite Hres, Hslept.
Qed.

Lemma all_transient_keeps_retrying (script : list AttemptOutcome) (k : nat) :
  Forall transient script →
  let r := attempts_from retry_statuses k script in
  result r = StillRetrying ∧ length (slept r) = length script.
Proof.
  intros Hall. revert k. induction Hall as [| o script Ho _ IH]; intros k.
  - done.
  - rewrite transient_retried by done.
    destruct (IH (S k)) as [Hres Hlen]. cbn [result slept after_retry length].
    by rewrite Hres, Hlen.
Qed.

(** C7. The executor goes on to the next attempt exactly after the
    attempts that fail in a transient way (a connect, read or protocol
    error, or a status among 429, 500, 502, 503, 504): when the
    attempts [pre] all fail so and the next outcome [o] does not, the
    call makes exactly those attempts, hands the response of [o] back
    (or lets its exception through), and sleeps once after each failed
    attempt, [min(0.1 * 2^n, 60)] seconds after attempt [n]. *)
Theorem execute_request_retry_schedule (pre : list AttemptOutcome)
    (o : AttemptOutcome) (rest : list AttemptOutcome) :
  Forall transient pre → ¬ transient o →
  let r := _execute_request (pre ++ o :: rest) in
  result r = match o with Response status => Returned status | _ => Raised end
  ∧ length (slept r) = length pre
  ∧ ∀ (n : nat) (d : Q), slept r !! n = Some d → (d == spec_delay n)%Q.
Proof.
  intros Hpre Ho r.
  destruct (attempts_from_run pre o rest 0 Hpre Ho) as [Hres Hslept].
  fold r in Hres, Hslept. unfold r, _execute_request, _execute_request_with.
  split; [exact Hres |]. rewrite Hslept. split.
  - by rewrite length_map, length_seq.
  - intros n d Hn. rewrite list_lookup_fmap in Hn.
    destruct (seq 0 (length pre) !! n) as [m |] eqn:Hm; [| done].
    apply lookup_seq in Hm as [-> _]. simpl in Hn. injection Hn as <-.
    apply sleep_generator_delay.
Qed.

Lemma execute_request_retry_schedule_witness :
  let r := _execute_request
             ([Response 503; ReadTimeoutError; Response 429]
                ++ Response 404 :: [Response 200]) in
  result r = Returned 404
  ∧ length (slept r) = 3%nat
  ∧ ∀ (n : nat) (d : Q), slept r !! n = Some d → (d == spec_delay n)%Q.
Proof.
  apply (execute_request_retry_schedule
           [Response 503; ReadTimeoutError; Response 429]
           (Response 404) [Response 200]).
  - constructor; [| constructor; [| constructor; [| constructor]]];
      unfold transient.
    + right; right; right. exists 503. split; [done | set_solver].
    + tauto.
    + right; right; right. exists 429. split; [done | set_solver].
  - intros [H | [H | [H | (status & H & Hin)]]]; try discriminate.
    injection H as <-. rewrite !elem_of_cons, elem_of_nil in Hin. lia.
Defined.

End ExecutorFacts.

Section TokensFacts.
Import Tokens.
Context {Token : Type}.
Implicit Types (m : TokenManager Token) (c : Call Token) (g : gmap string Q).








(** A call for one key leaves the tokens cached under the other keys in
    place. *)
Lemma get_token_keeps_other_slots m c (k' : string) :
  k' ≠ key c → _tokens (get_token m c).1 !! k' = _tokens m !! k'.
Proof.
  intros Hne. unfold get_token.
  assert (_tokens (before_load m c) !! k' = _tokens m !! k') as Hbefore.
  { unfold before_load. destruct (expired m (now c)); [| done].
    cbn. by rewrite lookup_delete_ne. }
  destruct (_tokens (before_load m c) !! key c); [done |].
  destruct (answer c); cbn; [| done]. by rewrite lookup_insert_ne.
Qed.

End TokensFacts.



(** The manager keeps one [_expiration] for all its keys: loading a token
    for a second key overwrites it, and the first key's token is then
    served from the cache long after its own expiration (epoch 1000,
    served at 50000). *)
Lemma get_token_shares_one_expiration :
  let calls := [Tokens.mkCall "acct1" 0 (Tokens.Load "t1"%string 1000%Q);
                Tokens.mkCall "acct2" 0 (Tokens.Load "t2"%string 86400%Q)] in
  let c := Tokens.mkCall "acct1" 50000 (Tokens.Load "t3"%string 90000%Q) in
  let reply := (Tokens.get_token (Tokens.after_calls calls).1 c).2 in
  Tokens.loader_called reply = false
  ∧ Tokens.value reply = inr "t1"%string
  ∧ (Tokens.after_calls calls).2 !! "acct1"%string = Some 1000%Q
  ∧ (1000 < 50000)%Q.
Proof.
  split; [| split; [| split]]; try reflexivity.
Qed.

Section SliceFacts.

Lemma len_nonneg (b : list byte) : 0 ≤ len b.
Proof. unfold len. lia. Qed.

Lemma len_app (b1 b2 : list byte) : len (b1 ++ b2) = len b1 + len b2.
Proof. unfold len. rewrite length_app. lia. Qed.

Lemma slice_to_from (n : Z) (b : list byte) :
  slice_to n b ++ slice_from n b = b.
Proof.
  revert n. induction b as [| x b IH]; intros n; [done |].
  cbn [slice_to slice_from]. destruct (n <=? 0); [done |].
  cbn [app]. by rewrite IH.
Qed.

Lemma len_slices (n : Z) (b : list byte) :
  len (slice_to n b) + len (slice_from n b) = len b.
Proof. by rewrite <- len_app, slice_to_from. Qed.

Lemma len_slice_from (n : Z) (b : list byte) :
  0 ≤ n → len (slice_from n b) = Z.max 0 (len b - n).
Proof.
  revert n. induction b as [| x b IH]; intros n Hn.
  - unfold len. cbn [slice_from length]. lia.
  - cbn [slice_from]. destruct (n <=? 0) eqn:Hle.
    + apply Z.leb_le in Hle. unfold len. cbn [length]. lia.
    + apply Z.leb_gt in Hle. rewrite IH by lia.
      unfold len. cbn [length]. lia.
Qed.

End SliceFacts.

Section WriterFacts.
Import Writer.
Context {H : Type} `{Uploader H}.
Implicit Types (f : WriteFile H) (script : Script).

(** What [_upload_buf] does once [size] is computed: the hook runs on
    the stream with the buffer already cut, and only its success moves
    the offset. *)
Lemma upload_buf_attempt f (finalize : bool) script (size : Z) :
  upload_size f finalize = Ok size →
  ∃ f',
    _upload_buf f finalize script
    = (fst (fst (_upload_chunk (_offset f) (slice_from size (_buf f)) (own f)
                   (slice_to size (_buf f)) finalize script)),
       f',
       snd (_upload_chunk (_offset f) (slice_from size (_buf f)) (own f)
              (slice_to size (_buf f)) finalize script))
    ∧ _buf f' = slice_from size (_buf f)
    ∧ _chunk_size f' = _chunk_size f
    ∧ closed f' = closed f
    ∧ _offset f'
      = match fst (fst (_upload_chunk (_offset f) (slice_from size (_buf f))
                          (own f) (slice_to size (_buf f)) finalize script))
        with
        | Ok _ => _offset f + len (slice_to size (_buf f))
        | Raises _ => _offset f
        end.
Proof.
  intros Hsize. unfold _upload_buf. rewrite Hsize. cbn [_offset _buf own].
  destruct (_upload_chunk (_offset f) (slice_from size (_buf f)) (own f)
              (slice_to size (_buf f)) finalize script)
    as [[[[] | e] h] script']; cbn [fst snd]; eexists; split; try done.
Qed.

Lemma upload_buf_ok f (finalize : bool) script f' script' :
  _upload_buf f finalize script = (Ok tt, f', script') →
  _offset f' + len (_buf f') = _offset f + len (_buf f)
  ∧ _chunk_size f' = _chunk_size f ∧ closed f' = closed f
  ∧ ∃ size, upload_size f finalize = Ok size
            ∧ _buf f' = slice_from size (_buf f).
Proof.
  intros Hrun. destruct (upload_size f finalize) as [size | e] eqn:Hsize.
  - destruct (upload_buf_attempt f finalize script size Hsize)
      as (f1 & Heq & Hbuf & Hcs & Hcl & Hoff).
    rewrite Hrun in Heq. injection Heq as Hr -> _. rewrite <- Hr in Hoff.
    rewrite Hoff, Hbuf. pose proof (len_slices size (_buf f)).
    repeat split; try done; [lia | eauto].
  - unfold _upload_buf in Hrun. rewrite Hsize in Hrun. discriminate.
Qed.

Lemma upload_loop_ok (turns : nat) f script f' script' :
  upload_loop turns f script = Some (Ok tt, f', script') →
  _offset f' + len (_buf f') = _offset f + len (_buf f)
  ∧ _chunk_size f' = _chunk_size f ∧ closed f' = closed f.
Proof.
  revert f script. induction turns as [| turns IH]; intros f script;
    cbn [upload_loop]; destruct (len (_buf f) >? _chunk_size f);
    try discriminate; try (intros [= <- <-]; done).
  destruct (_upload_buf f false script) as [[[[] | e] f1] script1] eqn:Hbuf;
    [| discriminate].
  intros Hloop. apply IH in Hloop as (Hsum & Hcs & Hcl).
  apply upload_buf_ok in Hbuf as (Hsum1 & Hcs1 & Hcl1 & _).
  repeat split; congruence.
Qed.

Lemma write_ok f (b : list byte) script (n : Z) f' script' :
  write f b script = Some (Ok n, f', script') →
  n = len b
  ∧ _offset f' + len (_buf f') = _offset f + len (_buf f) + len b
  ∧ _chunk_size f' = _chunk_size f ∧ closed f' = closed f.
Proof.
  unfold write.
  destruct (upload_loop 2 _ script) as [[[[[] | e] f1] script1] |] eqn:Hloop;
    try discriminate.
  intros [= <- <- <-]. apply upload_loop_ok in Hloop as (Hsum & Hcs & Hcl).
  cbn [_offset _buf _chunk_size closed] in *. rewrite len_app in Hsum.
  repeat split; try done. lia.
Qed.

Lemma close_ok f script f' script' :
  close f script = (Ok tt, f', script') →
  _offset f' + len (_buf f') = _offset f + len (_buf f)
  ∧ _chunk_size f' = _chunk_size f.
Proof.
  unfold close. destruct (closed f); [by intros [= <- <-] |].
  destruct (_upload_buf f true script) as [[[[] | e] f1] script1] eqn:Hbuf;
    [| discriminate].
  intros [= <- <-]. apply upload_buf_ok in Hbuf as (Hsum & Hcs & _).
  cbn [_offset _buf _chunk_size]. done.
Qed.

Lemma run_ok (ops : list Op) f script f' script' :
  run f ops script = Some (Ok tt, f', script') →
  _offset f' + len (_buf f') = _offset f + len (_buf f) + accepted ops.
Proof.
  revert f script. induction ops as [| [b |] ops IH]; intros f script;
    cbn [run accepted].
  - intros [= <- <-]. lia.
  - destruct (write f b script) as [[[[n | e] f1] script1] |] eqn:Hw;
      try discriminate.
    intros Hrun. apply IH in Hrun. apply write_ok in Hw as (_ & Hsum & _).
    lia.
  - destruct (close f script) as [[[[] | e] f1] script1] eqn:Hc;
      [| discriminate].
    intros Hrun. apply IH in Hrun. apply close_ok in Hc as (Hsum & _). lia.
Qed.

(** After a turn of the loop that succeeds, the buffer is below the
    chunk size, or (for a chunk size below zero) empty. *)
Lemma upload_buf_leaves f script f' script' :
  _upload_buf f false script = (Ok tt, f', script') →
  (0 < _chunk_size f ∧ len (_buf f') < _chunk_size f')
  ∨ (_chunk_size f < 0 ∧ len (_buf f') = 0 ∧ _chunk_size f' < 0).
Proof.
  intros Hbuf.
  apply upload_buf_ok in Hbuf as (_ & Hcs & _ & size & Hsize & Hcut).
  unfold upload_size in Hsize.
  destruct (_chunk_size f =? 0) eqn:Hzero; [discriminate |].
  apply Z.eqb_neq in Hzero.
  destruct (len (_buf f) / _chunk_size f * _chunk_size f >? 0) eqn:Hpos;
    [| discriminate].
  injection Hsize as <-. apply Z.gtb_lt in Hpos.
  pose proof (len_nonneg (_buf f)) as Hlen.
  pose proof (Z.div_mod (len (_buf f)) (_chunk_size f) Hzero) as Hdm.
  rewrite Hcut, Hcs, len_slice_from by lia.
  destruct (Z.lt_ge_cases 0 (_chunk_size f)) as [Hcpos | Hcneg].
  - left. pose proof (Z.mod_pos_bound (len (_buf f)) (_chunk_size f) Hcpos).
    lia.
  - right.
    pose proof (Z.mod_neg_bound (len (_buf f)) (_chunk_size f)
                  ltac:(lia)).
    lia.
Qed.

Lemma upload_buf_of_empty f script :
  len (_buf f) = 0 → _chunk_size f < 0 →
  _upload_buf f false script = (Raises AssertionError, f, script).
Proof.
  intros Hlen Hcs. unfold _upload_buf, upload_size.
  destruct (_chunk_size f =? 0) eqn:Hzero; [apply Z.eqb_eq in Hzero; lia |].
  rewrite Hlen, Z.div_0_l by lia. done.
Qed.

(** The [while] loop of [write] ends within two turns. *)
Lemma upload_loop_two_turns f script : is_Some (upload_loop 2 f script).
Proof.
  cbn [upload_loop].
  destruct (len (_buf f) >? _chunk_size f) eqn:Hgt; [| by eexists].
  destruct (_upload_buf f false script) as [[[[] | e] f1] script1] eqn:Hbuf;
    [| by eexists].
  destruct (len (_buf f1) >? _chunk_size f1) eqn:Hgt1; [| by eexists].
  apply Z.gtb_lt in Hgt1.
  apply upload_buf_leaves in Hbuf as [[_ Hlt] | (_ & Hempty & Hneg)]; [lia |].
  rewrite upload_buf_of_empty by done. by eexists.
Qed.

(** [write] always returns or raises. *)
Lemma write_total f (b : list byte) script : is_Some (write f b script).
Proof.
  unfold write.
  destruct (upload_loop_two_turns
              (mkWriteFile (_offset f) (_buf f ++ b) (_chunk_size f)
                 (closed f) (own f)) script) as [[[[[] | e] f1] script1] ->];
    by eexists.
Qed.

(** C3 (as amended). On every write stream, at every point between
    operations and as long as no operation has raised, [offset +
    len(pending buffer)] is the number of bytes accepted from the
    caller.  In [_upload_buf] the pending buffer is cut before the chunk
    upload is attempted: the upload runs on the stream with the buffer
    already cut, the buffer stays cut whether the upload succeeds or
    raises, and the offset advances, by the length of the chunk, only
    when the upload succeeds. *)
Theorem write_stream_accounting :
  (∀ (h : H) (ops : list Op) script f' script',
      run (init h) ops script = Some (Ok tt, f', script') →
      _offset f' + len (_buf f') = accepted ops)
  ∧ (∀ f (finalize : bool) script (size : Z),
        upload_size f finalize = Ok size →
        let attempt :=
          _upload_chunk (_offset f) (slice_from size (_buf f)) (own f)
            (slice_to size (_buf f)) finalize script in
        ∃ f',
          _upload_buf f finalize script = (attempt.1.1, f', attempt.2)
          ∧ _buf f' = slice_from size (_buf f)
          ∧ _offset f' = match attempt.1.1 with
                         | Ok _ => _offset f + len (slice_to size (_buf f))
                         | Raises _ => _offset f
                         end).
Proof.
  split.
  - intros h ops script f' script' Hrun. apply run_ok in Hrun.
    cbn [init _offset _buf] in Hrun. unfold len in Hrun at 2.
    cbn [length] in Hrun. lia.
  - intros f finalize script size Hsize attempt.
    destruct (upload_buf_attempt f finalize script size Hsize)
      as (f' & Heq & Hbuf & _ & _ & Hoff).
    exists f'. done.
Qed.

End WriterFacts.

Section WriterExamples.
Import Writer.


Lemma write_stream_accounting_witness :
  let f' := mkWriteFile 3 [] GOOGLE_CHUNK_SIZE true session in
  (_offset f' + len (_buf f') = accepted [Write three_bytes; Close])
  ∧ ∃ f1,
      _upload_buf (mkWriteFile 0 three_bytes GOOGLE_CHUNK_SIZE false session)
        true [403]
      = (Raises AssertionError, f1, [])
      ∧ _buf f1 = [] ∧ _offset f1 = 0.
Proof.
  intros f'. destruct (write_stream_accounting (H:=GoogleFields)) as [Hsum Hcut].
  split.
  - apply (Hsum session [Write three_bytes; Close] [200] f' []). reflexivity.
  - apply (Hcut (mkWriteFile 0 three_bytes GOOGLE_CHUNK_SIZE false session)
             true [403] 3).
    reflexivity.
Defined.

(** C3 (as stated) fails when an upload fails: after [write] has
    accepted three bytes, a [close] whose final PUT is answered 403
    raises, and leaves the stream with an empty pending buffer and offset
    0: the buffer was cut although no upload succeeded, and offset plus
    pending bytes is 0, not the 3 bytes accepted. *)
Lemma failed_upload_loses_pending_bytes :
  let f0 := init session in
  let f1 := mkWriteFile 0 three_bytes GOOGLE_CHUNK_SIZE false session in
  let f2 := mkWriteFile 0 [] GOOGLE_CHUNK_SIZE false session in
  write f0 three_bytes [403] = Some (Ok 3, f1, [403])
  ∧ close f1 [403] = (Raises AssertionError, f2, [])
  ∧ _buf f2 ≠ _buf f1
  ∧ _offset f2 = _offset f1
  ∧ _offset f2 + len (_buf f2) ≠ accepted [Write three_bytes].
Proof.
  split; [| split; [| split; [| split]]]; try reflexivity; try discriminate.
Qed.



Lemma as_appended_accepted (status : Z) :
  (as_appended status =? 201) || (as_appended status =? 412)
  = (status =? 201) || (status =? 412).
Proof.
  unfold as_appended. destruct (status =? 412) eqn:H412.
  - cbn. by rewrite orb_true_r.
  - by rewrite H412.
Qed.

Lemma as_appended_200 (status : Z) :
  (as_appended status =? 200) = (status =? 200).
Proof.
  unfold as_appended. destruct (status =? 412) eqn:H412; [| done].
  apply Z.eqb_eq in H412. by subst status.
Qed.

(** The append loop never tells 412 from 201: with every 412 of the
    script replaced by 201 it takes the same turns, raises or returns
    alike, and leaves the same fields. *)
Lemma azure_append_blocks_412_as_201 (turns : nat) (start offset : Z)
    (h : AzureFields) (chunk : list byte) (script : Script) :
  let run := azure_append_blocks turns start offset h chunk script in
  azure_append_blocks turns start offset h chunk (map as_appended script)
  = (run.1.1, run.1.2, map as_appended run.2).
Proof.
  revert start h script. induction turns as [| turns IH];
    intros start h script; cbn [azure_append_blocks];
    destruct (start <? len chunk); try reflexivity.
  destruct script as [| status script]; [reflexivity |].
  cbn [map request]. rewrite as_appended_accepted.
  destruct ((status =? 201) || (status =? 412)); [| reflexivity].
  cbn [assert].
  destruct script as [| status' script]; [reflexivity |].
  cbn [map request]. rewrite as_appended_200.
  destruct (status' =? 200); [| reflexivity].
  cbn [assert]. apply IH.
Qed.

(** C1. An append-block PUT answered 412 raises nothing: the stream
    below accepts three bytes and closes as if the block had been
    appended, storing the md5, advancing the offset and consuming the
    whole script. *)
Theorem azure_append_412_raises_nothing :
  run (init append_blob) [Write three_bytes; Close] [412; 200]
  = Some (Ok tt,
          mkWriteFile 3 [] AZURE_MAX_CHUNK_SIZE true
            {| _url := _url append_blob; _md5 := three_bytes |},
          []).
Proof. reflexivity. Qed.

End WriterExamples.

Section ReaderFacts.
Import Reader.
Implicit Types (f : ReadFile) (script : list Attempt).

(** Case analysis over one turn of the retry loop. *)
Ltac one_turn a :=
  cbn [turns_from];
  repeat match goal with
    | |- context [match _f ?f with _ => _ end] =>
        let Hf := fresh "Hf" in destruct (_f f) as [[?next |] |] eqn:Hf
    | |- context [_get_file ?o (get a)] =>
        unfold _get_file; destruct (get a) as [?status | ?e]
    | |- context [if ?c then _ else _] =>
        let Hc := fresh "Hc" in destruct c eqn:Hc
    | |- context [match body_read a with _ => _ end] =>
        let Hr := fresh "Hr" in destruct (body_read a) as [?available | | |] eqn:Hr
    end;
  cbn [file outcome gets slept retry_after issued with_f
       _f _offset _size requests failures bytes_read].

Lemma turns_from_size (attempt : nat) f (nb : Z) script :
  _size (file (turns_from attempt f nb script)) = _size f.
Proof.
  revert attempt f. induction script as [| a script IH]; intros attempt f;
    [done |].
  one_turn a; try done; by rewrite IH.
Qed.

Lemma turns_from_body_at_offset (attempt : nat) f (nb : Z) script :
  body_at_offset f → body_at_offset (file (turns_from attempt f nb script)).
Proof.
  revert attempt f. induction script as [| a script IH]; intros attempt f Hat;
    [done |].
  one_turn a; try done; try apply IH;
    intros next' Hnext; cbn in Hnext |- *;
    try discriminate; injection Hnext as <-;
    try done; try (by apply Hat); by rewrite (Hat _ Hf).
Qed.

Lemma turns_from_within (attempt : nat) f (nb : Z) script :
  (∀ a available, a ∈ script → body_read a = Delivers available →
     Z.min available nb ≤ _size f - _offset f) →
  0 ≤ _offset f ≤ _size f →
  0 ≤ _offset (file (turns_from attempt f nb script))
    ≤ _size (file (turns_from attempt f nb script)).
Proof.
  revert attempt f. induction script as [| a script IH];
    intros attempt f Hscript Hf; [done |].
  assert (∀ a' available, a' ∈ script → body_read a' = Delivers available →
            Z.min available nb ≤ _size f - _offset f) as Hrest.
  { intros a' available Hin. apply Hscript. by apply list_elem_of_further. }
  pose proof (Hscript a) as Hhead.
  one_turn a; try done; try (apply IH; done);
    specialize (Hhead _ (list_elem_of_here _ _) eq_refl); lia.
Qed.

(** A ranged GET answered 416 ends the call at once: it returns 0 and
    leaves the offset where it was. *)
Lemma turns_from_416 (attempt : nat) f (nb : Z) script (offset : Z) :
  (offset, Ok 416) ∈ gets (turns_from attempt f nb script) →
  outcome (turns_from attempt f nb script) = Returned 0
  ∧ _offset (file (turns_from attempt f nb script)) = _offset f.
Proof.
  revert attempt f. induction script as [| a script IH]; intros attempt f.
  - cbn. by intros ?%elem_of_nil.
  - one_turn a; rewrite ?elem_of_cons, ?elem_of_nil; intros Hin;
      repeat match type of Hin with
        | _ ∨ _ => destruct Hin as [Hin | Hin]
        end;
      try done; try (by apply IH in Hin);
      injection Hin as _ <-; discriminate.
Qed.

(** C6. Whenever a ranged GET that [readinto] issues is answered 416,
    the call returns 0 (end of file) and raises nothing, and the offset
    stays where it was; this holds on the first turn of the retry loop
    as on any later one. *)
Theorem readinto_416_is_eof f (nb : Z) script (offset : Z) :
  (offset, Ok 416) ∈ gets (readinto f nb script) →
  outcome (readinto f nb script) = Returned 0
  ∧ _offset (file (readinto f nb script)) = _offset f.
Proof.
  unfold readinto. destruct (_size f =? _offset f).
  - cbn. by intros ?%elem_of_nil.
  - apply turns_from_416.
Qed.

Lemma readinto_416_is_eof_witness :
  let f := mkReadFile 10 4 (Some (HttpBody 4)) 1 0 4 in
  let script := [mkAttempt (Ok 206) (Delivers 0);
                 mkAttempt (Ok 416) (Delivers 6)] in
  outcome (readinto f 8 script) = Returned 0
  ∧ _offset (file (readinto f 8 script)) = _offset f.
Proof.
  intros f script. apply (readinto_416_is_eof f 8 script 4).
  cbn. apply list_elem_of_here.
Defined.

Lemma seek_body_at_offset f (offset whence : Z) :
  body_at_offset f → body_at_offset (seek f offset whence).2.
Proof.
  intros Hat. unfold seek.
  repeat match goal with
    | |- context [if ?c then _ else _] => destruct c
    end; done.
Qed.

Lemma after_body_at_offset f (op : Op) :
  body_at_offset f → body_at_offset (after f op).
Proof.
  intros Hat. destruct op as [offset whence | nb script]; cbn [after].
  - by apply seek_body_at_offset.
  - unfold readinto. destruct (_size f =? _offset f); [done |].
    by apply turns_from_body_at_offset.
Qed.

Lemma after_size f (op : Op) : _size (after f op) = _size f.
Proof.
  destruct op as [offset whence | nb script]; cbn [after].
  - unfold seek.
    repeat match goal with
      | |- context [if ?c then _ else _] => destruct c
      end; done.
  - unfold readinto. destruct (_size f =? _offset f); [done |].
    apply turns_from_size.
Qed.

(** [seek] stores the position asked for, whatever it is. *)
Lemma seek_stores_asked f (offset whence target : Z) :
  asked_position (_size f) (_offset f) offset whence = Some target →
  (seek f offset whence).1 = Ok target
  ∧ _offset (seek f offset whence).2 = target.
Proof.
  assert (∀ new_offset,
            (if new_offset =? _offset f then (Ok (_offset f), f)
             else (Ok new_offset,
                   mkReadFile (_size f) new_offset None (requests f)
                     (failures f) (bytes_read f))).1 = Ok new_offset
            ∧ _offset (if new_offset =? _offset f then (Ok (_offset f), f)
                       else (Ok new_offset,
                             mkReadFile (_size f) new_offset None (requests f)
                               (failures f) (bytes_read f))).2 = new_offset)
    as Hmoved.
  { intros new_offset. destruct (new_offset =? _offset f) eqn:Hsame; [| done].
    apply Z.eqb_eq in Hsame. by rewrite Hsame. }
  unfold asked_position, seek, SEEK_SET, SEEK_CUR, SEEK_END.
  destruct whence as [| [p | [p | p |] |] | p]; cbn [Z.eqb Pos.eqb];
    try done; intros [= <-]; apply Hmoved.
Qed.

Lemma after_within f (op : Op) :
  within_size f op → 0 ≤ _offset f ≤ _size f →
  0 ≤ _offset (after f op) ≤ _size (after f op).
Proof.
  intros Hop Hf. rewrite after_size.
  destruct op as [offset whence | nb script]; cbn [after within_size] in *.
  - destruct (asked_position (_size f) (_offset f) offset whence)
      as [target |] eqn:Hasked.
    + destruct (seek_stores_asked f offset whence target Hasked) as [_ ->].
      by apply Hop.
    + revert Hasked.
      unfold asked_position, seek, SEEK_SET, SEEK_CUR, SEEK_END.
      by destruct whence as [| [p | [p | p |] |] | p].
  - unfold readinto. destruct (_size f =? _offset f); [done |].
    rewrite <- (turns_from_size 0 f nb script). by apply turns_from_within.
Qed.

Lemma after_all_size (ops : list Op) f : _size (after_all f ops) = _size f.
Proof.
  revert f. induction ops as [| op ops IH]; intros f; [done |].
  cbn [after_all foldl]. fold (after_all (after f op) ops).
  by rewrite IH, after_size.
Qed.

Lemma after_all_invariants (ops : list Op) f :
  body_at_offset f →
  body_at_offset (after_all f ops)
  ∧ (all_within_size f ops → 0 ≤ _offset f ≤ _size f →
     0 ≤ _offset (after_all f ops) ≤ _size (after_all f ops)).
Proof.
  revert f. induction ops as [| op ops IH]; intros f Hat; [done |].
  cbn [after_all foldl all_within_size].
  destruct (IH (after f op) (after_body_at_offset f op Hat)) as [Hat' Hin].
  split; [exact Hat' |]. intros [Hop Hops] Hf.
  apply Hin; [done |]. by apply after_within.
Qed.

(** C4 (as amended). On every streaming read file, after any sequence
    of read and seek operations, the size is the one recorded at opening
    and an open body (the response of a ranged GET) stands at the offset
    of the stream.  [seek] stores the position asked for, which is
    [offset] for [SEEK_SET], the current offset plus [offset] for
    [SEEK_CUR] and the size plus [offset] for [SEEK_END], as it is,
    neither clamped nor refused; so [0 <= offset <= size] holds as long
    as every seek of the sequence asks for a position of [0 .. size] and
    no body delivers bytes beyond [size]. *)
Theorem read_stream_invariants (size : Z) (ops : list Op) :
  0 ≤ size →
  let f := after_all (init size) ops in
  body_at_offset f
  ∧ _size f = size
  ∧ (all_within_size (init size) ops → 0 ≤ _offset f ≤ _size f)
  ∧ ∀ offset whence target,
      asked_position size (_offset f) offset whence = Some target →
      (seek f offset whence).1 = Ok target
      ∧ tell (seek f offset whence).2 = target.
Proof.
  intros Hsize f.
  destruct (after_all_invariants ops (init size)) as [Hat Hin]; [done |].
  assert (_size f = size) as Hf by apply after_all_size.
  split; [exact Hat |]. split; [exact Hf |]. split.
  - intros Hops. apply Hin; [done |]. cbn. lia.
  - intros offset whence target Hasked. rewrite <- Hf in Hasked.
    by apply seek_stores_asked.
Qed.

Lemma read_stream_invariants_witness :
  let ops := [Readinto 4 [mkAttempt (Ok 206) (Delivers 100)];
              Seek (-2) SEEK_END;
              Readinto 8 [mkAttempt (Ok 206) (Delivers 2)]] in
  let f := after_all (init 10) ops in
  body_at_offset f
  ∧ _size f = 10
  ∧ 0 ≤ _offset f ≤ _size f
  ∧ ∀ offset whence target,
      asked_position 10 (_offset f) offset whence = Some target →
      (seek f offset whence).1 = Ok target
      ∧ tell (seek f offset whence).2 = target.
Proof.
  intros ops f.
  destruct (read_stream_invariants 10 ops) as (Hat & Hsz & Hin & Hseek);
    [lia |].
  split; [exact Hat |]. split; [exact Hsz |]. split; [| exact Hseek].
  apply Hin. cbn [ops all_within_size within_size].
  split; [| split; [| split; [| exact I]]].
  - intros a available ->%list_elem_of_singleton [= <-].
    vm_compute. discriminate.
  - intros target Htarget. vm_compute in Htarget. injection Htarget as <-.
    vm_compute. split; discriminate.
  - intros a available ->%list_elem_of_singleton [= <-].
    vm_compute. discriminate.
Defined.

(** C4 (as stated) fails: [seek(-1, SEEK_SET)] leaves the offset at -1,
    and [seek(1, SEEK_END)] on an object of 10 bytes leaves it at 11. *)
Lemma seek_leaves_the_object :
  let before := after_all (init 10) [Seek (-1) SEEK_SET] in
  let beyond := after_all (init 10) [Seek 1 SEEK_END] in
  _offset before = -1 ∧ _offset beyond = 11 ∧ _size beyond = 10
  ∧ ¬ (0 ≤ _offset before ≤ _size before)
  ∧ ¬ (0 ≤ _offset beyond ≤ _size beyond).
Proof.
  vm_compute. repeat split; try discriminate; intros [Hlo Hhi]; auto.
Qed.

End ReaderFacts.

Section BlobFacts.
Import Blob.
Implicit Types (w : World) (path : string).

(** **** The tests of a path *)

Lemma cloud_of_tests path (c : Cloud) :
  cloud_of path = Some c →
  _is_google_path path = Ok (match c with Google => true | Azure => false end)
  ∧ _is_azure_path path = Ok (match c with Google => false | Azure => true end)
  ∧ _is_local_path path = Ok false.
Proof.
  unfold cloud_of, _is_local_path, _is_google_path, _is_azure_path.
  destruct (urlparse path) as [url | e]; [| done].
  destruct (String.eqb (scheme url) "gs") eqn:Hgs.
  - intros [= <-]. apply String.eqb_eq in Hgs. by rewrite Hgs.
  - destruct (String.eqb (scheme url) "as"); [| done]. by intros [= <-].
Qed.

Lemma cloud_of_not_local path (c : Cloud) :
  cloud_of path = Some c → _is_local_path path = Ok false.
Proof.
  intros Hcloud. by destruct (cloud_of_tests path c Hcloud) as (_ & _ & ?).
Qed.

Lemma on_path_remote {A : Type} path (c : Cloud) (local : M A)
    (remote : Cloud → M A) :
  cloud_of path = Some c → on_path path local remote = remote c.
Proof.
  intros Hcloud. unfold on_path.
  by rewrite (cloud_of_not_local path c Hcloud), Hcloud.
Qed.

(** Whatever holds of the local branch, of each remote branch and of a
    [raise] holds of the chain. *)
Lemma on_path_cases {A : Type} (P : M A → Prop) path (local : M A)
    (remote : Cloud → M A) :
  (∀ e, P (raise e)) → P local → (∀ c, P (remote c)) →
  P (on_path path local remote).
Proof.
  intros Hraise Hlocal Hremote. unfold on_path.
  destruct (_is_local_path path) as [[|] | e]; [done | | done].
  by destruct (cloud_of path).
Qed.


Lemma ret_only_probes {A : Type} (a : A) : only_probes (ret a).
Proof. intros w. split; [done | constructor]. Qed.

Lemma raise_only_probes {A : Type} (e : exn) : only_probes (raise (A:=A) e).
Proof. intros w. split; [done | constructor]. Qed.

Lemma bind_only_probes {A B : Type} (m : M A) (k : A → M B) :
  only_probes m → (∀ a, only_probes (k a)) → only_probes (bind m k).
Proof.
  intros Hm Hk w. unfold bind. destruct (Hm w) as [Hw Hl].
  destruct (m w) as [[[a | e] w1] l1]; cbn in Hw, Hl; subst w1; [| done].
  destruct (Hk a w) as [Hw2 Hl2].
  destruct (k a w) as [[r w2] l2]; cbn in Hw2, Hl2 |- *.
  split; [done |]. by apply Forall_app.
Qed.

Lemma assert_only_probes (cond : bool) : only_probes (Blob.assert cond).
Proof.
  destruct cond; [apply ret_only_probes | apply raise_only_probes].
Qed.

Lemma get_object_only_probes (root name : string) :
  only_probes (get_object root name).
Proof. intros w. split; [done |]. by repeat constructor. Qed.

Lemma get_container_only_probes (root : string) :
  only_probes (get_container root).
Proof. intros w. split; [done |]. by repeat constructor. Qed.

Lemma list_objects_only_probes (root prefix : string) :
  only_probes (list_objects root prefix).
Proof. intros w. split; [done |]. by repeat constructor. Qed.

Lemma isfile_only_probes (c : Cloud) path : only_probes (isfile c path).
Proof.
  unfold isfile. destruct (locate c path) as [root blob].
  destruct (String.eqb blob ""); [apply ret_only_probes |].
  apply bind_only_probes; [apply get_object_only_probes |]. intros status.
  apply bind_only_probes; [apply assert_only_probes |]. intros _.
  apply ret_only_probes.
Qed.

Lemma isdir_only_probes path : only_probes (isdir path).
Proof.
  unfold isdir. apply on_path_cases.
  - intros e. apply raise_only_probes.
  - intros w. split; [done | constructor].
  - intros c. destruct (locate c (with_slash path)) as [root blob].
    destruct (String.eqb blob "").
    + apply bind_only_probes; [apply get_container_only_probes |].
      intros status. apply ret_only_probes.
    + apply bind_only_probes; [apply list_objects_only_probes |].
      intros [pg |]; [apply ret_only_probes |].
      destruct c; [apply ret_only_probes | apply raise_only_probes].
Qed.

Lemma exists_only_probes path : only_probes (exists_ path).
Proof.
  unfold exists_. apply on_path_cases.
  - intros e. apply raise_only_probes.
  - intros w. split; [done | constructor].
  - intros c. apply bind_only_probes; [apply isfile_only_probes |].
    intros [|]; [apply ret_only_probes | apply isdir_only_probes].
Qed.

(** C10. [BlobFile] refuses a path that ends in a slash, whatever the
    mode (so also for the read modes), with its first statement: it
    raises before it makes any request, and leaves the world as it was. *)
Theorem BlobFile_refuses_trailing_slash path (mode : string) w :
  endswith path "/" = true →
  BlobFile path mode w = (Raises AssertionError, w, []).
Proof.
  intros Hslash. unfold BlobFile, bind, Blob.assert. by rewrite Hslash.
Qed.

Lemma copy_on_existing (server : Server) (turns : nat) (src dst : string)
    (return_md5 : bool) w :
  outcome (exists_ dst w) = Ok true →
  copy server turns src dst false return_md5 w
  = (Raises FileExistsError, w, requests (exists_ dst w)).
Proof.
  intros Hexists. destruct (exists_only_probes dst w) as [Hw _].
  unfold copy. cbn [negb]. unfold bind.
  destruct (exists_ dst w) as [[[found | e] w1] l1];
    cbn in Hexists, Hw |- *; [| discriminate].
  injection Hexists as ->. subst w1. cbn. by rewrite app_nil_r.
Qed.

(** X28. With [overwrite=False], a copy onto a destination of which
    [exists] is true raises [FileExistsError] after the existence check
    alone: the requests of the call are those of [exists(dst)], none of
    them does copy work (no rewrite, no server-side copy, no stream
    opened, no byte moved), and the world, the destination with it, is
    as before. *)
Theorem copy_fails_fast_on_existing (server : Server) (turns : nat)
    (src dst : string) (return_md5 : bool) w :
  outcome (exists_ dst w) = Ok true →
  let r := copy server turns src dst false return_md5 w in
  outcome r = Raises FileExistsError
  ∧ world r = w
  ∧ requests r = requests (exists_ dst w)
  ∧ Forall (λ q, is_copy_work q = false) (requests r).
Proof.
  intros Hexists r. unfold r. rewrite copy_on_existing by done.
  destruct (exists_only_probes dst w) as [_ Hl]. done.
Qed.

(** **** Strings *)

Lemma endswith_refl (s : string) : endswith s s = true.
Proof. destruct s; cbn [endswith]; by rewrite String.eqb_refl. Qed.

Lemma endswith_cons (c : ascii) (s suffix : string) :
  endswith (String c s) suffix
  = if String.eqb (String c s) suffix then true else endswith s suffix.
Proof. done. Qed.

Lemma endswith_app (s suffix : string) : endswith (s +:+ suffix) suffix = true.
Proof.
  induction s as [| c s IH]; [apply endswith_refl |].
  change (String c s +:+ suffix) with (String c (s +:+ suffix)).
  rewrite endswith_cons, IH. by destruct (String.eqb _ _).
Qed.

Lemma endswith_with_slash path : endswith (with_slash path) "/" = true.
Proof.
  unfold with_slash. destruct (endswith path "/") eqn:Hslash; [done |].
  apply endswith_app.
Qed.

Lemma with_slash_idem path : with_slash (with_slash path) = with_slash path.
Proof. unfold with_slash at 1. by rewrite endswith_with_slash. Qed.

Lemma append_cons (c : ascii) (s t : string) :
  String c s +:+ t = String c (s +:+ t).
Proof. done. Qed.

Lemma prefix_app (p s t : string) :
  String.prefix p s = true → String.prefix p (s +:+ t) = true.
Proof.
  revert p. induction s as [| d s IH]; intros [| c p] Hp.
  - by destruct t.
  - done.
  - done.
  - rewrite append_cons. cbn [String.prefix] in Hp |- *.
    destruct (ascii_dec c d); [by apply IH | done].
Qed.

(** **** A slash at the end of a path leaves its scheme alone *)

Lemma lstrip_slash (s : string) : lstrip (s +:+ "/") = lstrip s +:+ "/".
Proof.
  induction s as [| c s IH]; [done |].
  rewrite append_cons. cbn [lstrip]. by destruct (between 0 32 c).
Qed.

Lemma remove_unsafe_slash (s : string) :
  remove_unsafe (s +:+ "/") = remove_unsafe s +:+ "/".
Proof.
  induction s as [| c s IH]; [done |].
  rewrite append_cons. cbn [remove_unsafe].
  destruct (Ascii.eqb c "009" || Ascii.eqb c "010" || Ascii.eqb c "013");
    [done |].
  by rewrite IH.
Qed.

Lemma scheme_and_rest_slash (s sch rest : string) :
  scheme_and_rest s = Some (sch, rest) →
  scheme_and_rest (s +:+ "/") = Some (sch, rest +:+ "/").
Proof.
  revert sch rest. induction s as [| c s IH]; intros sch rest; [done |].
  rewrite append_cons. cbn [scheme_and_rest].
  destruct (Ascii.eqb c ":"); [by intros [= <- <-] |].
  destruct (is_scheme_char c); [| done].
  destruct (scheme_and_rest s) as [[sch' rest'] |]; [| done].
  intros [= <- <-]. by rewrite (IH sch' rest').
Qed.

Lemma split_scheme_slash (url sch rest : string) :
  split_scheme url = (sch, rest) → sch ≠ ""%string →
  split_scheme (url +:+ "/") = (sch, rest +:+ "/").
Proof.
  destruct url as [| c url]; [by intros [= <- <-] |].
  rewrite append_cons. unfold split_scheme.
  destruct (is_letter c); [| by intros [= <- <-]].
  destruct (scheme_and_rest (String c url)) as [[sch' rest'] |] eqn:Hscheme;
    [| by intros [= <- <-]].
  intros [= <- <-] _.
  by rewrite <- append_cons, (scheme_and_rest_slash _ _ _ Hscheme).
Qed.

Lemma until_delimiter_slash (s : string) :
  until_delimiter (s +:+ "/") = until_delimiter s.
Proof.
  induction s as [| c s IH]; [done |].
  rewrite append_cons. cbn [until_delimiter].
  destruct (Ascii.eqb c "/" || Ascii.eqb c "?" || Ascii.eqb c "#"); [done |].
  by rewrite IH.
Qed.

Lemma netloc_of_slash (rest : string) :
  netloc_of (rest +:+ "/") = netloc_of rest.
Proof.
  destruct rest as [| c [| d rest]]; [done | |].
  - rewrite append_cons. cbn. by destruct (Ascii.eqb c "/").
  - rewrite !append_cons. cbn [netloc_of].
    by rewrite until_delimiter_slash.
Qed.

Lemma urlparse_slash path (url : Url) :
  urlparse path = Ok url → scheme url ≠ ""%string →
  urlparse (path +:+ "/") = Ok url.
Proof.
  unfold urlparse. rewrite lstrip_slash, remove_unsafe_slash.
  destruct (split_scheme (remove_unsafe (lstrip path))) as [sch rest]
    eqn:Hsplit.
  destruct (has_bracket (netloc_of rest)) eqn:Hbracket; [done |].
  intros [= <-] Hscheme. cbn [scheme] in Hscheme.
  by rewrite (split_scheme_slash _ _ _ Hsplit Hscheme), netloc_of_slash,
    Hbracket.
Qed.

Lemma cloud_of_scheme path (c : Cloud) :
  cloud_of path = Some c
  ↔ ∃ url, urlparse path = Ok url
           ∧ scheme url = match c with Google => "gs" | Azure => "as" end.
Proof.
  unfold cloud_of, _is_google_path, _is_azure_path.
  destruct (urlparse path) as [url | e].
  - destruct (String.eqb (scheme url) "gs") eqn:Hgs.
    + apply String.eqb_eq in Hgs. split.
      * intros [= <-]. by exists url.
      * intros (url' & [= <-] & Hscheme). destruct c; [done |]. congruence.
    + apply String.eqb_neq in Hgs.
      destruct (String.eqb (scheme url) "as") eqn:Has.
      * apply String.eqb_eq in Has. split.
        -- intros [= <-]. by exists url.
        -- intros (url' & [= <-] & Hscheme). destruct c; [congruence | done].
      * apply String.eqb_neq in Has. split; [done |].
        intros (url' & [= <-] & Hscheme). destruct c; congruence.
  - split; [done |]. by intros (url' & ? & _).
Qed.

Lemma cloud_of_with_slash path (c : Cloud) :
  cloud_of path = Some c → cloud_of (with_slash path) = Some c.
Proof.
  unfold with_slash. destruct (endswith path "/"); [done |].
  intros (url & Hparse & Hscheme)%cloud_of_scheme.
  apply cloud_of_scheme. exists url. split; [| done].
  apply urlparse_slash; [done |]. rewrite Hscheme. by destruct c.
Qed.

Lemma substring_none (n : nat) (s : string) : substring n 0 s = "".
Proof.
  revert n. induction s as [| c s IH]; intros [| n]; cbn; try done.
Qed.

Lemma listed_as_itself (name : string) : listed_as name name = inl name.
Proof.
  unfold listed_as, str_from. by rewrite Nat.sub_diag, substring_none.
Qed.

(** **** Listings *)

Lemma elem_of_names_under w (root prefix name : string) :
  name ∈ names_under w root prefix
  ↔ is_Some (blobs w !! (root, name)) ∧ String.prefix prefix name = true.
Proof.
  unfold names_under. rewrite list_elem_of_omap. split.
  - intros ([[r n] content] & Hin & Hsome).
    apply elem_of_map_to_list in Hin.
    destruct (bool_decide (r = root)) eqn:Hr; [| done].
    apply bool_decide_eq_true in Hr. subst r.
    destruct (String.prefix prefix n) eqn:Hp; [| done].
    injection Hsome as ->. split; [by eexists | done].
  - intros [[content Hsome] Hp]. exists (root, name, content).
    split; [by apply elem_of_map_to_list |].
    by rewrite bool_decide_eq_true_2, Hp.
Qed.

Lemma elem_of_items (prefix : string) (names : list string) (n : string) :
  n ∈ items (page_of prefix names)
  ↔ ∃ name, name ∈ names ∧ listed_as prefix name = inl n.
Proof.
  cbn [page_of items]. rewrite list_elem_of_omap. split.
  - intros (name & Hin & Hsome). exists name. split; [done |].
    by destruct (listed_as prefix name); simplify_eq.
  - intros (name & Hin & Hl). exists name. split; [done |]. by rewrite Hl.
Qed.

Lemma elem_of_prefixes (prefix : string) (names : list string) (p : string) :
  p ∈ prefixes (page_of prefix names)
  ↔ ∃ name, name ∈ names ∧ listed_as prefix name = inr p.
Proof.
  cbn [page_of prefixes]. rewrite elem_of_remove_dups, list_elem_of_omap.
  split.
  - intros (name & Hin & Hsome). exists name. split; [done |].
    by destruct (listed_as prefix name); simplify_eq.
  - intros (name & Hin & Hl). exists name. split; [done |]. by rewrite Hl.
Qed.

Lemma listed_as_inl (prefix name n : string) :
  listed_as prefix name = inl n → n = name.
Proof.
  unfold listed_as. destruct (index 0 "/" _); [done |]. by intros [= ->].
Qed.

(** Every object below the prefix shows in the page, as an item or
    through a common prefix. *)
Lemma page_shows (prefix : string) (names : list string) (name : string) :
  name ∈ names →
  name ∈ items (page_of prefix names)
  ∨ ∃ p, p ∈ prefixes (page_of prefix names).
Proof.
  intros Hin. destruct (listed_as prefix name) as [n | p] eqn:Hl.
  - left. apply elem_of_items. exists name. split; [done |].
    by rewrite Hl, (listed_as_inl _ _ _ Hl).
  - right. exists p. apply elem_of_prefixes. eauto.
Qed.

(** **** The functions on a directory path

    [path] ends in [/] and names the blob [blob] of [root], not the root
    itself. *)

Section OnDirectory.
Context (c : Cloud) (path root blob : string).
Hypothesis Hcloud : cloud_of path = Some c.
Hypothesis Hslash : endswith path "/" = true.
Hypothesis Hlocate : locate c path = (root, blob).
Hypothesis Hblob : blob ≠ "".

Lemma with_slash_id : with_slash path = path.
Proof using Hslash. unfold with_slash. by rewrite Hslash. Qed.

Lemma blob_eqb : String.eqb blob "" = false.
Proof using Hblob. by apply String.eqb_neq. Qed.

Lemma isfile_run w :
  isfile c path w
  = (Ok (bool_decide (is_Some (object_at w root blob))), w,
     [GetObject root blob]).
Proof using Hlocate Hblob.
  unfold isfile. rewrite Hlocate, blob_eqb. unfold bind, get_object.
  by destruct (object_at w root blob).
Qed.

Lemma isdir_run w :
  root ∈ roots w →
  isdir path w
  = (Ok (negb (bool_decide (items (page_of blob (names_under w root blob)) = []))
         || negb (bool_decide
                    (prefixes (page_of blob (names_under w root blob)) = []))),
     w, [ListObjects root blob]).
Proof using Hcloud Hslash Hlocate Hblob.
  intros Hroot. unfold isdir. rewrite (on_path_remote path c) by done.
  rewrite with_slash_id, Hlocate, blob_eqb.
  unfold bind, list_objects. by rewrite decide_True.
Qed.

Lemma list_suffixes_run w :
  root ∈ roots w →
  _list_suffixes path true w
  = (Ok ((λ name, _strip_slash (str_from (String.length blob) name))
           <$> get_names c (page_of blob (names_under w root blob)) blob),
     w, [ListObjects root blob]).
Proof using Hcloud Hlocate.
  intros Hroot. unfold _list_suffixes.
  rewrite (on_path_remote path c) by done. rewrite Hlocate.
  unfold bind, list_objects. by rewrite decide_True.
Qed.

(** The listing of an empty directory shows the marker and nothing else. *)
Lemma empty_dir_names w :
  dir_is_empty w root blob →
  blob ∈ items (page_of blob (names_under w root blob))
  ∧ get_names c (page_of blob (names_under w root blob)) blob = [].
Proof using Type.
  clear Hcloud Hlocate. intros (Hroot & Hmarker & Honly).
  assert (∀ name, name ∈ names_under w root blob → name = blob) as Hnames.
  { intros name [Hsome Hp]%elem_of_names_under. by apply Honly. }
  split.
  - apply elem_of_items. exists blob. split; [| apply listed_as_itself].
    apply elem_of_names_under. split; [done |].
    apply prefix_correct. clear. induction blob as [| a b IH]; [done |].
    cbn. by rewrite IH.
  - apply elem_of_nil_inv. intros n Hin.
    assert (n ∈ prefixes (page_of blob (names_under w root blob))
            ∨ n ∈ filter (λ name, name ≠ blob)
                    (items (page_of blob (names_under w root blob)))) as Hn.
    { unfold get_names in Hin. destruct c; apply elem_of_app in Hin; tauto. }
    destruct Hn as [Hp | Hi].
    + apply elem_of_prefixes in Hp as (name & Hname & Hl).
      rewrite (Hnames _ Hname), listed_as_itself in Hl. done.
    + apply list_elem_of_filter in Hi as [Hne Hi].
      apply elem_of_items in Hi as (name & Hname & Hl).
      apply listed_as_inl in Hl. apply Hne. rewrite Hl. by apply Hnames.
Qed.

(** The listing of a directory that is not empty yields a name. *)
Lemma nonempty_dir_names w :
  dir_is_nonempty w root blob →
  get_names c (page_of blob (names_under w root blob)) blob ≠ []
  ∧ (negb (bool_decide (items (page_of blob (names_under w root blob)) = []))
     || negb (bool_decide
                (prefixes (page_of blob (names_under w root blob)) = [])))
    = true.
Proof using Type.
  clear Hcloud Hlocate. intros (Hroot & name & Hsome & Hp & Hne).
  assert (name ∈ names_under w root blob) as Hname.
  { by apply elem_of_names_under. }
  destruct (page_shows blob _ _ Hname) as [Hi | [p Hpre]].
  - split.
    + intros Hnil.
      assert (name ∈ get_names c (page_of blob (names_under w root blob)) blob)
        as Hin.
      { unfold get_names. destruct c; apply elem_of_app; [right | left];
          by apply list_elem_of_filter. }
      rewrite Hnil in Hin. by apply elem_of_nil in Hin.
    + rewrite (bool_decide_eq_false_2 (items _ = [])); [done |].
      intros Hnil. rewrite Hnil in Hi. by apply elem_of_nil in Hi.
  - split.
    + intros Hnil.
      assert (p ∈ get_names c (page_of blob (names_under w root blob)) blob)
        as Hin.
      { unfold get_names. destruct c; apply elem_of_app; [left | right];
          done. }
      rewrite Hnil in Hin. by apply elem_of_nil in Hin.
    + rewrite (bool_decide_eq_false_2 (prefixes _ = [])); [apply orb_true_r |].
      intros Hnil. rewrite Hnil in Hpre. by apply elem_of_nil in Hpre.
Qed.

End OnDirectory.

Lemma object_at_marker w (root blob : string) :
  dir_is_empty w root blob → is_Some (object_at w root blob).
Proof.
  intros (Hroot & Hmarker & _). unfold object_at. by rewrite decide_True.
Qed.

Lemma exists_run (c : Cloud) path (root blob : string) w :
  cloud_of path = Some c → endswith path "/" = true →
  locate c path = (root, blob) → blob ≠ "" → root ∈ roots w →
  ∃ l,
    exists_ path w
    = (Ok (bool_decide (is_Some (object_at w root blob))
           || negb (bool_decide
                      (items (page_of blob (names_under w root blob)) = []))
           || negb (bool_decide
                      (prefixes (page_of blob (names_under w root blob)) = []))),
       w, l).
Proof.
  intros Hcloud Hslash Hlocate Hblob Hroot. unfold exists_.
  rewrite (on_path_remote path c) by done.
  unfold bind. rewrite (isfile_run c path root blob Hlocate Hblob).
  destruct (bool_decide (is_Some (object_at w root blob))); [by eexists |].
  rewrite (isdir_run c path root blob Hcloud Hslash Hlocate Hblob w Hroot).
  cbn [orb]. by eexists.
Qed.

Lemma listdir_run (c : Cloud) path (root blob : string) w :
  cloud_of path = Some c → endswith path "/" = true →
  locate c path = (root, blob) → blob ≠ "" → root ∈ roots w →
  (negb (bool_decide (items (page_of blob (names_under w root blob)) = []))
   || negb (bool_decide
              (prefixes (page_of blob (names_under w root blob)) = [])))
  = true →
  ∃ l,
    listdir path w
    = (Ok ((λ name, _strip_slash (str_from (String.length blob) name))
             <$> get_names c (page_of blob (names_under w root blob)) blob),
       w, l).
Proof.
  intros Hcloud Hslash Hlocate Hblob Hroot Hshown. unfold listdir.
  rewrite (with_slash_id path Hslash).
  destruct (exists_run c path root blob w) as [l Hexists]; try done.
  rewrite <- orb_assoc, Hshown, orb_true_r in Hexists.
  unfold bind at 1. rewrite Hexists. cbn [negb].
  unfold bind at 1.
  rewrite (isdir_run c path root blob Hcloud Hslash Hlocate Hblob w Hroot).
  rewrite Hshown. cbn [negb]. rewrite (on_path_remote path c) by done.
  rewrite (list_suffixes_run c path root blob Hcloud Hlocate w Hroot).
  by eexists.
Qed.

Lemma listdir_of_missing (c : Cloud) path (root blob : string) w :
  cloud_of path = Some c → endswith path "/" = true →
  locate c path = (root, blob) → blob ≠ "" → root ∈ roots w →
  (∀ name, is_Some (blobs w !! (root, name)) →
           String.prefix blob name = false) →
  ∃ l,
    outcome (exists_ path w) = Ok false
    ∧ listdir path w = (Raises FileNotFoundError, w, l).
Proof.
  intros Hcloud Hslash Hlocate Hblob Hroot Hnone.
  assert (names_under w root blob = []) as Hnames.
  { apply elem_of_nil_inv. intros name [Hsome Hp]%elem_of_names_under.
    rewrite (Hnone name Hsome) in Hp. done. }
  assert (object_at w root blob = None) as Hmarker.
  { unfold object_at. rewrite decide_True by done.
    destruct (blobs w !! (root, blob)) eqn:Hb; [| done].
    assert (String.prefix blob blob = false) as Hp by (apply Hnone; eauto).
    exfalso. revert Hp. clear. induction blob as [| a b IH]; [done |].
    cbn. destruct (ascii_dec a a); [done | congruence]. }
  destruct (exists_run c path root blob w) as [l Hexists]; try done.
  rewrite Hnames, Hmarker in Hexists. cbn in Hexists.
  eexists. split; [by rewrite Hexists |].
  unfold listdir. rewrite (with_slash_id path Hslash).
  unfold bind at 1. rewrite Hexists. cbn. reflexivity.
Qed.

(** [rmdir] once the path is known to be remote: what is left of it
    is the part after the test for the root. *)
Lemma rmdir_remote (c : Cloud) path (root blob : string) w :
  cloud_of path = Some c → locate c (with_slash path) = (root, blob) →
  blob ≠ "" →
  rmdir path w
  = match listdir (with_slash path) w with
    | (Raises FileNotFoundError, w1, l1) => (Ok tt, w1, l1)
    | (Raises e, w1, l1) => (Raises e, w1, l1)
    | (Ok (_ :: _), w1, l1) => (Raises OSError, w1, l1)
    | (Ok [], w1, l1) =>
        let deleted := match c with Google => 204 | Azure => 202 end in
        let '(r, w2, l2) :=
          (let! status := delete_object deleted root blob in
           Blob.assert (status =? deleted)) w1 in
        (r, w2, l1 ++ l2)
    end.
Proof.
  intros Hcloud Hlocate Hblob. unfold rmdir.
  rewrite (cloud_of_not_local path c Hcloud).
  rewrite (on_path_remote (with_slash path) c)
    by (by apply cloud_of_with_slash).
  by rewrite Hlocate, (blob_eqb blob Hblob).
Qed.

Lemma rmdir_of_empty (c : Cloud) path (root blob : string) w :
  cloud_of path = Some c → locate c (with_slash path) = (root, blob) →
  blob ≠ "" → dir_is_empty w root blob →
  ∃ l,
    rmdir path w
    = (Ok tt,
       mkWorld (roots w) (delete (root, blob) (blobs w)) (files w) (dirs w),
       l).
Proof.
  intros Hcloud Hlocate Hblob Hempty.
  rewrite (rmdir_remote c path root blob w) by done.
  destruct (empty_dir_names c root blob w Hempty) as [Hmarker Hnames].
  destruct (listdir_run c (with_slash path) root blob w) as [l Hlist];
    try done.
  { by apply cloud_of_with_slash. }
  { apply endswith_with_slash. }
  { by destruct Hempty. }
  { rewrite (bool_decide_eq_false_2 (items _ = [])); [done |].
    intros Hnil. rewrite Hnil in Hmarker. by apply elem_of_nil in Hmarker. }
  rewrite Hlist, Hnames. cbn [fmap list_fmap].
  destruct (object_at_marker w root blob Hempty) as [content Hcontent].
  unfold bind, delete_object. rewrite Hcontent.
  destruct c; cbn; by eexists.
Qed.

Lemma rmdir_of_missing (c : Cloud) path (root blob : string) w :
  cloud_of path = Some c → locate c (with_slash path) = (root, blob) →
  blob ≠ "" → root ∈ roots w →
  (∀ name, is_Some (blobs w !! (root, name)) →
           String.prefix blob name = false) →
  outcome (exists_ (with_slash path) w) = Ok false
  ∧ ∃ l, rmdir path w = (Ok tt, w, l).
Proof.
  intros Hcloud Hlocate Hblob Hroot Hnone.
  rewrite (rmdir_remote c path root blob w) by done.
  destruct (listdir_of_missing c (with_slash path) root blob w)
    as (l & Hexists & Hlist); try done.
  { by apply cloud_of_with_slash. }
  { apply endswith_with_slash. }
  split; [done |]. rewrite Hlist. by eexists.
Qed.

Lemma rmdir_of_nonempty (c : Cloud) path (root blob : string) w :
  cloud_of path = Some c → locate c (with_slash path) = (root, blob) →
  blob ≠ "" → dir_is_nonempty w root blob →
  ∃ l, rmdir path w = (Raises OSError, w, l).
Proof.
  intros Hcloud Hlocate Hblob Hfull.
  rewrite (rmdir_remote c path root blob w) by done.
  destruct (nonempty_dir_names c root blob w Hfull) as [Hnames Hshown].
  destruct (listdir_run c (with_slash path) root blob w) as [l Hlist];
    try done.
  { by apply cloud_of_with_slash. }
  { apply endswith_with_slash. }
  { by destruct Hfull. }
  rewrite Hlist.
  destruct (get_names c (page_of blob (names_under w root blob)) blob)
    as [| n names]; [done |].
  cbn [fmap list_fmap]. by eexists.
Qed.

(** X27. For a [gs://] or [as://] path that names a directory below a
    bucket or container: on an empty directory [rmdir] succeeds, after
    which the directory no longer exists, and [rmdir] succeeds again;
    on a directory that is not empty it raises [OSError] and changes
    nothing.  On the root itself (the bucket or container) it always
    raises. *)
Theorem rmdir_directories (c : Cloud) path (root blob : string) w :
  cloud_of path = Some c →
  locate c (with_slash path) = (root, blob) →
  (blob ≠ "" → dir_is_empty w root blob →
   let first := rmdir path w in
   outcome first = Ok tt
   ∧ outcome (exists_ (with_slash path) (world first)) = Ok false
   ∧ outcome (rmdir path (world first)) = Ok tt)
  ∧ (blob ≠ "" → dir_is_nonempty w root blob →
     outcome (rmdir path w) = Raises OSError ∧ world (rmdir path w) = w)
  ∧ (blob = "" →
     ∃ msg, outcome (rmdir path w) = Raises (Exception msg)
            ∧ world (rmdir path w) = w).
Proof.
  intros Hcloud Hlocate. split; [| split].
  - intros Hblob Hempty first.
    destruct (rmdir_of_empty c path root blob w) as [l Hfirst]; try done.
    unfold first. rewrite Hfirst. cbn [outcome world fst snd].
    split; [done |].
    destruct Hempty as (Hroot & Hmarker & Honly).
    destruct (rmdir_of_missing c path root blob
                (mkWorld (roots w) (delete (root, blob) (blobs w))
                   (files w) (dirs w)))
      as [Hgone [l' Hsecond]]; try done.
    + cbn [blobs]. intros name Hsome.
      destruct (decide (name = blob)) as [-> | Hne].
      * rewrite lookup_delete_eq in Hsome. by destruct Hsome.
      * rewrite lookup_delete_ne in Hsome by congruence.
        destruct (String.prefix blob name) eqn:Hp; [| done].
        by specialize (Honly name Hsome Hp).
    + split; [done |]. by rewrite Hsecond.
  - intros Hblob Hfull.
    destruct (rmdir_of_nonempty c path root blob w) as [l Hrun]; try done.
    by rewrite Hrun.
  - intros ->. exists "Cannot delete bucket"%string. unfold rmdir.
    rewrite (cloud_of_not_local path c Hcloud).
    rewrite (on_path_remote (with_slash path) c)
      by (by apply cloud_of_with_slash).
    by rewrite Hlocate.
Qed.

End BlobFacts.

Section BlobExamples.
Import Blob.

Lemma BlobFile_refuses_trailing_slash_witness :
  BlobFile "as://account-container/logs/" "rb"
    (mkWorld {["as://account-container"]}
       {[("as://account-container", "logs/")%string := []]} ∅ ∅)
  = (Raises AssertionError,
     mkWorld {["as://account-container"]}
       {[("as://account-container", "logs/")%string := []]} ∅ ∅,
     []).
Proof.
  apply (BlobFile_refuses_trailing_slash "as://account-container/logs/" "rb").
  reflexivity.
Defined.

Lemma copy_fails_fast_on_existing_witness :
  let w := mkWorld {["gs://bucket"]}
             {[("gs://bucket", "a.txt")%string := [x6d]%byte]}
             {["/tmp/b.txt"%string := [x65]%byte]} {["/tmp"%string]} in
  let r := copy prompt_server 1 "/tmp/b.txt" "gs://bucket/a.txt"
             false true w in
  outcome r = Raises FileExistsError
  ∧ world r = w
  ∧ requests r = requests (exists_ "gs://bucket/a.txt" w)
  ∧ Forall (λ q, is_copy_work q = false) (requests r).
Proof.
  intros w.
  apply (copy_fails_fast_on_existing prompt_server 1 "/tmp/b.txt"
           "gs://bucket/a.txt" true w).
  reflexivity.
Defined.

(** C9. The claim fails where the destination is an Azure blob named in
    the HTTPS form, which the spec and the tests of the repository take
    for a remote path: [_is_azure_path] knows the scheme [as] alone, so
    [exists] of the blob that is there asks the local file system and
    is false, [copy] with [overwrite=False] goes on, opens the source
    and opens the destination as a local file, and what it raises is
    the [FileNotFoundError] of that open, not [FileExistsError].  On
    the [as://] form of the same blob [exists] is true. *)
Lemma copy_misses_https_destination :
  let w := mkWorld {["as://account-container"]}
             {[("as://account-container", "a.txt")%string := [x6d]%byte]}
             {["/tmp/b.txt"%string := [x65]%byte]} {["/tmp"%string]} in
  let dst := "https://account.blob.core.windows.net/container/a.txt"%string in
  let r := copy prompt_server 1 "/tmp/b.txt" dst false false w in
  spec_as_form dst = Some "as://account-container/a.txt"%string
  ∧ outcome (exists_ "as://account-container/a.txt" w) = Ok true
  ∧ _is_azure_path dst = Ok false
  ∧ outcome (exists_ dst w) = Ok false
  ∧ outcome r = Raises FileNotFoundError
  ∧ requests r = [LocalOpen "/tmp/b.txt" false; LocalOpen dst true].
Proof. by vm_compute. Qed.

(** C8. The claim fails where the empty directory is named in the HTTPS
    form of an Azure path, which the spec and the tests of the
    repository take for a remote path: [_is_azure_path] knows the
    scheme [as] alone, so [rmdir] takes the path for a local one and
    the first call raises the [FileNotFoundError] of [os.rmdir],
    where the [as://] form of the same directory is removed. *)
Lemma rmdir_misses_https_directory :
  let w := mkWorld {["as://account-container"]}
             {[("as://account-container", "photos/")%string := []]} ∅ ∅ in
  let path := "https://account.blob.core.windows.net/container/photos"%string in
  spec_as_form path = Some "as://account-container/photos"%string
  ∧ outcome (listdir "as://account-container/photos" w) = Ok []
  ∧ outcome (rmdir "as://account-container/photos" w) = Ok tt
  ∧ _is_local_path path = Ok true
  ∧ rmdir path w = (Raises FileNotFoundError, w, []).
Proof. by vm_compute. Qed.

Lemma rmdir_directories_witness :
  let empty := mkWorld {["gs://bucket"]}
                 {[("gs://bucket", "photos/")%string := []]} ∅ ∅ in
  let full := mkWorld {["as://account-container"]}
                {[("as://account-container", "photos/cat.png")%string
                    := [x6d]%byte]} ∅ ∅ in
  (let first := rmdir "gs://bucket/photos" empty in
   outcome first = Ok tt
   ∧ outcome (exists_ (with_slash "gs://bucket/photos") (world first))
     = Ok false
   ∧ outcome (rmdir "gs://bucket/photos" (world first)) = Ok tt)
  ∧ (outcome (rmdir "as://account-container/photos" full) = Raises OSError
     ∧ world (rmdir "as://account-container/photos" full) = full)
  ∧ (∃ msg, outcome (rmdir "gs://bucket" empty) = Raises (Exception msg)
            ∧ world (rmdir "gs://bucket" empty) = empty).
Proof.
  intros empty full. split; [| split].
  - destruct (rmdir_directories Google "gs://bucket/photos" "gs://bucket"
                "photos/" empty) as [Hempty _]; [reflexivity | reflexivity |].
    apply Hempty; [discriminate |]. unfold dir_is_empty, empty.
    cbn [roots blobs]. split; [| split].
    + by apply elem_of_singleton_2.
    + rewrite lookup_singleton_eq. by eexists.
    + intros name [content Hsome] _.
      apply lookup_singleton_Some in Hsome as [[= <-] _]. reflexivity.
  - destruct (rmdir_directories Azure "as://account-container/photos"
                "as://account-container" "photos/" full)
      as (_ & Hfull & _); [reflexivity | reflexivity |].
    apply Hfull; [discriminate |]. unfold dir_is_nonempty, full.
    cbn [roots blobs]. split.
    + by apply elem_of_singleton_2.
    + exists "photos/cat.png"%string. split; [| split].
      * rewrite lookup_singleton_eq. by eexists.
      * reflexivity.
      * discriminate.
  - destruct (rmdir_directories Google "gs://bucket" "gs://bucket" "" empty)
      as (_ & _ & Hroot); [reflexivity | reflexivity |].
    by apply Hroot.
Defined.

(** With [overwrite=True] the same copy goes through: the streams are
    opened, the bytes moved, and the destination holds the source's
    content. *)
Lemma copy_overwrites_when_allowed :
  let w := mkWorld {["gs://bucket"]}
             {[("gs://bucket", "a.txt")%string := [x6d]%byte]}
             {["/tmp/b.txt"%string := [x65]%byte]} {["/tmp"%string]} in
  let r := copy prompt_server 1 "/tmp/b.txt" "gs://bucket/a.txt"
             true true w in
  outcome r = Ok (Copied (Some (md5_of [x65]%byte)))
  ∧ blobs (world r) !! ("gs://bucket", "a.txt")%string = Some [x65]%byte.
Proof. by vm_compute. Qed.

(** A path without the trailing slash is opened: the read mode looks the
    object up, the write mode starts an upload. *)
Lemma BlobFile_opens_other_paths :
  let w := mkWorld {["as://account-container"]}
             {[("as://account-container", "logs")%string := []]} ∅ ∅ in
  (BlobFile "as://account-container/logs" "rb" w).1
  = (Ok (ReadStream "as://account-container/logs"), w)
  ∧ requests (BlobFile "as://account-container/logs" "rb" w)
    = [GetObject "as://account-container" "logs"]
  ∧ requests (BlobFile "as://account-container/logs" "wb" w)
    = [StartUpload "as://account-container" "logs"].
Proof. by vm_compute. Qed.

End BlobExamples.

(** * Further properties *)

Section ExecutorMore.
Import Executor.

Lemma attempts_from_logged (pre : list AttemptOutcome) (o : AttemptOutcome)
    (rest : list AttemptOutcome) (k : nat) :
  Forall transient pre → ¬ transient o →
  logged (attempts_from retry_statuses k (pre ++ o :: rest))
  = filter (λ attempt, 3 ≤ attempt)%nat (seq k (length pre)).
Proof.
  intros Hpre Ho. revert k.
  induction Hpre as [| o' pre Ho' _ IH]; intros k.
  - cbn [app length seq]. by rewrite not_transient_stops.
  - cbn [app length seq]. rewrite transient_retried by done.
    cbn [logged after_retry]. rewrite IH.
    rewrite filter_cons. destruct (3 <=? k)%nat eqn:Hk.
    + apply Nat.leb_le in Hk. by rewrite decide_True.
    + apply Nat.leb_gt in Hk. rewrite decide_False by lia. done.
Qed.

Lemma filter_from_third (n k : nat) :
  filter (λ attempt, 3 ≤ attempt)%nat (seq k n)
  = seq (Nat.max 3 k) (n - (Nat.max 3 k - k)).
Proof.
  revert k. induction n as [| n IH]; intros k; [done |].
  cbn [seq]. rewrite filter_cons, IH.
  destruct (decide (3 ≤ k)%nat) as [Hk | Hk].
  - replace (Nat.max 3 (S k)) with (S k) by lia.
    replace (Nat.max 3 k) with k by lia.
    replace (n - (S k - S k))%nat with n by lia.
    by replace (S n - (k - k))%nat with (S n) by lia.
  - replace (Nat.max 3 (S k)) with 3%nat by lia.
    replace (Nat.max 3 k) with 3%nat by lia.
    f_equal. lia.
Qed.

(** X3. The failures of the first three attempts are silent; from the fourth
    attempt on (index 3 of [enumerate]) every failed attempt is reported
    to the log callback, once. *)
Theorem execute_request_logs_from_fourth (pre : list AttemptOutcome)
    (o : AttemptOutcome) (rest : list AttemptOutcome) :
  Forall transient pre → ¬ transient o →
  logged (_execute_request (pre ++ o :: rest))
  = seq 3 (length pre - 3).
Proof.
  intros Hpre Ho. unfold _execute_request, _execute_request_with.
  rewrite attempts_from_logged by done. rewrite filter_from_third.
  cbn [Nat.max]. f_equal; lia.
Qed.

Lemma execute_request_logs_from_fourth_witness :
  logged (_execute_request
            ([Response 503; Response 503; ProtocolError; Response 500;
              ReadTimeoutError] ++ Response 200 :: []))
  = seq 3 (5 - 3).
Proof.
  apply (execute_request_logs_from_fourth
           [Response 503; Response 503; ProtocolError; Response 500;
            ReadTimeoutError] (Response 200) []).
  - repeat (constructor; [unfold transient; first
      [ tauto
      | right; right; right; eexists; split;
          [reflexivity | rewrite !elem_of_cons; lia] ] |]).
    constructor.
  - intros [H | [H | [H | (status & H & Hin)]]]; try discriminate.
    injection H as <-. rewrite !elem_of_cons, elem_of_nil in Hin. lia.
Defined.

(** X4. The executor has no bound on its attempts: as long as every attempt
    fails in a transient way it neither returns nor raises, and it has
    slept once for each attempt made. *)
Theorem execute_request_never_gives_up (script : list AttemptOutcome) :
  Forall transient script →
  result (_execute_request script) = StillRetrying
  ∧ length (slept (_execute_request script)) = length script.
Proof. intros Hall. by apply all_transient_keeps_retrying. Qed.

Lemma execute_request_never_gives_up_witness :
  result (_execute_request [Response 429; ConnectTimeoutError]) = StillRetrying
  ∧ length (slept (_execute_request [Response 429; ConnectTimeoutError]))
    = 2%nat.
Proof.
  apply (execute_request_never_gives_up [Response 429; ConnectTimeoutError]).
  constructor; [| constructor; [| constructor]]; unfold transient.
  - right; right; right. exists 429. split; [done |].
    rewrite !elem_of_cons. lia.
  - tauto.
Defined.

End ExecutorMore.

Section TokensMore.
Import Tokens.
Context {Token : Type}.
Implicit Types (m : TokenManager Token) (c : Call Token).

Lemma get_token_loaded m c (token : Token) (e : Q) :
  answer c = Load token e → loader_called (get_token m c).2 = true →
  get_token m c
  = ({| _tokens := <[key c := token]> (_tokens (before_load m c));
        _expiration := Some e |},
     mkReply (inr token) true).
Proof.
  unfold get_token. intros Hanswer.
  destruct (_tokens (before_load m c) !! key c); [done |].
  by rewrite Hanswer.
Qed.

Lemma expired_margin m (t e : Q) :
  _expiration m = Some e →
  expired m t = negb (Qle_bool (t + 300) e).
Proof.
  intros He. unfold expired. by rewrite He.
Qed.

(** X5. A token that the loader has just delivered is served from the cache
    on the next call for its key, without a call of the loader, as long
    as [now + 300] does not pass the expiration that came with it; the
    manager is left as it was. *)
Theorem get_token_cached_after_load m c1 c2 (token : Token) (e : Q) :
  answer c1 = Load token e → loader_called (get_token m c1).2 = true →
  key c2 = key c1 → (now c2 + 300 <= e)%Q →
  get_token (get_token m c1).1 c2
  = ((get_token m c1).1, mkReply (inr token) false).
Proof.
  intros Hanswer Hcalled Hkey Hfresh.
  rewrite (get_token_loaded m c1 token e Hanswer Hcalled). cbn [fst].
  unfold get_token, before_load.
  rewrite (expired_margin _ (now c2) e) by done.
  apply Qle_bool_iff in Hfresh. rewrite Hfresh. cbn [negb _tokens].
  by rewrite Hkey, lookup_insert_eq.
Qed.

(** X6. A failure of the loader is not cached: the caller gets the loader's
    exception, the slot of the key is empty afterwards, and the next
    call for the key invokes the loader again. *)
Theorem get_token_failure_not_cached m c c' (err : exn) :
  answer c = LoadRaises err → loader_called (get_token m c).2 = true →
  key c' = key c →
  value (get_token m c).2 = inl err
  ∧ _tokens (get_token m c).1 !! key c = None
  ∧ loader_called (get_token (get_token m c).1 c').2 = true.
Proof.
  intros Hanswer Hcalled Hkey. unfold get_token in Hcalled |- *.
  destruct (_tokens (before_load m c) !! key c) eqn:Hslot; [done |].
  rewrite Hanswer. cbn [fst snd value].
  split; [done |]. split; [done |].
  assert (_tokens (before_load (before_load m c) c') !! key c' = None) as ->.
  { unfold before_load at 1.
    destruct (expired (before_load m c) (now c')); cbn [_tokens].
    - apply lookup_delete_eq.
    - by rewrite Hkey. }
  by destruct (answer c').
Qed.

End TokensMore.

Lemma get_token_cached_after_load_witness :
  let m := Tokens.new (Token:=string) in
  let c1 := Tokens.mkCall "gcs" 0 (Tokens.Load "t1"%string 3600%Q) in
  let c2 := Tokens.mkCall "gcs" 3000 (Tokens.Load "t2"%string 9000%Q) in
  Tokens.get_token (Tokens.get_token m c1).1 c2
  = ((Tokens.get_token m c1).1, Tokens.mkReply (inr "t1"%string) false).
Proof.
  intros m c1 c2.
  apply (get_token_cached_after_load m c1 c2 "t1"%string 3600%Q);
    try reflexivity.
  unfold Qle. cbn. lia.
Defined.

Lemma get_token_failure_not_cached_witness :
  let m := Tokens.new (Token:=string) in
  let c := Tokens.mkCall "acct" 0 (Tokens.LoadRaises (Exception "no creds")) in
  let c' := Tokens.mkCall "acct" 1 (Tokens.Load "t"%string 100%Q) in
  Tokens.value (Tokens.get_token m c).2 = inl (Exception "no creds")
  ∧ Tokens._tokens (Tokens.get_token m c).1 !! "acct"%string = None
  ∧ Tokens.loader_called (Tokens.get_token (Tokens.get_token m c).1 c').2
    = true.
Proof.
  intros m c c'.
  apply (get_token_failure_not_cached m c c' (Exception "no creds"));
    reflexivity.
Defined.

Section SliceMore.

Lemma len_zero_nil (b : list byte) : len b = 0 → b = [].
Proof. destruct b; [done |]. unfold len. cbn [length]. lia. Qed.

Lemma slice_from_beyond (n : Z) (b : list byte) :
  len b ≤ n → slice_from n b = [].
Proof.
  intros Hn. apply len_zero_nil. pose proof (len_nonneg b).
  rewrite len_slice_from by lia. lia.
Qed.

Lemma len_slice_to (n : Z) (b : list byte) :
  0 ≤ n ≤ len b → len (slice_to n b) = n.
Proof.
  intros Hn. pose proof (len_slices n b) as Hsum.
  rewrite len_slice_from in Hsum by lia. lia.
Qed.

Lemma slice_from_add (a c : Z) (b : list byte) :
  0 ≤ a → 0 ≤ c → slice_from (a + c) b = slice_from c (slice_from a b).
Proof.
  revert a. induction b as [| x b IH]; intros a Ha Hc.
  - cbn. by destruct c.
  - cbn [slice_from]. destruct (a <=? 0) eqn:Hle.
    + apply Z.leb_le in Hle. assert (a = 0) as -> by lia. by cbn.
    + apply Z.leb_gt in Hle.
      destruct (a + c <=? 0) eqn:Hle'; [apply Z.leb_le in Hle'; lia |].
      replace (a + c - 1) with ((a - 1) + c) by lia. apply IH; lia.
Qed.

End SliceMore.

Section WriterMore.
Import Writer.
Context {H : Type} `{Uploader H}.
Implicit Types (f : WriteFile H) (script : Script).

(** X8. A [close] that succeeds has uploaded all that was pending: the
    buffer is empty, the offset has advanced by its length, the stream
    is closed; a further [close] then makes no request and changes
    nothing. *)
Theorem close_flushes_once f script f' script' :
  closed f = false → close f script = (Ok tt, f', script') →
  _buf f' = [] ∧ closed f' = true ∧ _offset f' = _offset f + len (_buf f)
  ∧ ∀ script2, close f' script2 = (Ok tt, f', script2).
Proof.
  intros Hopen. unfold close at 1. rewrite Hopen.
  destruct (_upload_buf f true script) as [[[[] | e] f1] script1] eqn:Hbuf;
    [| discriminate].
  intros [= <- <-]. cbn [_buf closed _offset].
  apply upload_buf_ok in Hbuf as (Hsum & _ & _ & size & Hsize & Hcut).
  cbn [upload_size] in Hsize. injection Hsize as <-.
  rewrite slice_from_beyond in Hcut by lia.
  rewrite Hcut in Hsum |- *. unfold len in Hsum |- *. cbn [length] in Hsum.
  split; [done |]. split; [done |]. split; [lia |]. done.
Qed.

Lemma upload_loop_chunks (turns : nat) f script f' script' :
  0 < _chunk_size f → (_chunk_size f | _offset f) →
  upload_loop turns f script = Some (Ok tt, f', script') →
  (_chunk_size f' | _offset f') ∧ len (_buf f') ≤ _chunk_size f'
  ∧ _chunk_size f' = _chunk_size f.
Proof.
  revert f script. induction turns as [| turns IH]; intros f script Hcs Hdiv;
    cbn [upload_loop]; destruct (len (_buf f) >? _chunk_size f) eqn:Hgt;
    try discriminate;
    try (intros [= <- <-]; pose proof (Zgt_cases (len (_buf f)) (_chunk_size f))
           as Hcase; rewrite Hgt in Hcase; done).
  destruct (_upload_buf f false script) as [[[[] | e] f1] script1] eqn:Hbuf;
    [| discriminate].
  intros Hloop.
  apply upload_buf_ok in Hbuf as (Hsum & Hcs1 & _ & size & Hsize & Hcut).
  unfold upload_size in Hsize.
  destruct (_chunk_size f =? 0) eqn:Hzero; [discriminate |].
  destruct (len (_buf f) / _chunk_size f * _chunk_size f >? 0); [| discriminate].
  injection Hsize as <-.
  pose proof (len_nonneg (_buf f)) as Hlen.
  pose proof (Z.mul_div_le (len (_buf f)) (_chunk_size f) Hcs) as Hle.
  pose proof (Z.div_pos (len (_buf f)) (_chunk_size f) Hlen Hcs) as Hq.
  rewrite Hcut, len_slice_from in Hsum by nia.
  apply IH in Hloop as (Hdiv' & Hbuf' & Hcs'); [| lia |].
  - repeat split; [done | done | congruence].
  - rewrite Hcs1.
    replace (_offset f1)
      with (_offset f + len (_buf f) / _chunk_size f * _chunk_size f) by lia.
    apply Z.divide_add_r; [done |]. apply Z.divide_factor_r.
Qed.

(** X9. Before the stream is closed, whatever has been written: the bytes
    uploaded so far are a whole number of chunks, and at most one chunk
    is pending. *)
Theorem writes_upload_whole_chunks (h : H) (ops : list Op) script f' script' :
  0 < chunk_size → Forall (λ op, op ≠ Close) ops →
  run (init h) ops script = Some (Ok tt, f', script') →
  (chunk_size | _offset f') ∧ len (_buf f') ≤ chunk_size.
Proof.
  intros Hcs Hops.
  assert (∀ f, _chunk_size f = chunk_size → (chunk_size | _offset f) →
               run f ops script = Some (Ok tt, f', script') →
               (chunk_size | _offset f') ∧ len (_buf f') ≤ chunk_size
               ∨ ops = [] ∧ f' = f) as Hrun.
  { revert script. induction Hops as [| op ops Hop _ IH]; intros script f Hf Hdiv.
    - intros [= <- <-]. by right.
    - destruct op as [b |]; [| done]. cbn [run].
      destruct (write f b script) as [[[[n | e] f1] script1] |] eqn:Hw;
        try discriminate.
      intros Hrest. left. unfold write in Hw.
      destruct (upload_loop 2 _ script)
        as [[[[[] | e] f2] script2] |] eqn:Hloop; try discriminate.
      injection Hw as <- <- <-.
      apply upload_loop_chunks in Hloop as (Hdiv2 & Hbuf2 & Hcs2);
        cbn [_chunk_size _offset]; [| lia | by rewrite Hf].
      cbn [_chunk_size] in Hcs2. rewrite Hcs2, Hf in Hdiv2, Hbuf2.
      destruct (IH script2 f2) as [Hdone | [-> ->]]; try done.
      congruence. }
  intros Hinit. destruct (Hrun (init h)) as [Hdone | [-> ->]]; try done.
  - cbn. apply Z.divide_0_r.
  - cbn. split; [apply Z.divide_0_r |]. unfold len. cbn. lia.
Qed.

End WriterMore.

Section AzureMore.
Import Writer.
Implicit Types (f : WriteFile AzureFields) (script : Script).

Lemma azure_append_blocks_md5 (turns : nat) (start offset : Z)
    (h h' : AzureFields) (chunk : list byte) script script' :
  0 ≤ start → len chunk - start ≤ Z.of_nat turns →
  azure_append_blocks turns start offset h chunk script = (Ok tt, h', script') →
  _md5 h' = _md5 h ++ slice_from start chunk ∧ _url h' = _url h.
Proof.
  revert start h script. induction turns as [| turns IH];
    intros start h script Hstart Hturns; cbn [azure_append_blocks];
    destruct (start <? len chunk) eqn:Hlt.
  - apply Z.ltb_lt in Hlt. lia.
  - apply Z.ltb_ge in Hlt. intros [= <- <-].
    rewrite slice_from_beyond by done. by rewrite app_nil_r.
  - destruct (request script) as [[status | e] script1]; [| discriminate].
    destruct (assert ((status =? 201) || (status =? 412))); [| discriminate].
    destruct (request script1) as [[status' | e] script2]; [| discriminate].
    destruct (assert (status' =? 200)); [| discriminate].
    intros Hrest. apply IH in Hrest as [Hmd5 Hurl];
      [| unfold AZURE_MAX_CHUNK_SIZE; lia
       | unfold AZURE_MAX_CHUNK_SIZE; lia].
    cbn [_md5 _url] in Hmd5, Hurl. split; [| done].
    rewrite Hmd5, <- app_assoc. f_equal.
    replace (start + AZURE_MAX_CHUNK_SIZE - start) with AZURE_MAX_CHUNK_SIZE
      by lia.
    rewrite slice_from_add by (unfold AZURE_MAX_CHUNK_SIZE; lia).
    apply slice_to_from.
  - apply Z.ltb_ge in Hlt. intros [= <- <-].
    rewrite slice_from_beyond by done. by rewrite app_nil_r.
Qed.

Lemma slice_from_zero (b : list byte) : slice_from 0 b = b.
Proof. by destruct b. Qed.

Lemma azure_upload_chunk_md5 (offset : Z) (buf : list byte)
    (h h' : AzureFields) (chunk : list byte) (finalize : bool) script script' :
  azure_upload_chunk offset buf h chunk finalize script = (Ok tt, h', script') →
  _md5 h' = _md5 h ++ chunk ∧ _url h' = _url h.
Proof.
  unfold azure_upload_chunk. destruct (len chunk =? 0) eqn:Hlen.
  - intros [= <- <-]. apply Z.eqb_eq, len_zero_nil in Hlen. subst chunk.
    by rewrite app_nil_r.
  - intros Hrun. apply azure_append_blocks_md5 in Hrun; [| lia |].
    + by rewrite slice_from_zero in Hrun.
    + unfold len. lia.
Qed.

Lemma azure_upload_buf_md5 f (finalize : bool) script f' script'
    (data : list byte) :
  md5_then_buffer f data →
  _upload_buf f finalize script = (Ok tt, f', script') →
  md5_then_buffer f' data.
Proof.
  intros [Hdata Hoff]. unfold _upload_buf.
  destruct (upload_size f finalize) as [size | e]; [| discriminate].
  cbn [_offset _buf own _chunk_size closed].
  destruct (_upload_chunk (_offset f) (slice_from size (_buf f)) (own f)
              (slice_to size (_buf f)) finalize script)
    as [[[[] | e] h] script1] eqn:Hhook; [| discriminate].
  intros [= <- <-]. apply azure_upload_chunk_md5 in Hhook as [Hmd5 _].
  unfold md5_then_buffer. cbn [own _buf _offset].
  rewrite Hmd5, <- app_assoc, slice_to_from, len_app. split; [done | lia].
Qed.

Lemma azure_upload_loop_md5 (turns : nat) f script f' script'
    (data : list byte) :
  md5_then_buffer f data →
  upload_loop turns f script = Some (Ok tt, f', script') →
  md5_then_buffer f' data.
Proof.
  revert f script. induction turns as [| turns IH]; intros f script Hinv;
    cbn [upload_loop]; destruct (len (_buf f) >? _chunk_size f);
    try discriminate; try (by intros [= <- <-]).
  destruct (_upload_buf f false script) as [[[[] | e] f1] script1] eqn:Hbuf;
    [| discriminate].
  apply IH. by eapply azure_upload_buf_md5.
Qed.

Lemma azure_run_md5 (ops : list Op) f script f' script' (data : list byte) :
  md5_then_buffer f data →
  run f ops script = Some (Ok tt, f', script') →
  md5_then_buffer f' (data ++ written ops).
Proof.
  revert f script data. induction ops as [| [b |] ops IH];
    intros f script data Hinv; cbn [run written].
  - intros [= <- <-]. by rewrite app_nil_r.
  - destruct (write f b script) as [[[[n | e] f1] script1] |] eqn:Hw;
      try discriminate.
    intros Hrest. rewrite app_assoc. eapply IH; [| exact Hrest].
    clear Hrest IH. unfold write in Hw.
    destruct (upload_loop 2 _ script) as [[[[[] | e] f2] script2] |] eqn:Hloop;
      try discriminate.
    injection Hw as <- <- <-.
    eapply azure_upload_loop_md5; [| exact Hloop].
    destruct Hinv as [Hdata Hoff]. unfold md5_then_buffer.
    cbn [own _buf _offset]. by rewrite app_assoc, Hdata.
  - destruct (close f script) as [[[[] | e] f1] script1] eqn:Hc;
      [| discriminate].
    intros Hrest. eapply IH; [| exact Hrest]. clear Hrest IH.
    unfold close in Hc. destruct (closed f); [by injection Hc as <- <- |].
    destruct (_upload_buf f true script) as [[[[] | e] f2] script2] eqn:Hbuf;
      [| discriminate].
    injection Hc as <- <-.
    apply (azure_upload_buf_md5 _ _ _ _ _ _ Hinv) in Hbuf.
    destruct Hbuf as [Hdata Hoff]. by split.
Qed.

(** X10. On an Azure stream the running md5 has digested exactly the bytes
    uploaded, in the order written: after any operations that did not
    raise, the digested bytes followed by the pending buffer are the
    bytes written, and the offset is the number of bytes digested. *)
Theorem azure_md5_digests_uploaded (url : string) (ops : list Op) script
    f' script' :
  run (init {| _url := url; _md5 := [] |}) ops script
  = Some (Ok tt, f', script') →
  _md5 (own f') ++ _buf f' = written ops
  ∧ len (_md5 (own f')) = _offset f'.
Proof.
  intros Hrun. apply (azure_run_md5 ops _ _ _ _ []) in Hrun; [done |].
  done.
Qed.

End AzureMore.

Section WriterMoreExamples.
Import Writer.

Lemma close_flushes_once_witness :
  let f := mkWriteFile 0 three_bytes GOOGLE_CHUNK_SIZE false session in
  let f' := mkWriteFile 3 [] GOOGLE_CHUNK_SIZE true session in
  _buf f' = [] ∧ closed f' = true ∧ _offset f' = _offset f + len (_buf f)
  ∧ ∀ script2, close f' script2 = (Ok tt, f', script2).
Proof.
  intros f f'. apply (close_flushes_once f [200] f' []); reflexivity.
Defined.

Lemma writes_upload_whole_chunks_witness :
  let f' := mkWriteFile 6 [] 2 false tt in
  (2 | _offset f') ∧ len (_buf f') ≤ 2.
Proof.
  intros f'.
  apply (@writes_upload_whole_chunks unit two_byte_chunks tt
           [Write three_bytes; Write three_bytes] [200; 200] f' []).
  - reflexivity.
  - constructor; [discriminate | constructor; [discriminate | constructor]].
  - reflexivity.
Defined.

Lemma azure_md5_digests_uploaded_witness :
  let f' := mkWriteFile 3 [] AZURE_MAX_CHUNK_SIZE true
              {| _url := _url append_blob; _md5 := three_bytes |} in
  _md5 (own f') ++ _buf f' = written [Write three_bytes; Close]
  ∧ len (_md5 (own f')) = _offset f'.
Proof.
  intros f'.
  apply (azure_md5_digests_uploaded (_url append_blob)
           [Write three_bytes; Close] [201; 200] f' []).
  reflexivity.
Defined.

End WriterMoreExamples.

Section ReaderMore.
Import Reader.
Implicit Types (f : ReadFile) (script : list Attempt).

(** All the ways through one turn of the retry loop. *)
Ltac reader_turn a :=
  cbn [turns_from];
  repeat match goal with
    | |- context [match _f ?f with _ => _ end] =>
        let Hf := fresh "Hf" in destruct (_f f) as [[?next |] |] eqn:Hf
    | |- context [_get_file ?o (get a)] =>
        unfold _get_file; destruct (get a) as [?status | ?e]
    | |- context [if ?c then _ else _] =>
        let Hc := fresh "Hc" in destruct c eqn:Hc
    | |- context [match body_read a with _ => _ end] =>
        let Hr := fresh "Hr" in
        destruct (body_read a) as [?available | | |] eqn:Hr
    end;
  cbn [file outcome gets slept retry_after issued with_f
       _f _offset _size requests failures bytes_read].

Lemma turns_from_advances (attempt : nat) f (nb : Z) script :
  let r := turns_from attempt f nb script in
  match outcome r with
  | Returned n =>
      0 ≤ n ≤ Z.max 0 nb
      ∧ _offset (file r) = _offset f + n
      ∧ bytes_read (file r) = bytes_read f + n
  | _ => _offset (file r) = _offset f ∧ bytes_read (file r) = bytes_read f
  end.
Proof.
  revert attempt f. induction script as [| a script IH]; intros attempt f;
    [done |].
  cbn zeta. reader_turn a; try done;
    try (repeat split; lia);
    match goal with
    | |- context [turns_from (S attempt) ?g nb script] =>
        specialize (IH (S attempt) g); cbn zeta in IH;
        cbn [_offset bytes_read] in IH; exact IH
    end.
Qed.

(** X11. [readinto] moves the offset and the byte counter by the count it
    returns, which lies within the buffer; when it raises (or is still
    retrying) it has moved neither. *)
Theorem readinto_advances_by_count f (nb : Z) script :
  let r := readinto f nb script in
  match outcome r with
  | Returned n =>
      0 ≤ n ≤ Z.max 0 nb
      ∧ _offset (file r) = _offset f + n
      ∧ bytes_read (file r) = bytes_read f + n
  | _ => _offset (file r) = _offset f ∧ bytes_read (file r) = bytes_read f
  end.
Proof.
  unfold readinto. destruct (_size f =? _offset f).
  - cbn. lia.
  - apply turns_from_advances.
Qed.

Lemma turns_from_zero (attempt : nat) f (nb : Z) script :
  outcome (turns_from attempt f nb script) = Returned 0 →
  ∃ offset, (offset, Ok 416) ∈ gets (turns_from attempt f nb script).
Proof.
  revert attempt f. induction script as [| a script IH]; intros attempt f;
    [done |].
  reader_turn a; try done;
    try (intros Hzero; apply IH in Hzero as [offset Hin]; exists offset;
         rewrite ?elem_of_cons; by auto);
    try (intros [= Hzero]; rewrite Hzero in *; done).
  intros _. exists (_offset f). apply Z.eqb_eq in Hc. subst.
  apply list_elem_of_here.
Qed.

(** X12. [readinto] returns 0 only at the end of the file: when the offset has
    reached the size recorded at opening, or when a ranged GET of the
    call was answered 416.  A body that delivers nothing is never passed
    on as a 0. *)
Theorem readinto_zero_only_at_eof f (nb : Z) script :
  outcome (readinto f nb script) = Returned 0 →
  _size f = _offset f
  ∨ ∃ offset, (offset, Ok 416) ∈ gets (readinto f nb script).
Proof.
  unfold readinto. destruct (_size f =? _offset f) eqn:Heof.
  - left. by apply Z.eqb_eq.
  - right. by apply turns_from_zero.
Qed.

Lemma readinto_zero_only_at_eof_witness :
  let f := mkReadFile 10 4 None 0 0 4 in
  let script := [mkAttempt (Ok 416) (Delivers 6)] in
  _size f = _offset f
  ∨ ∃ offset, (offset, Ok 416) ∈ gets (readinto f 8 script).
Proof.
  intros f script. apply (readinto_zero_only_at_eof f 8 script). reflexivity.
Defined.



(** X14. A [seek] that returns reports the offset [tell] then gives, and
    leaves the size and the counters alone.  To the offset the stream is
    at already, it leaves the stream, its open body included, untouched;
    to any other, it drops the body, so that the next [readinto] short
    of the end of the file starts with a ranged GET at the new offset. *)
Theorem seek_moves_the_stream f (offset whence target : Z) :
  (seek f offset whence).1 = Ok target →
  let f' := (seek f offset whence).2 in
  tell f' = target
  ∧ _size f' = _size f ∧ requests f' = requests f
  ∧ failures f' = failures f ∧ bytes_read f' = bytes_read f
  ∧ (target = _offset f → f' = f)
  ∧ (target ≠ _offset f →
     _f f' = None
     ∧ ∀ nb a script, _size f ≠ target →
         ∃ rest, gets (readinto f' nb (a :: script)) = (target, get a) :: rest).
Proof.
  unfold seek, tell.
  assert (∀ new_offset,
            (if new_offset =? _offset f then (Ok (_offset f), f)
             else (Ok new_offset,
                   mkReadFile (_size f) new_offset None (requests f)
                     (failures f) (bytes_read f))).1 = Ok target →
            let f' := (if new_offset =? _offset f then (Ok (_offset f), f)
                       else (Ok new_offset,
                             mkReadFile (_size f) new_offset None (requests f)
                               (failures f) (bytes_read f))).2 in
            _offset f' = target
            ∧ _size f' = _size f ∧ requests f' = requests f
            ∧ failures f' = failures f ∧ bytes_read f' = bytes_read f
            ∧ (target = _offset f → f' = f)
            ∧ (target ≠ _offset f →
               _f f' = None
               ∧ ∀ nb a script, _size f ≠ target →
                   ∃ rest, gets (readinto f' nb (a :: script))
                           = (target, get a) :: rest)) as Hmoved.
  { intros new_offset. destruct (new_offset =? _offset f) eqn:Hsame.
    - cbn. intros [= <-]. repeat split; try done.
    - cbn. intros [= ->]. apply Z.eqb_neq in Hsame.
      repeat split; try done.
      intros nb a script Hsize. unfold readinto. cbn [_size _offset].
      rewrite (proj2 (Z.eqb_neq _ _) Hsize).
      cbn [turns_from _f]. unfold issued. cbn [gets _offset]. by eexists. }
  destruct (whence =? SEEK_SET); [apply Hmoved |].
  destruct (whence =? SEEK_CUR); [apply Hmoved |].
  destruct (whence =? SEEK_END); [apply Hmoved |]. done.
Qed.

Lemma seek_moves_the_stream_witness :
  let f := mkReadFile 10 4 (Some (HttpBody 4)) 1 0 4 in
  let f' := (seek f (-3) SEEK_END).2 in
  tell f' = 7
  ∧ _size f' = _size f ∧ requests f' = requests f
  ∧ failures f' = failures f ∧ bytes_read f' = bytes_read f
  ∧ (7 = _offset f → f' = f)
  ∧ (7 ≠ _offset f →
     _f f' = None
     ∧ ∀ nb a script, _size f ≠ 7 →
         ∃ rest, gets (readinto f' nb (a :: script)) = (7, get a) :: rest).
Proof.
  intros f. apply (seek_moves_the_stream f (-3) SEEK_END 7). reflexivity.
Defined.

End ReaderMore.

Section BlobMore.
Import Blob.
Implicit Types (w : World) (path : string).

(** **** Runs that read only *)

Lemma ret_reads_only {A : Type} (a : A) : reads_only (ret a).
Proof. intros w. split; [done | constructor]. Qed.

Lemma raise_reads_only {A : Type} (e : exn) : reads_only (raise (A:=A) e).
Proof. intros w. split; [done | constructor]. Qed.

Lemma bind_reads_only {A B : Type} (m : M A) (k : A → M B) :
  reads_only m → (∀ a, reads_only (k a)) → reads_only (bind m k).
Proof.
  intros Hm Hk w. unfold bind. destruct (Hm w) as [Hw Hl].
  destruct (m w) as [[[a | e] w1] l1]; cbn in Hw, Hl; subst w1; [| done].
  destruct (Hk a w) as [Hw2 Hl2].
  destruct (k a w) as [[r w2] l2]; cbn in Hw2, Hl2 |- *.
  split; [done |]. by apply Forall_app.
Qed.

Lemma assert_reads_only (cond : bool) : reads_only (Blob.assert cond).
Proof. destruct cond; [apply ret_reads_only | apply raise_reads_only]. Qed.

Lemma list_objects_reads_only (root prefix : string) :
  reads_only (list_objects root prefix).
Proof. intros w. split; [done |]. by repeat constructor. Qed.

Lemma isfile_reads_only (c : Cloud) path : reads_only (isfile c path).
Proof.
  unfold isfile. destruct (locate c path) as [root blob].
  destruct (String.eqb blob ""); [apply ret_reads_only |].
  apply bind_reads_only.
  { intros w. split; [done |]. by repeat constructor. }
  intros status. apply bind_reads_only; [apply assert_reads_only |].
  intros _. apply ret_reads_only.
Qed.

Lemma isdir_reads_only path : reads_only (isdir path).
Proof.
  unfold isdir. apply on_path_cases.
  - intros e. apply raise_reads_only.
  - intros w. split; [done | constructor].
  - intros c. destruct (locate c (with_slash path)) as [root blob].
    destruct (String.eqb blob "").
    + apply bind_reads_only.
      { intros w. split; [done |]. by repeat constructor. }
      intros status. apply ret_reads_only.
    + apply bind_reads_only; [apply list_objects_reads_only |].
      intros [pg |]; [apply ret_reads_only |].
      destruct c; [apply ret_reads_only | apply raise_reads_only].
Qed.

Lemma exists_reads_only path : reads_only (exists_ path).
Proof.
  unfold exists_. apply on_path_cases.
  - intros e. apply raise_reads_only.
  - intros w. split; [done | constructor].
  - intros c. apply bind_reads_only; [apply isfile_reads_only |].
    intros [|]; [apply ret_reads_only | apply isdir_reads_only].
Qed.

Lemma list_suffixes_reads_only path (exclude_prefix : bool) :
  reads_only (_list_suffixes path exclude_prefix).
Proof.
  unfold _list_suffixes.
  apply on_path_cases; [intros e; apply raise_reads_only
                       | apply raise_reads_only |].
  intros c. destruct (locate c path) as [root blob].
  apply bind_reads_only; [apply list_objects_reads_only |].
  intros [pg |]; [apply ret_reads_only |].
  destruct c; [apply ret_reads_only | apply raise_reads_only].
Qed.

Lemma listdir_reads_only path : reads_only (listdir path).
Proof.
  unfold listdir. apply bind_reads_only; [apply exists_reads_only |].
  intros found. destruct found; cbn [negb]; [| apply raise_reads_only].
  apply bind_reads_only; [apply isdir_reads_only |].
  intros is_dir. destruct is_dir; cbn [negb]; [| apply raise_reads_only].
  apply on_path_cases; [intros e; apply raise_reads_only | |].
  - apply bind_reads_only; [| intros names; apply ret_reads_only].
    intros w. split; [done | constructor].
  - intros _. apply list_suffixes_reads_only.
Qed.

(** X15. [exists], [isdir] and [listdir] only look: whatever the path and
    whatever they return or raise, the buckets, containers, objects and
    local files are as before, and every request they made is a GET of
    an object's or a container's metadata or a listing. *)
Theorem lookups_read_only path :
  reads_only (exists_ path) ∧ reads_only (isdir path)
  ∧ reads_only (listdir path).
Proof.
  split; [apply exists_reads_only |].
  split; [apply isdir_reads_only | apply listdir_reads_only].
Qed.

(** **** The trailing slash *)

Lemma length_append (s t : string) :
  String.length (s +:+ t) = (String.length s + String.length t)%nat.
Proof.
  induction s as [| a s IH]; [done |].
  change (String a s +:+ t) with (String a (s +:+ t)). cbn. by rewrite IH.
Qed.

Lemma substring_append (s t : string) :
  substring 0 (String.length s) (s +:+ t) = s.
Proof.
  induction s as [| a s IH]; [apply substring_none |].
  change (String a s +:+ t) with (String a (s +:+ t)). cbn. by rewrite IH.
Qed.

(** X16. [_strip_slash] undoes the [path += "/"] with which the directory
    functions start: the slash added is the one taken off, whatever the
    path, one that ends in slashes already included. *)
Theorem strip_slash_of_added_slash path : _strip_slash (path +:+ "/") = path.
Proof.
  unfold _strip_slash. rewrite endswith_app, length_append. cbn [String.length].
  replace (String.length path + 1 - 1)%nat with (String.length path) by lia.
  apply substring_append.
Qed.

Lemma isdir_with_slash (c : Cloud) path :
  cloud_of path = Some c → isdir (with_slash path) = isdir path.
Proof.
  intros Hcloud. unfold isdir.
  rewrite (on_path_remote (with_slash path) c)
    by (by apply cloud_of_with_slash).
  rewrite (on_path_remote path c) by done. by rewrite with_slash_idem.
Qed.

(** X17. On a remote path the directory functions take the path with or
    without its trailing slash: [isdir], [listdir], [rmdir], [makedirs]
    and [rmtree] do the same, request by request, on [path] and on
    [path] with a slash added. *)
Theorem directory_functions_add_the_slash (c : Cloud) path :
  cloud_of path = Some c →
  isdir (with_slash path) = isdir path
  ∧ listdir (with_slash path) = listdir path
  ∧ rmdir (with_slash path) = rmdir path
  ∧ makedirs (with_slash path) = makedirs path
  ∧ rmtree (with_slash path) = rmtree path.
Proof.
  intros Hcloud.
  pose proof (cloud_of_with_slash path c Hcloud) as Hcloud'.
  split; [by apply (isdir_with_slash c) |].
  split; [unfold listdir; by rewrite with_slash_idem |].
  split.
  { unfold rmdir.
    rewrite (cloud_of_not_local _ c Hcloud), (cloud_of_not_local _ c Hcloud').
    by rewrite with_slash_idem. }
  split.
  { unfold makedirs.
    rewrite (on_path_remote (with_slash path) c) by done.
    rewrite (on_path_remote path c) by done. by rewrite with_slash_idem. }
  unfold rmtree. rewrite (isdir_with_slash c path Hcloud).
  rewrite (on_path_remote (with_slash path) c) by done.
  rewrite (on_path_remote path c) by done. by rewrite with_slash_idem.
Qed.

(** **** Splitting a path *)

Lemma substring_all (s : string) : substring 0 (String.length s) s = s.
Proof. induction s as [| a s IH]; [done |]. cbn. by rewrite IH. Qed.

Lemma str_from_append (p rest : string) :
  str_from (String.length p) (p +:+ rest) = rest.
Proof.
  unfold str_from. induction p as [| a p IH].
  - change ("" +:+ rest) with rest. cbn [String.length].
    rewrite Nat.sub_0_r. apply substring_all.
  - change (String a p +:+ rest) with (String a (p +:+ rest)). cbn. apply IH.
Qed.

Lemma endswith_append_inv (p rest : string) :
  endswith (p +:+ rest) "/" = true → rest = "" ∨ endswith rest "/" = true.
Proof.
  induction p as [| a p IH]; [by right |].
  change (String a p +:+ rest) with (String a (p +:+ rest)).
  rewrite endswith_cons.
  destruct (String.eqb (String a (p +:+ rest)) "/") eqn:Heq; [| done].
  intros _. apply String.eqb_eq in Heq. injection Heq as _ Heq.
  left. by destruct p, rest.
Qed.

Lemma partition_after (sep : ascii) (s before after : string) :
  partition sep s = (before, after) →
  s = "" ∨ endswith s "/" = true →
  after = "" ∨ endswith after "/" = true.
Proof.
  revert before. induction s as [| a s IH]; intros before Hpart Hs.
  - injection Hpart as _ <-. by left.
  - destruct Hs as [| Hs]; [done |].
    apply (endswith_append_inv (String a "") s) in Hs.
    cbn [partition] in Hpart. destruct (Ascii.eqb a sep).
    + by injection Hpart as _ <-.
    + destruct (partition sep s) as [b' a'] eqn:Hrest.
      injection Hpart as _ <-. by apply (IH b').
Qed.

Lemma str_from_directory (n : nat) (s : string) :
  endswith s "/" = true →
  str_from n s = ""%string ∨ endswith (str_from n s) "/" = true.
Proof.
  revert s. induction n as [| n IH]; intros s Hslash.
  - right. unfold str_from. by rewrite Nat.sub_0_r, substring_all.
  - destruct s as [| a s]; [by left |].
    change (str_from (S n) (String a s)) with (str_from n s).
    apply (endswith_append_inv (String a "") s) in Hslash as [-> | Hslash].
    + left. by destruct n.
    + by apply IH.
Qed.

(** The blob of a path that ends in a slash is empty or ends in a slash. *)
Lemma locate_directory (c : Cloud) path (root blob : string) :
  endswith path "/" = true →
  locate c path = (root, blob) →
  blob = "" ∨ endswith blob "/" = true.
Proof.
  intros Hslash Hlocate.
  apply (str_from_directory 5) in Hslash.
  destruct (partition "/" (str_from 5 path)) as [before after] eqn:Hpart.
  assert (blob = after) as ->.
  { destruct c; cbn [locate] in Hlocate.
    - unfold google_split_url in Hlocate. rewrite Hpart in Hlocate.
      by injection Hlocate as _ <-.
    - unfold azure_split_url in Hlocate. rewrite Hpart in Hlocate.
      destruct (partition "-" before) as [account container].
      by injection Hlocate as _ <-. }
  by apply (partition_after "/" (str_from 5 path) before).
Qed.

(** **** [remove] *)

(** X18. [remove] refuses what it takes for a directory before it asks the
    store: on a remote path that ends in a slash, or that names the
    bucket or container itself, it raises [IsADirectoryError], makes no
    request and changes nothing (the marker object of a directory made
    by [makedirs] is such a path: it is left to [rmdir]). *)
Theorem remove_refuses_directories (c : Cloud) path w :
  cloud_of path = Some c →
  endswith path "/" = true ∨ (locate c path).2 = ""%string →
  remove path w = (Raises IsADirectoryError, w, []).
Proof.
  intros Hcloud Hdir. unfold remove. rewrite (on_path_remote path c) by done.
  destruct (locate c path) as [root blob] eqn:Hlocate. cbn [snd] in Hdir.
  assert (blob = "" ∨ endswith blob "/" = true) as [-> | Hblob].
  { destruct Hdir as [Hslash | ->]; [| by left].
    by apply (locate_directory c path root). }
  - done.
  - rewrite Hblob, orb_true_r. done.
Qed.

Lemma object_at_deleted w (root blob : string) :
  object_at
    (mkWorld (roots w) (delete (root, blob) (blobs w)) (files w) (dirs w))
    root blob = None.
Proof.
  unfold object_at. cbn [roots blobs].
  destruct (decide (root ∈ roots w)); [apply lookup_delete_eq | done].
Qed.

Lemma remove_run (c : Cloud) path (root blob : string) w :
  cloud_of path = Some c → locate c path = (root, blob) →
  blob ≠ "" → endswith blob "/" = false →
  remove path w
  = match object_at w root blob with
    | Some _ =>
        (Ok tt,
         mkWorld (roots w) (delete (root, blob) (blobs w)) (files w) (dirs w),
         [DeleteObject root blob])
    | None => (Raises FileNotFoundError, w, [DeleteObject root blob])
    end.
Proof.
  intros Hcloud Hlocate Hblob Hslash. unfold remove.
  rewrite (on_path_remote path c) by done.
  rewrite Hlocate, (blob_eqb blob Hblob), Hslash. cbn [orb].
  unfold bind, delete_object.
  destruct (object_at w root blob); destruct c; done.
Qed.

(** X19. [remove] of a remote object takes one DELETE: when the object is
    there it goes, and nothing else of the world changes, after which it
    is no file any more and a second [remove] raises
    [FileNotFoundError]; when it is not there, [FileNotFoundError] is
    raised and the world is as before. *)
Theorem remove_deletes_the_object (c : Cloud) path (root blob : string) w :
  cloud_of path = Some c → locate c path = (root, blob) →
  blob ≠ "" → endswith blob "/" = false →
  (is_Some (object_at w root blob) →
   let first := remove path w in
   outcome first = Ok tt
   ∧ world first
     = mkWorld (roots w) (delete (root, blob) (blobs w)) (files w) (dirs w)
   ∧ requests first = [DeleteObject root blob]
   ∧ outcome (isfile c path (world first)) = Ok false
   ∧ outcome (remove path (world first)) = Raises FileNotFoundError)
  ∧ (object_at w root blob = None →
     remove path w = (Raises FileNotFoundError, w, [DeleteObject root blob])).
Proof.
  intros Hcloud Hlocate Hblob Hslash. split.
  - intros [content Hcontent] first. unfold first.
    rewrite (remove_run c path root blob w) by done. rewrite Hcontent.
    cbn [outcome world requests fst snd].
    split; [done |]. split; [done |]. split; [done |].
    rewrite (isfile_run c path root blob Hlocate Hblob).
    rewrite (remove_run c path root blob) by done.
    by rewrite object_at_deleted.
  - intros Hnone. rewrite (remove_run c path root blob w) by done.
    by rewrite Hnone.
Qed.

(** **** [makedirs] *)

Lemma prefix_refl (s : string) : String.prefix s s = true.
Proof.
  induction s as [| a s IH]; [done |]. cbn.
  by destruct (ascii_dec a a).
Qed.

(** A directory with an object below it is shown by [isdir]. *)
Lemma isdir_of_shown (c : Cloud) path (root blob name : string) w :
  cloud_of path = Some c → locate c (with_slash path) = (root, blob) →
  blob ≠ "" → root ∈ roots w →
  is_Some (blobs w !! (root, name)) → String.prefix blob name = true →
  (negb (bool_decide (items (page_of blob (names_under w root blob)) = []))
   || negb (bool_decide
              (prefixes (page_of blob (names_under w root blob)) = [])))
  = true
  ∧ isdir path w = (Ok true, w, [ListObjects root blob]).
Proof.
  intros Hcloud Hlocate Hblob Hroot Hsome Hp.
  assert (name ∈ names_under w root blob) as Hname.
  { by apply elem_of_names_under. }
  assert ((negb (bool_decide
                   (items (page_of blob (names_under w root blob)) = []))
           || negb (bool_decide
                      (prefixes (page_of blob (names_under w root blob)) = [])))
          = true) as Hshown.
  { destruct (page_shows blob _ _ Hname) as [Hi | [p Hpre]].
    - rewrite (bool_decide_eq_false_2 (items _ = [])); [done |].
      intros Hnil. rewrite Hnil in Hi. by apply elem_of_nil in Hi.
    - rewrite (bool_decide_eq_false_2 (prefixes _ = [])); [apply orb_true_r |].
      intros Hnil. rewrite Hnil in Hpre. by apply elem_of_nil in Hpre. }
  split; [done |].
  rewrite <- (isdir_with_slash c path Hcloud).
  rewrite (isdir_run c (with_slash path) root blob
             (cloud_of_with_slash path c Hcloud) (endswith_with_slash path)
             Hlocate Hblob w Hroot).
  by rewrite Hshown.
Qed.

Lemma isfile_returns (c : Cloud) path w :
  ∃ found l, isfile c path w = (Ok found, w, l).
Proof.
  unfold isfile. destruct (locate c path) as [root blob].
  destruct (String.eqb blob ""); [by eexists _, _ |].
  unfold bind, get_object. destruct (object_at w root blob); by eexists _, _.
Qed.

Lemma makedirs_run (c : Cloud) path (root blob : string) w :
  cloud_of path = Some c → locate c (with_slash path) = (root, blob) →
  blob ≠ "" →
  makedirs path w
  = if decide (root ∈ roots w) then
      (Ok tt,
       mkWorld (roots w) (<[(root, blob) := []]> (blobs w)) (files w) (dirs w),
       [Upload root blob])
    else (Raises AssertionError, w, [Upload root blob]).
Proof.
  intros Hcloud Hlocate Hblob. unfold makedirs.
  rewrite (on_path_remote path c) by done. rewrite Hlocate.
  unfold bind, put_empty_object. rewrite (blob_eqb blob Hblob).
  destruct (decide (root ∈ roots w)); destruct c; done.
Qed.

(** X20. [makedirs] of a remote path below a bucket or container that is
    there takes one upload, of an empty object named by the path with
    its slash; nothing else changes, and [isdir] and [exists] hold of
    the path afterwards.  Without the bucket or container the upload is
    refused and the assertion on its status fails. *)
Theorem makedirs_makes_a_directory (c : Cloud) path (root blob : string) w :
  cloud_of path = Some c → locate c (with_slash path) = (root, blob) →
  blob ≠ "" →
  (root ∈ roots w →
   let r := makedirs path w in
   outcome r = Ok tt
   ∧ world r
     = mkWorld (roots w) (<[(root, blob) := []]> (blobs w)) (files w) (dirs w)
   ∧ requests r = [Upload root blob]
   ∧ outcome (isdir path (world r)) = Ok true
   ∧ outcome (exists_ path (world r)) = Ok true)
  ∧ (root ∉ roots w →
     makedirs path w = (Raises AssertionError, w, [Upload root blob])).
Proof.
  intros Hcloud Hlocate Hblob.
  rewrite (makedirs_run c path root blob w) by done. split.
  - intros Hroot r. unfold r. rewrite decide_True by done.
    cbn [outcome world requests fst snd].
    split; [done |]. split; [done |]. split; [done |].
    set (w' := mkWorld _ _ _ _).
    destruct (isdir_of_shown c path root blob blob w') as [_ Hisdir];
      try done.
    { cbn. rewrite lookup_insert_eq. by eexists. }
    { apply prefix_refl. }
    split; [by rewrite Hisdir |].
    unfold exists_. rewrite (on_path_remote path c) by done. unfold bind.
    destruct (isfile_returns c path w') as (found & l & ->).
    destruct found; [done |]. by rewrite Hisdir.
  - intros Hroot. by rewrite decide_False.
Qed.

(** X21. [makedirs] and [rmdir] undo each other on a fresh remote path: where
    no object lies at or below the path, the directory [makedirs] makes
    lists as empty, [rmdir] removes it, and the world is again the one
    before [makedirs]. *)
Theorem makedirs_then_rmdir (c : Cloud) path (root blob : string) w :
  cloud_of path = Some c → locate c (with_slash path) = (root, blob) →
  blob ≠ "" → root ∈ roots w →
  (∀ name, is_Some (blobs w !! (root, name)) →
           String.prefix blob name = false) →
  let made := world (makedirs path w) in
  outcome (listdir path made) = Ok []
  ∧ outcome (rmdir path made) = Ok tt
  ∧ world (rmdir path made) = w.
Proof.
  intros Hcloud Hlocate Hblob Hroot Hfresh made. unfold made.
  rewrite (makedirs_run c path root blob w) by done.
  rewrite decide_True by done. cbn [world fst snd].
  set (w' := mkWorld _ _ _ _).
  assert (blobs w !! (root, blob) = None) as Hnone.
  { destruct (blobs w !! (root, blob)) eqn:Hb; [| done].
    assert (String.prefix blob blob = false) as Hp by (apply Hfresh; eauto).
    by rewrite prefix_refl in Hp. }
  assert (dir_is_empty w' root blob) as Hempty.
  { split; [done |]. split.
    - cbn. rewrite lookup_insert_eq. by eexists.
    - intros name Hsome Hp. cbn in Hsome.
      destruct (decide (name = blob)) as [| Hne]; [done |].
      rewrite lookup_insert_ne in Hsome by congruence.
      by rewrite (Hfresh name Hsome) in Hp. }
  split.
  - destruct (empty_dir_names c root blob w' Hempty) as [Hmarker Hnames].
    destruct (listdir_run c (with_slash path) root blob w') as [l Hlist];
      try done.
    { by apply cloud_of_with_slash. }
    { apply endswith_with_slash. }
    { rewrite (bool_decide_eq_false_2 (items _ = [])); [done |].
      intros Hnil. rewrite Hnil in Hmarker. by apply elem_of_nil in Hmarker. }
    assert (listdir path = listdir (with_slash path)) as ->.
    { unfold listdir. by rewrite with_slash_idem. }
    by rewrite Hlist, Hnames.
  - destruct (rmdir_of_empty c path root blob w') as [l ->]; try done.
    subst w'. cbn [outcome world fst snd roots blobs files dirs].
    split; [done |]. rewrite delete_insert_id by done. by destruct w.
Qed.

(** **** [rmdir] of what is not there *)

(** X22. [rmdir] of a remote directory that does not exist (nothing lies at
    or below the path) returns without error; it only looked: the world
    is as before, and no DELETE was sent. *)
Theorem rmdir_of_missing_directory (c : Cloud) path (root blob : string) w :
  cloud_of path = Some c → locate c (with_slash path) = (root, blob) →
  blob ≠ "" → root ∈ roots w →
  (∀ name, is_Some (blobs w !! (root, name)) →
           String.prefix blob name = false) →
  outcome (rmdir path w) = Ok tt
  ∧ world (rmdir path w) = w
  ∧ Forall (λ q, is_read q = true) (requests (rmdir path w)).
Proof.
  intros Hcloud Hlocate Hblob Hroot Hnone.
  destruct (listdir_of_missing c (with_slash path) root blob w)
    as (l & _ & Hlist); try done.
  { by apply cloud_of_with_slash. }
  { apply endswith_with_slash. }
  destruct (listdir_reads_only (with_slash path) w) as [_ Hreads].
  rewrite (rmdir_remote c path root blob w) by done.
  rewrite Hlist in Hreads |- *. done.
Qed.

(** **** [rmtree] *)

Lemma delete_each_run (deleted : Z) (root : string) (names : list string) w :
  root ∈ roots w →
  ∃ l,
    delete_each deleted root names w
    = (Ok tt,
       mkWorld (roots w)
         (foldl (λ m name, delete (root, name) m) (blobs w) names)
         (files w) (dirs w),
       l).
Proof.
  revert w. induction names as [| name names IH]; intros w Hroot.
  - exists []. cbn. by destruct w.
  - cbn [delete_each foldl]. unfold bind at 1. unfold delete_object, object_at.
    rewrite decide_True by done.
    destruct (blobs w !! (root, name)) as [content |] eqn:Hb.
    + unfold bind at 1. rewrite Z.eqb_refl. cbn [orb Blob.assert ret].
      destruct (IH (mkWorld (roots w) (delete (root, name) (blobs w))
                      (files w) (dirs w)) Hroot) as [l ->].
      by eexists.
    + rewrite delete_id by done.
      unfold bind at 1. cbn [Z.eqb]. rewrite orb_true_r.
      cbn [Blob.assert ret].
      destruct (IH w Hroot) as [l ->]. by eexists.
Qed.

Lemma lookup_foldl_delete (root : string) (names : list string)
    (m : gmap (string * string) (list byte)) (key : string * string) :
  foldl (λ m name, delete (root, name) m) m names !! key
  = if bool_decide (key.1 = root ∧ key.2 ∈ names) then None else m !! key.
Proof.
  revert m. induction names as [| name names IH]; intros m.
  - cbn. rewrite bool_decide_eq_false_2; [done |].
    intros [_ Hin]. by apply elem_of_nil in Hin.
  - cbn [foldl]. rewrite IH. destruct key as [r n]. cbn [fst snd].
    destruct (decide (r = root ∧ n ∈ names)) as [[-> Hin] | Hnot].
    + rewrite !bool_decide_eq_true_2; [done | | done].
      split; [done | by apply list_elem_of_further].
    + rewrite (bool_decide_eq_false_2 _ Hnot).
      destruct (decide ((root, name) = (r, n))) as [[= <- <-] | Hne].
      * rewrite lookup_delete_eq, bool_decide_eq_true_2; [done |].
        split; [done | apply list_elem_of_here].
      * rewrite lookup_delete_ne by done.
        rewrite bool_decide_eq_false_2; [done |].
        intros [-> [-> | Hin]%elem_of_cons]; [done |]. by apply Hnot.
Qed.

Lemma rmtree_remote (c : Cloud) path (root blob : string) w :
  cloud_of path = Some c → locate c (with_slash path) = (root, blob) →
  root ∈ roots w →
  outcome (isdir path w) = Ok true →
  ∃ l,
    rmtree path w
    = (Ok tt,
       mkWorld (roots w)
         (foldl (λ m name, delete (root, name) m) (blobs w)
            (filter (λ name, name ≠ ""%string) (names_under w root blob)))
         (files w) (dirs w),
       l).
Proof.
  intros Hcloud Hlocate Hroot Hisdir. unfold rmtree. unfold bind at 1.
  destruct (isdir_reads_only path w) as [Hw _].
  destruct (isdir path w) as [[[is_dir | e] w1] l1];
    cbn in Hisdir, Hw; [| done].
  injection Hisdir as ->. subst w1. cbn [negb].
  rewrite (on_path_remote path c) by done.
  rewrite Hlocate. unfold bind, list_all_objects.
  rewrite decide_True by done.
  assert (get_names c {| prefixes := []; items := names_under w root blob |} ""
          = filter (λ name, name ≠ ""%string) (names_under w root blob))
    as ->.
  { unfold get_names. cbn [items prefixes]. destruct c; [done |].
    apply app_nil_r. }
  destruct (delete_each_run (match c with Google => 204 | Azure => 202 end)
              root (filter (λ name, name ≠ ""%string)
                      (names_under w root blob)) w Hroot) as [l ->].
  by eexists.
Qed.

(** X23. [rmtree] of a remote directory (some object lies at or below the
    path with its slash) deletes every object whose name starts with
    that path, the marker of the directory included, and nothing else:
    other objects, buckets, containers and local files are as before,
    and the path does not exist afterwards.  Where nothing lies at or
    below the path, [rmtree] raises [NotADirectoryError] and changes
    nothing. *)
Theorem rmtree_clears_the_directory (c : Cloud) path (root blob : string) w :
  cloud_of path = Some c → locate c (with_slash path) = (root, blob) →
  blob ≠ "" → root ∈ roots w →
  ((∃ name, is_Some (blobs w !! (root, name))
            ∧ String.prefix blob name = true) →
   let r := rmtree path w in
   outcome r = Ok tt
   ∧ (∀ r' name,
        blobs (world r) !! (r', name)
        = if bool_decide (r' = root) && String.prefix blob name
          then None else blobs w !! (r', name))
   ∧ roots (world r) = roots w ∧ files (world r) = files w
   ∧ dirs (world r) = dirs w
   ∧ outcome (exists_ (with_slash path) (world r)) = Ok false)
  ∧ ((∀ name, is_Some (blobs w !! (root, name)) →
              String.prefix blob name = false) →
     outcome (rmtree path w) = Raises NotADirectoryError
     ∧ world (rmtree path w) = w).
Proof.
  intros Hcloud Hlocate Hblob Hroot. split.
  - intros (shown & Hsome & Hp) r.
    destruct (isdir_of_shown c path root blob shown w) as [_ Hisdir];
      try done.
    destruct (rmtree_remote c path root blob w) as [l Hrun]; try done.
    { by rewrite Hisdir. }
    unfold r. rewrite Hrun. cbn [outcome world fst snd roots blobs files dirs].
    assert (∀ r' name,
              foldl (λ m name, delete (root, name) m) (blobs w)
                (filter (λ name, name ≠ ""%string) (names_under w root blob))
              !! (r', name)
              = if bool_decide (r' = root) && String.prefix blob name
                then None else blobs w !! (r', name)) as Hlookup.
    { intros r' name. rewrite lookup_foldl_delete. cbn [fst snd].
      destruct (decide (r' = root)) as [-> | Hne].
      - rewrite (bool_decide_eq_true_2 (root = root)) by done. cbn [andb].
        destruct (String.prefix blob name) eqn:Hpre.
        + destruct (blobs w !! (root, name)) as [content |] eqn:Hb;
            [| by destruct (bool_decide _)].
          rewrite bool_decide_eq_true_2; [done |]. split; [done |].
          apply list_elem_of_filter. split.
          * intros ->. by destruct blob.
          * apply elem_of_names_under. eauto.
        + rewrite bool_decide_eq_false_2; [done |].
          intros [_ [_ Hin]%list_elem_of_filter].
          apply elem_of_names_under in Hin as [_ Hin]. congruence.
      - rewrite (bool_decide_eq_false_2 (r' = root)) by done. cbn [andb].
        rewrite bool_decide_eq_false_2; [done |]. by intros [? _]. }
    split; [done |]. split; [done |].
    split; [done |]. split; [done |]. split; [done |].
    destruct (listdir_of_missing c (with_slash path) root blob
                (mkWorld (roots w)
                   (foldl (λ m name, delete (root, name) m) (blobs w)
                      (filter (λ name, name ≠ ""%string)
                         (names_under w root blob)))
                   (files w) (dirs w)))
      as (l' & Hgone & _); try done.
    { by apply cloud_of_with_slash. }
    { apply endswith_with_slash. }
    cbn [blobs]. intros name [content Hcontent].
    rewrite Hlookup, bool_decide_eq_true_2 in Hcontent by done.
    cbn [andb] in Hcontent. by destruct (String.prefix blob name).
  - intros Hnone.
    assert (isdir path w = (Ok false, w, [ListObjects root blob])) as Hisdir.
    { rewrite <- (isdir_with_slash c path Hcloud).
      rewrite (isdir_run c (with_slash path) root blob
                 (cloud_of_with_slash path c Hcloud) (endswith_with_slash path)
                 Hlocate Hblob w Hroot).
      assert (names_under w root blob = []) as ->; [| done].
      apply elem_of_nil_inv. intros name [Hsome Hp]%elem_of_names_under.
      by rewrite (Hnone name Hsome) in Hp. }
    unfold rmtree, bind. by rewrite Hisdir.
Qed.

(** **** What is there *)

Lemma shown_iff w (root dir : string) :
  (negb (bool_decide (items (page_of dir (names_under w root dir)) = []))
   || negb (bool_decide
              (prefixes (page_of dir (names_under w root dir)) = [])))
  = true
  ↔ ∃ name, is_Some (blobs w !! (root, name))
            ∧ String.prefix dir name = true.
Proof.
  split.
  - intros Hshown.
    destruct (names_under w root dir) as [| name names] eqn:Hnames;
      [done |].
    exists name. apply elem_of_names_under. rewrite Hnames.
    apply list_elem_of_here.
  - intros (name & Hsome & Hp).
    assert (name ∈ names_under w root dir) as Hname.
    { by apply elem_of_names_under. }
    destruct (page_shows dir _ _ Hname) as [Hi | [p Hpre]].
    + rewrite (bool_decide_eq_false_2 (items _ = [])); [done |].
      intros Hnil. rewrite Hnil in Hi. by apply elem_of_nil in Hi.
    + rewrite (bool_decide_eq_false_2 (prefixes _ = [])); [apply orb_true_r |].
      intros Hnil. rewrite Hnil in Hpre. by apply elem_of_nil in Hpre.
Qed.

(** X26. What [isdir] and [exists] answer on a remote path below a
    bucket or container that is there: both return, [isdir] with true
    exactly when some object has the path with its slash as a prefix of
    its name, [exists] with true exactly when the path names an object
    or [isdir] is true of it. *)
Theorem exists_is_file_or_directory (c : Cloud) path (root blob dir : string)
    w :
  cloud_of path = Some c → locate c path = (root, blob) → blob ≠ "" →
  locate c (with_slash path) = (root, dir) → dir ≠ "" → root ∈ roots w →
  ∃ is_dir found,
    outcome (isdir path w) = Ok is_dir
    ∧ outcome (exists_ path w) = Ok found
    ∧ (is_dir = true
       ↔ ∃ name, is_Some (blobs w !! (root, name))
                 ∧ String.prefix dir name = true)
    ∧ (found = true ↔ is_Some (blobs w !! (root, blob)) ∨ is_dir = true).
Proof.
  intros Hcloud Hlocate Hblob Hdir Hne Hroot.
  pose proof (isdir_run c (with_slash path) root dir
                (cloud_of_with_slash path c Hcloud) (endswith_with_slash path)
                Hdir Hne w Hroot) as Hisdir.
  rewrite (isdir_with_slash c path Hcloud) in Hisdir.
  set (shown := negb _ || negb _) in Hisdir.
  assert (object_at w root blob = blobs w !! (root, blob)) as Hobject.
  { unfold object_at. by rewrite decide_True. }
  exists shown, (bool_decide (is_Some (blobs w !! (root, blob))) || shown).
  split; [by rewrite Hisdir |]. split; [| split].
  - unfold exists_. rewrite (on_path_remote path c) by done. unfold bind.
    rewrite (isfile_run c path root blob Hlocate Hblob), Hobject.
    destruct (bool_decide (is_Some (blobs w !! (root, blob)))); [done |].
    by rewrite Hisdir.
  - apply shown_iff.
  - rewrite orb_true_iff, bool_decide_eq_true. done.
Qed.

(** **** [copy] from a source that is not there *)

Lemma tests_return (dst : string) (local : bool) :
  _is_local_path dst = Ok local →
  ∃ google azure,
    _is_google_path dst = Ok google ∧ _is_azure_path dst = Ok azure.
Proof.
  unfold _is_local_path, _is_google_path, _is_azure_path.
  destruct (urlparse dst) as [url | e]; [| done]. by eexists _, _.
Qed.

Lemma guard_passes (dst : string) (overwrite : bool) w :
  overwrite = true ∨ outcome (exists_ dst w) = Ok false →
  ∃ l,
    (if negb overwrite then
       let! found := exists_ dst in
       if found : bool then raise FileExistsError else ret tt
     else ret tt) w = (Ok tt, w, l).
Proof.
  intros [-> | Hexists]; [by eexists |].
  destruct overwrite; [by eexists |]. cbn [negb]. unfold bind.
  destruct (exists_reads_only dst w) as [Hw _].
  destruct (exists_ dst w) as [[[found | e] w1] l1];
    cbn in Hexists, Hw; [| done].
  injection Hexists as ->. subst w1. by eexists.
Qed.

Lemma BlobFile_read_missing (c : Cloud) (src : string) w :
  cloud_of src = Some c → endswith src "/" = false →
  object_at w (locate c src).1 (locate c src).2 = None →
  ∃ l, BlobFile src "rb" w = (Raises FileNotFoundError, w, l).
Proof.
  intros Hcloud Hslash Hmissing. unfold BlobFile. rewrite Hslash. cbn [negb].
  unfold bind at 1. cbn [Blob.assert ret].
  unfold bind at 1.
  change (bool_decide ("rb"%string ∈ ["w"; "wb"; "r"; "rb"]%string))
    with true.
  change (bool_decide ("rb"%string ∈ ["w"; "wb"]%string)) with false.
  cbn [Blob.assert ret]. rewrite (on_path_remote src c) by done.
  unfold open_read, isfile, bind.
  destruct (locate c src) as [root blob]. cbn [fst snd] in Hmissing.
  destruct (String.eqb blob ""); [by eexists |].
  unfold get_object. rewrite Hmissing. by eexists.
Qed.

Lemma google_rewrite_missing (server : Server) (turns : nat)
    (src dst : string) (return_md5 : bool) w :
  object_at w (locate Google src).1 (locate Google src).2 = None →
  ∃ l,
    google_rewrite server (S turns) src dst return_md5 w
    = (Raises FileNotFoundError, w, l).
Proof.
  intros Hmissing. cbn [google_rewrite]. unfold bind, rewrite_object.
  destruct (locate Google src) as [src_root src_name].
  destruct (locate Google dst) as [dst_root dst_name].
  cbn [fst snd] in Hmissing. rewrite Hmissing. by eexists.
Qed.

Lemma copy_blob_missing (server : Server) (src dst : string) w :
  object_at w (locate Azure src).1 (locate Azure src).2 = None →
  ∃ l, copy_blob server src dst w = (Ok (404, None), w, l).
Proof.
  intros Hmissing. unfold copy_blob.
  destruct (locate Azure src) as [src_root src_name].
  destruct (locate Azure dst) as [dst_root dst_name].
  cbn [fst snd] in Hmissing. rewrite Hmissing. by eexists.
Qed.

(** X24. A [copy] from a [gs://] or [as://] source that is not there
    raises [FileNotFoundError] and leaves the destination alone: whether
    the copy would run on the server (both paths on GCS, both on Azure)
    or through two streams, the source is asked for before anything is
    written, so the world, the destination with it, is as before.  (The
    source does not end in a slash, the tests of the destination
    return, and the existence check on the destination, when
    [overwrite] is false, has let the copy pass.) *)
Theorem copy_of_missing_source (server : Server) (turns : nat) (c : Cloud)
    (src dst : string) (overwrite return_md5 : bool) w :
  cloud_of src = Some c → endswith src "/" = false →
  object_at w (locate c src).1 (locate c src).2 = None →
  (∃ local, _is_local_path dst = Ok local) →
  overwrite = true ∨ outcome (exists_ dst w) = Ok false →
  let r := copy server (S turns) src dst overwrite return_md5 w in
  outcome r = Raises FileNotFoundError ∧ world r = w.
Proof.
  intros Hcloud Hslash Hmissing [local Hdst] Hpass r.
  assert (∃ l, copy server (S turns) src dst overwrite return_md5 w
               = (Raises FileNotFoundError, w, l)) as [l Hrun];
    [| unfold r; by rewrite Hrun].
  clear r. unfold copy.
  destruct (guard_passes dst overwrite w Hpass) as [l0 Hguard].
  unfold bind at 1. rewrite Hguard.
  destruct (BlobFile_read_missing c src w Hcloud Hslash Hmissing)
    as [l1 Hopen].
  destruct (cloud_of_tests src c Hcloud) as (Hgs & Has & _).
  destruct (tests_return dst local Hdst) as (google & azure & Hgd & Had).
  rewrite Hgs, Has, Hgd, Had.
  destruct c; cbn [test].
  - destruct google.
    + destruct (google_rewrite_missing server turns src dst return_md5 w
                  Hmissing) as [l Hrewrite].
      unfold bind at 1 2. cbn [ret]. rewrite Hrewrite. by eexists.
    + unfold bind. cbn [ret]. rewrite Hopen. by eexists.
  - destruct azure.
    + destruct (copy_blob_missing server src dst w Hmissing) as [l Hcopy].
      unfold bind. cbn [ret]. rewrite Hcopy. by eexists.
    + unfold bind. cbn [ret]. rewrite Hopen. by eexists.
Qed.

(** **** [copy] of a source that is there *)











End BlobMore.

Section BlobMoreExamples.
Import Blob.

Lemma directory_functions_add_the_slash_witness :
  isdir (with_slash "gs://bucket/photos") = isdir "gs://bucket/photos"
  ∧ listdir (with_slash "gs://bucket/photos") = listdir "gs://bucket/photos"
  ∧ rmdir (with_slash "gs://bucket/photos") = rmdir "gs://bucket/photos"
  ∧ makedirs (with_slash "gs://bucket/photos") = makedirs "gs://bucket/photos"
  ∧ rmtree (with_slash "gs://bucket/photos") = rmtree "gs://bucket/photos".
Proof.
  apply (directory_functions_add_the_slash Google "gs://bucket/photos").
  reflexivity.
Defined.

Lemma remove_refuses_directories_witness :
  let w := mkWorld {["as://account-container"]}
             {[("as://account-container", "logs/")%string := []]} ∅ ∅ in
  remove "as://account-container/logs/" w = (Raises IsADirectoryError, w, []).
Proof.
  intros w.
  apply (remove_refuses_directories Azure "as://account-container/logs/" w).
  - reflexivity.
  - left. reflexivity.
Defined.

Lemma remove_deletes_the_object_witness :
  let w := mkWorld {["gs://bucket"]}
             {[("gs://bucket", "a.txt")%string := [x6d]%byte]} ∅ ∅ in
  let bare := mkWorld {["gs://bucket"]} ∅ ∅ ∅ in
  (let first := remove "gs://bucket/a.txt" w in
   outcome first = Ok tt
   ∧ world first
     = mkWorld (roots w) (delete ("gs://bucket", "a.txt")%string (blobs w))
         (files w) (dirs w)
   ∧ requests first = [DeleteObject "gs://bucket" "a.txt"]
   ∧ outcome (isfile Google "gs://bucket/a.txt" (world first)) = Ok false
   ∧ outcome (remove "gs://bucket/a.txt" (world first))
     = Raises FileNotFoundError)
  ∧ remove "gs://bucket/a.txt" bare
    = (Raises FileNotFoundError, bare, [DeleteObject "gs://bucket" "a.txt"]).
Proof.
  intros w bare. split.
  - destruct (remove_deletes_the_object Google "gs://bucket/a.txt"
                "gs://bucket" "a.txt" w) as [Hthere _];
      [reflexivity | reflexivity | discriminate | reflexivity |].
    apply Hthere. unfold object_at, w. cbn [roots blobs].
    rewrite decide_True by (by apply elem_of_singleton_2).
    rewrite lookup_singleton_eq. by eexists.
  - destruct (remove_deletes_the_object Google "gs://bucket/a.txt"
                "gs://bucket" "a.txt" bare) as [_ Hmissing];
      [reflexivity | reflexivity | discriminate | reflexivity |].
    apply Hmissing. unfold object_at, bare. cbn [roots blobs].
    rewrite decide_True by (by apply elem_of_singleton_2).
    apply lookup_empty.
Defined.

Lemma makedirs_makes_a_directory_witness :
  let w := mkWorld {["gs://bucket"]}
             {[("gs://bucket", "notes.txt")%string := [x6d]%byte]} ∅ ∅ in
  let nowhere := mkWorld ∅ ∅ ∅ ∅ in
  (let r := makedirs "gs://bucket/photos" w in
   outcome r = Ok tt
   ∧ world r
     = mkWorld (roots w)
         (<[("gs://bucket", "photos/")%string := []]> (blobs w))
         (files w) (dirs w)
   ∧ requests r = [Upload "gs://bucket" "photos/"]
   ∧ outcome (isdir "gs://bucket/photos" (world r)) = Ok true
   ∧ outcome (exists_ "gs://bucket/photos" (world r)) = Ok true)
  ∧ makedirs "gs://bucket/photos" nowhere
    = (Raises AssertionError, nowhere, [Upload "gs://bucket" "photos/"]).
Proof.
  intros w nowhere. split.
  - destruct (makedirs_makes_a_directory Google "gs://bucket/photos"
                "gs://bucket" "photos/" w) as [Hmade _];
      [reflexivity | reflexivity | discriminate |].
    apply Hmade. unfold w. cbn [roots]. by apply elem_of_singleton_2.
  - destruct (makedirs_makes_a_directory Google "gs://bucket/photos"
                "gs://bucket" "photos/" nowhere) as [_ Hrefused];
      [reflexivity | reflexivity | discriminate |].
    apply Hrefused. unfold nowhere. cbn [roots]. apply not_elem_of_empty.
Defined.

Lemma makedirs_then_rmdir_witness :
  let w := mkWorld {["as://account-container"]}
             {[("as://account-container", "notes.txt")%string
                 := [x6d]%byte]} ∅ ∅ in
  let made := world (makedirs "as://account-container/photos" w) in
  outcome (listdir "as://account-container/photos" made) = Ok []
  ∧ outcome (rmdir "as://account-container/photos" made) = Ok tt
  ∧ world (rmdir "as://account-container/photos" made) = w.
Proof.
  intros w.
  apply (makedirs_then_rmdir Azure "as://account-container/photos"
           "as://account-container" "photos/" w);
    [reflexivity | reflexivity | discriminate | |].
  - unfold w. cbn [roots]. by apply elem_of_singleton_2.
  - intros name [content Hsome]. unfold w in Hsome. cbn [blobs] in Hsome.
    apply lookup_singleton_Some in Hsome as [[= <-] _]. reflexivity.
Defined.

Lemma rmdir_of_missing_directory_witness :
  let w := mkWorld {["gs://bucket"]}
             {[("gs://bucket", "notes.txt")%string := [x6d]%byte]} ∅ ∅ in
  outcome (rmdir "gs://bucket/photos" w) = Ok tt
  ∧ world (rmdir "gs://bucket/photos" w) = w
  ∧ Forall (λ q, is_read q = true) (requests (rmdir "gs://bucket/photos" w)).
Proof.
  intros w.
  apply (rmdir_of_missing_directory Google "gs://bucket/photos"
           "gs://bucket" "photos/" w);
    [reflexivity | reflexivity | discriminate | |].
  - unfold w. cbn [roots]. by apply elem_of_singleton_2.
  - intros name [content Hsome]. unfold w in Hsome. cbn [blobs] in Hsome.
    apply lookup_singleton_Some in Hsome as [[= <-] _]. reflexivity.
Defined.

Lemma rmtree_clears_the_directory_witness :
  let w := mkWorld {["gs://bucket"]}
             (<[("gs://bucket", "photos/cat.png")%string := [x6d]%byte]>
                {[("gs://bucket", "notes.txt")%string := [x65]%byte]}) ∅ ∅ in
  let bare := mkWorld {["gs://bucket"]}
                {[("gs://bucket", "notes.txt")%string := [x65]%byte]} ∅ ∅ in
  (let r := rmtree "gs://bucket/photos" w in
   outcome r = Ok tt
   ∧ (∀ r' name,
        blobs (world r) !! (r', name)
        = if bool_decide (r' = "gs://bucket"%string)
             && String.prefix "photos/" name
          then None else blobs w !! (r', name))
   ∧ roots (world r) = roots w ∧ files (world r) = files w
   ∧ dirs (world r) = dirs w
   ∧ outcome (exists_ (with_slash "gs://bucket/photos") (world r)) = Ok false)
  ∧ (outcome (rmtree "gs://bucket/photos" bare) = Raises NotADirectoryError
     ∧ world (rmtree "gs://bucket/photos" bare) = bare).
Proof.
  intros w bare. split.
  - destruct (rmtree_clears_the_directory Google "gs://bucket/photos"
                "gs://bucket" "photos/" w) as [Hfull _];
      [reflexivity | reflexivity | discriminate
      | unfold w; cbn [roots]; by apply elem_of_singleton_2 |].
    apply Hfull. exists "photos/cat.png"%string. split; [| reflexivity].
    unfold w. cbn [blobs]. rewrite lookup_insert_eq. by eexists.
  - destruct (rmtree_clears_the_directory Google "gs://bucket/photos"
                "gs://bucket" "photos/" bare) as [_ Hnone];
      [reflexivity | reflexivity | discriminate
      | unfold bare; cbn [roots]; by apply elem_of_singleton_2 |].
    apply Hnone. intros name [content Hsome].
    unfold bare in Hsome. cbn [blobs] in Hsome.
    apply lookup_singleton_Some in Hsome as [[= <-] _]. reflexivity.
Defined.

Lemma copy_of_missing_source_witness :
  let w := mkWorld {["gs://bucket"]}
             {[("gs://bucket", "a.txt")%string := [x6d]%byte]}
             {["/tmp/b.txt"%string := [x65]%byte]} {["/tmp"%string]} in
  let r := copy prompt_server 1 "gs://bucket/missing.txt" "/tmp/b.txt"
             true false w in
  outcome r = Raises FileNotFoundError ∧ world r = w.
Proof.
  intros w.
  apply (copy_of_missing_source prompt_server 0 Google
           "gs://bucket/missing.txt" "/tmp/b.txt" true false w).
  - reflexivity.
  - reflexivity.
  - change (locate Google "gs://bucket/missing.txt")
      with ("gs://bucket"%string, "missing.txt"%string).
    cbn [fst snd]. unfold object_at, w. cbn [roots blobs].
    rewrite decide_True by (by apply elem_of_singleton_2).
    by apply lookup_singleton_ne.
  - by exists true.
  - by left.
Defined.


Lemma exists_is_file_or_directory_witness :
  let w := mkWorld {["gs://bucket"]}
             {[("gs://bucket", "photos/cat.png")%string := [x6d]%byte]} ∅ ∅ in
  ∃ is_dir found,
    outcome (isdir "gs://bucket/photos" w) = Ok is_dir
    ∧ outcome (exists_ "gs://bucket/photos" w) = Ok found
    ∧ (is_dir = true
       ↔ ∃ name, is_Some (blobs w !! ("gs://bucket"%string, name))
                 ∧ String.prefix "photos/" name = true)
    ∧ (found = true
       ↔ is_Some (blobs w !! ("gs://bucket", "photos")%string)
         ∨ is_dir = true).
Proof.
  intros w.
  apply (exists_is_file_or_directory Google "gs://bucket/photos"
           "gs://bucket" "photos" "photos/" w);
    [reflexivity | reflexivity | discriminate | reflexivity | discriminate |].
  unfold w. cbn [roots]. by apply elem_of_singleton_2.
Defined.

End BlobMoreExamples.
